(** * A* search over a geographic graph (a_star.c)

    A shallow embedding of [a_star.c]: the adjacency lists, the graph
    constructors, the cost bookkeeping and the search loop, followed by the
    properties of the search that the design document states.

    Conventions.
    - A C [double] is a binary64 value of [PrimFloat]; [sqrt] is the
      correctly rounded square root and [pow (x, 2)] the correctly rounded
      square.  C does not fix the last bit of [pow]: the exact values
      stated below are of runs on which every square is exact, and the
      other facts are about signs, zeros and symmetry.
    - A node number is an index into [graph->nodes]; it is a [nat] here, and
      an index that is out of range or that designates a slot still [NULL]
      makes the operation [Fault] (the C code dereferences it unchecked).
      A negative [int], which the C code dereferences unchecked as well,
      is not a value of the model: nothing below is about one.
    - A linked [intlist_t] is a [list nat].
    - [util.h] (the queue and the set) is not part of the file; the queue is
      an interface with the laws of the design document, the set is a
      finite set. *)

From Stdlib Require Import Floats ZArith Lia.
From stdpp Require Import base option list sets gmap strings pretty.

#[local] Set Warnings "-clear-no-such-hyp".

(** ** Results of operations that can go wrong *)

(** [Fault] is undefined behaviour of the C code (an index out of range, a
    [NULL] node); [Timeout] is the loop budget of the model running out. *)
Inductive outcome (A : Type) : Type :=
  | Ok (a : A)
  | Fault
  | Timeout.
Arguments Ok {A} a.
Arguments Fault {A}.
Arguments Timeout {A}.

Definition obind {A B} (m : outcome A) (k : A → outcome B) : outcome B :=
  match m with
  | Ok a => k a
  | Fault => Fault
  | Timeout => Timeout
  end.

Notation "x ←! m ; k" := (obind m (λ x, k))
  (at level 20, m at level 100, k at level 200, right associativity,
   format "x  ←!  m ;  '/' k").

(** ** Linked lists of node numbers *)

(** [cons val next] allocates one cell. *)
Definition cons (val : nat) (next : list nat) : list nat := val :: next.

(** [insert list val] walks to the last cell and links a new one after it. *)
Fixpoint insert (l : list nat) (val : nat) : list nat :=
  match l with
  | [] => cons val []
  | x :: next => x :: insert next val
  end.

(** ** Nodes and graphs *)

Record node_t := Node {
  node_num : nat;
  city_name : string;
  latitude : float;
  longitude : float;
  neighbors : list nat;
  parent : option nat;      (* the node number of the node pointed to *)
  f_cost : float;
  g_cost : float;
  h_cost : float;
}.

Record graph_t := Graph {
  num_nodes : nat;
  nodes : list (option node_t);   (* [None] is a [NULL] slot *)
}.

(** The node in slot [i], if the slot exists and is not [NULL]. *)
Definition node_at (graph : graph_t) (i : nat) : option node_t :=
  match nodes graph !! i with
  | Some (Some nd) => Some nd
  | _ => None
  end.

(** [graph->nodes[i]->...]: reading through the slot. *)
Definition get_node (graph : graph_t) (i : nat) : outcome node_t :=
  match node_at graph i with
  | Some nd => Ok nd
  | None => Fault
  end.

Definition set_node (graph : graph_t) (i : nat) (nd : node_t) : graph_t :=
  {| num_nodes := num_nodes graph; nodes := <[i := Some nd]> (nodes graph) |}.

Definition with_neighbors (nd : node_t) (l : list nat) : node_t :=
  {| node_num := node_num nd; city_name := city_name nd;
     latitude := latitude nd; longitude := longitude nd;
     neighbors := l; parent := parent nd;
     f_cost := f_cost nd; g_cost := g_cost nd; h_cost := h_cost nd |}.

Definition with_parent (nd : node_t) (p : option nat) : node_t :=
  {| node_num := node_num nd; city_name := city_name nd;
     latitude := latitude nd; longitude := longitude nd;
     neighbors := neighbors nd; parent := p;
     f_cost := f_cost nd; g_cost := g_cost nd; h_cost := h_cost nd |}.

Definition with_f_cost (nd : node_t) (c : float) : node_t :=
  {| node_num := node_num nd; city_name := city_name nd;
     latitude := latitude nd; longitude := longitude nd;
     neighbors := neighbors nd; parent := parent nd;
     f_cost := c; g_cost := g_cost nd; h_cost := h_cost nd |}.

Definition with_g_cost (nd : node_t) (c : float) : node_t :=
  {| node_num := node_num nd; city_name := city_name nd;
     latitude := latitude nd; longitude := longitude nd;
     neighbors := neighbors nd; parent := parent nd;
     f_cost := f_cost nd; g_cost := c; h_cost := h_cost nd |}.

Definition with_h_cost (nd : node_t) (c : float) : node_t :=
  {| node_num := node_num nd; city_name := city_name nd;
     latitude := latitude nd; longitude := longitude nd;
     neighbors := neighbors nd; parent := parent nd;
     f_cost := f_cost nd; g_cost := g_cost nd; h_cost := c |}.

(** [graph_create num_nodes]: [calloc] leaves every slot [NULL]. *)
Definition graph_create (n : nat) : graph_t :=
  {| num_nodes := n; nodes := replicate n None |}.

(** [node_create]: a fresh node with no neighbour, no parent and zero costs
    is stored in slot [node_num], for the node numbers from [0] on: past
    the end of the array the store is out of bounds. *)
Definition node_create (graph : graph_t) (i : nat) (name : string)
    (lat lon : float) : outcome graph_t :=
  if decide (i < length (nodes graph)) then
    Ok (set_node graph i
          {| node_num := i; city_name := name;
             latitude := lat; longitude := lon;
             neighbors := []; parent := None;
             f_cost := 0%float; g_cost := 0%float; h_cost := 0%float |})
  else Fault.

(** [add_edge]: two assignments, the second one reading the graph the first
    one wrote. *)
Definition add_edge (graph : graph_t) (node_num1 node_num2 : nat)
    : outcome graph_t :=
  n1 ←! get_node graph node_num1;
  let graph1 :=
    set_node graph node_num1
      (with_neighbors n1 (insert (neighbors n1) node_num2)) in
  n2 ←! get_node graph1 node_num2;
  Ok (set_node graph1 node_num2
        (with_neighbors n2 (insert (neighbors n2) node_num1))).

(** ** Cost model *)

(** [pow (x, 2)], taken as the correctly rounded square. *)
Definition pow2 (x : float) : float := (x * x)%float.

Definition calculate_distance (graph : graph_t) (num1 num2 : nat)
    : outcome float :=
  n1 ←! get_node graph num1;
  n2 ←! get_node graph num2;
  let y := (latitude n1 - latitude n2)%float in
  let x := (longitude n1 - longitude n2)%float in
  Ok (sqrt (pow2 x + pow2 y)%float).

Definition calculate_g_cost (graph : graph_t) (curr target : nat)
    : outcome float :=
  nc ←! get_node graph curr;
  d ←! calculate_distance graph curr target;
  Ok (g_cost nc + d)%float.

Definition fcost (graph : graph_t) (curr : nat) : outcome float :=
  nc ←! get_node graph curr; Ok (f_cost nc).

Definition gcost (graph : graph_t) (curr : nat) : outcome float :=
  nc ←! get_node graph curr; Ok (g_cost nc).

Definition set_h_cost (graph : graph_t) (curr end_ : nat) : outcome graph_t :=
  d ←! calculate_distance graph curr end_;
  nc ←! get_node graph curr;
  Ok (set_node graph curr (with_h_cost nc d)).

Definition set_f_cost (graph : graph_t) (curr : nat) : outcome graph_t :=
  nc ←! get_node graph curr;
  Ok (set_node graph curr (with_f_cost nc (g_cost nc + h_cost nc)%float)).

(** The two direct stores of the relaxation step,
    [graph->nodes[neighbor]->g_cost = potential_g] and
    [graph->nodes[neighbor]->parent = graph->nodes[curr]]; the second one
    copies the pointer in slot [curr], which is [NULL] for an empty slot. *)
Definition set_g_cost (graph : graph_t) (i : nat) (c : float)
    : outcome graph_t :=
  nd ←! get_node graph i; Ok (set_node graph i (with_g_cost nd c)).

Definition set_parent (graph : graph_t) (i curr : nat) : outcome graph_t :=
  nd ←! get_node graph i;
  match nodes graph !! curr with
  | Some slot => Ok (set_node graph i (with_parent nd ((λ _, curr) <$> slot)))
  | None => Fault
  end.

(** ** The open set: a priority queue *)

(** Modelled from the spec: [util.h] is missing, so the queue is the
    interface of section 4.3 of the design document.  [queue_entries] is the
    abstract content of a queue, the live (node, priority) entries in no
    particular order; it is what the laws are stated on. *)
Class Queue (Q : Type) := {
  queue_create : Q;
  queue_add : Q → nat → float → Q;
  queue_remove : Q → option (nat * Q);
  queue_is_empty : Q → bool;
  queue_query : Q → nat → bool;
  queue_change_priority : Q → nat → float → Q;
  queue_entries : Q → list (nat * float);
}.

(** The node numbers that have an entry. *)
Definition queue_ids `{Queue Q} (q : Q) : list nat := (queue_entries q).*1.

(** Modelled from the spec: the contract of section 4.3.  [queue_add] adds
    an entry, [queue_remove] fails on the empty queue and otherwise takes
    out one entry whose priority is smallest (which one among equals is up
    to the implementation; priorities that are not numbers are not
    ordered, so the law speaks of queues without them), [queue_query] is
    membership, [queue_change_priority] rewrites the priority of the
    entries of a node, [queue_is_empty] tests for no entry. *)
Class QueueLaws (Q : Type) `{Queue Q} := {
  queue_create_entries : queue_entries queue_create = [];
  queue_add_entries q i p :
    queue_entries (queue_add q i p) ≡ₚ ((i, p) :: queue_entries q);
  queue_remove_None q :
    queue_remove q = None ↔ queue_entries q = [];
  queue_remove_Some q i q' :
    queue_remove q = Some (i, q') →
    ∃ p, queue_entries q ≡ₚ ((i, p) :: queue_entries q') ∧
         (Forall (λ e, is_nan e.2 = false) (queue_entries q) →
          Forall (λ e, (p <=? e.2)%float = true) (queue_entries q));
  queue_is_empty_spec q :
    queue_is_empty q = true ↔ queue_entries q = [];
  queue_query_spec q i :
    queue_query q i = true ↔ i ∈ queue_ids q;
  queue_change_priority_entries q i p :
    queue_entries (queue_change_priority q i p) ≡ₚ
      (λ e, if decide (e.1 = i) then (i, p) else e) <$> queue_entries q;
}.

(** ** The closed set *)

(** Modelled from the spec: [util.h] is missing; the set of section 4.4 of
    the design document (add and membership, nothing else) is a finite set
    of node numbers. *)
Definition set_t := gset nat.
Definition set_create : set_t := ∅.
Definition set_add (s : set_t) (i : nat) : set_t := {[i]} ∪ s.
Definition set_query (s : set_t) (i : nat) : bool := bool_decide (i ∈ s).

(** ** The search *)

Inductive exit_t := FOUND | EXHAUSTED.

Section search.
Context {Q : Type} `{Queue Q}.

(** What the search works on: the graph, whose nodes carry the costs, the
    open set and the closed set. *)
Record search := Search {
  s_graph : graph_t;
  open_set : Q;
  closed_set : set_t;
}.

(** The end of a run: how the loop was left, the state it was left in,
    and how many times [queue_remove] was called. *)
Record run := Run {
  r_exit : exit_t;
  r_final : search;
  r_extractions : nat;
}.

(** The statements before the loop. *)
Definition a_star_init (graph : graph_t) (start_node_num end_node_num : nat)
    : outcome search :=
  g1 ←! set_h_cost graph start_node_num end_node_num;
  g2 ←! set_f_cost g1 start_node_num;
  f ←! fcost g2 start_node_num;
  Ok {| s_graph := g2;
        open_set := queue_add queue_create start_node_num f;
        closed_set := set_create |}.

(** One turn of the inner loop, for the neighbour [neighbor] of [curr]. *)
Definition relax (end_node_num curr : nat) (st : search) (neighbor : nat)
    : outcome search :=
  g1 ←! set_h_cost (s_graph st) neighbor end_node_num;
  potential_g ←! calculate_g_cost g1 curr neighbor;
  let st1 := {| s_graph := g1; open_set := open_set st;
                closed_set := closed_set st |} in
  (* skip condition1 *)
  skip ←! (if queue_query (open_set st) neighbor then
             gn ←! gcost g1 neighbor; Ok (gn <=? potential_g)%float
           else Ok false);
  if skip then Ok st1
  (* skip condition2 *)
  else if set_query (closed_set st) neighbor then Ok st1
  else
    g2 ←! set_g_cost g1 neighbor potential_g;
    g3 ←! set_f_cost g2 neighbor;
    g4 ←! set_parent g3 neighbor curr;
    f ←! fcost g4 neighbor;
    if negb (queue_query (open_set st) neighbor) then
      Ok {| s_graph := g4;
            open_set := queue_add (open_set st) neighbor f;
            closed_set := closed_set st |}
    else
      Ok {| s_graph := g4;
            open_set := queue_change_priority (open_set st) neighbor f;
            closed_set := closed_set st |}.

(** The inner loop over the neighbour list of [curr]. *)
Fixpoint expand (end_node_num curr : nat) (st : search)
    (curr_list : list nat) : outcome search :=
  match curr_list with
  | [] => Ok st
  | neighbor :: next =>
      st' ←! relax end_node_num curr st neighbor;
      expand end_node_num curr st' next
  end.

(** The outer loop; [fuel] bounds the number of times its condition is
    evaluated, [count] is the number of extractions so far. *)
Fixpoint a_star_loop (fuel : nat) (end_node_num : nat) (count : nat)
    (st : search) : outcome run :=
  match fuel with
  | 0 => Timeout
  | S fuel' =>
      if queue_is_empty (open_set st) then
        Ok {| r_exit := EXHAUSTED; r_final := st; r_extractions := count |}
      else
        match queue_remove (open_set st) with
        | None => Fault
        | Some (curr, q') =>
            let st1 := {| s_graph := s_graph st; open_set := q';
                          closed_set := closed_set st |} in
            if decide (curr = end_node_num) then
              Ok {| r_exit := FOUND; r_final := st1;
                    r_extractions := S count |}
            else
              nc ←! get_node (s_graph st1) curr;
              st2 ←! expand end_node_num curr st1 (neighbors nc);
              a_star_loop fuel' end_node_num (S count)
                {| s_graph := s_graph st2; open_set := open_set st2;
                   closed_set := set_add (closed_set st2) curr |}
        end
  end.

(** The loop budget [a_star] runs with; [a_star_terminates] shows that it
    is never used up on a well-formed graph. *)
Definition a_star_fuel (graph : graph_t) : nat := 2 * num_nodes graph + 1.

(** The run of the search up to the end of the loop. *)
Definition a_star_run (graph : graph_t) (start_node_num end_node_num : nat)
    : outcome run :=
  st ←! a_star_init graph start_node_num end_node_num;
  a_star_loop (a_star_fuel graph) end_node_num 0 st.

(** The statements after the loop. *)
Definition a_star_result (graph : graph_t) (end_node_num : nat)
    : outcome float :=
  g ←! gcost graph end_node_num;
  if (g =? 0)%float then Ok (-1)%float
  else fcost graph end_node_num.

Definition a_star (graph : graph_t) (start_node_num end_node_num : nat)
    : outcome float :=
  r ←! a_star_run graph start_node_num end_node_num;
  a_star_result (s_graph (r_final r)) end_node_num.

End search.

Arguments search Q : clear implicits.
Arguments run Q : clear implicits.

(** ** A queue kept as a list *)

(** Modelled from the spec: the simplest queue that meets the contract, for
    running the search.  Entries are kept in insertion order and the first
    of the entries with the smallest priority is taken out. *)
Module ListQueue.

Definition t := list (nat * float).

(** [extract_min e l] takes the smallest entry out of [e :: l]. *)
Fixpoint extract_min (e : nat * float) (l : t) : (nat * float) * t :=
  match l with
  | [] => (e, [])
  | e' :: l' =>
      let '(m, rest) := extract_min e' l' in
      if (m.2 <? e.2)%float then (m, e :: rest) else (e, l)
  end.

Definition remove (q : t) : option (nat * t) :=
  match q with
  | [] => None
  | e :: l => let '(m, rest) := extract_min e l in Some (m.1, rest)
  end.

Definition query (q : t) (i : nat) : bool :=
  existsb (λ e, Nat.eqb e.1 i) q.

Definition change_priority (q : t) (i : nat) (p : float) : t :=
  (λ e, if decide (e.1 = i) then (i, p) else e) <$> q.

Definition is_empty (q : t) : bool :=
  match q with [] => true | _ => false end.

#[global] Instance queue : Queue t := {|
  queue_create := [];
  queue_add q i p := q ++ [(i, p)];
  queue_remove := remove;
  queue_is_empty := is_empty;
  queue_query := query;
  queue_change_priority := change_priority;
  queue_entries q := q;
|}.

End ListQueue.

(** ** Graphs of the design document's scenarios *)

(** Builds a graph from coordinates and edges with [graph_create],
    [node_create] and [add_edge]. *)
Fixpoint create_nodes (graph : graph_t) (i : nat) (coords : list (float * float))
    : outcome graph_t :=
  match coords with
  | [] => Ok graph
  | (lat, lon) :: rest =>
      g ←! node_create graph i "city" lat lon;
      create_nodes g (S i) rest
  end.

Fixpoint add_edges (graph : graph_t) (edges : list (nat * nat))
    : outcome graph_t :=
  match edges with
  | [] => Ok graph
  | (a, b) :: rest => g ←! add_edge graph a b; add_edges g rest
  end.

Definition build (coords : list (float * float)) (edges : list (nat * nat))
    : outcome graph_t :=
  g ←! create_nodes (graph_create (length coords)) 0 coords;
  add_edges g edges.

Definition square_coords : list (float * float) :=
  [(0, 0); (1, 0); (1, 1); (0, 1)]%float.
Definition square_edges : list (nat * nat) := [(0, 1); (1, 2); (2, 3); (3, 0)].

(** The graph that [build] returns, for coordinates and edges that it
    accepts. *)
Definition built (coords : list (float * float)) (edges : list (nat * nat))
    : graph_t :=
  match build coords edges with
  | Ok g => g
  | _ => graph_create 0
  end.

(** The unit square with its four sides. *)
Definition square : graph_t := built square_coords square_edges.

(** Three nodes and no edge. *)
Definition islands : graph_t := built [(0, 0); (3, 4); (1, 1)]%float [].

(** Two nodes at the same place, joined by an edge. *)
Definition twins : graph_t := built [(0, 0); (0, 0)]%float [(0, 1)].

(** A node that is its own neighbour, on a path of two edges. *)
Definition detour : graph_t :=
  built [(0, 0); (1, 1); (2, 0)]%float [(0, 0); (0, 1); (1, 2)].

(** One node. *)
Definition lone : graph_t := built [(0, 0)]%float [].

(** Two nodes at distance 5, joined by an edge. *)
Definition segment : graph_t := built [(0, 0); (3, 4)]%float [(0, 1)].

(** Two nodes [2^-600] apart, joined by an edge. *)
Definition nearby : graph_t := built [(0, 0); (0x1p-600, 0)]%float [(0, 1)].

(** A node and one with an infinite coordinate, joined by an edge. *)
Definition far : graph_t := built [(0, 0); (infinity, 0)]%float [(0, 1)].

(** The length of the path that visits the nodes of [path] in turn. *)
Fixpoint path_length (graph : graph_t) (path : list nat) : outcome float :=
  match path with
  | a :: (b :: _) as rest =>
      d ←! calculate_distance graph a b;
      l ←! path_length graph rest;
      Ok (d + l)%float
  | _ => Ok 0%float
  end.

(** ** Well-formed inputs *)

#[global] Instance float_eq_dec : EqDecision float.
Proof.
  intros x y. destruct (PrimFloat.Leibniz.eqb x y) eqn:E.
  - left. by apply FloatAxioms.Leibniz.eqb_spec.
  - right. intros Hxy. apply FloatAxioms.Leibniz.eqb_spec in Hxy. congruence.
Defined.

(** A valid node number designates a created node. *)
Definition valid_node (graph : graph_t) (i : nat) : Prop :=
  is_Some (node_at graph i).

(** A property of every created node of a graph. *)
Definition all_nodes (P : node_t → Prop) (graph : graph_t) : Prop :=
  Forall (from_option P True) (nodes graph).

#[global] Instance from_option_True_dec {A} (P : A → Prop)
  `{∀ a, Decision (P a)} (o : option A) : Decision (from_option P True o).
Proof. destruct o; simpl; apply _. Defined.

#[global] Instance all_nodes_dec P `{∀ nd, Decision (P nd)} graph :
  Decision (all_nodes P graph).
Proof. apply _. Defined.

(** The graph has the node count it was created with and no neighbour list
    names a slot without a node. *)
Definition well_formed (graph : graph_t) : Prop :=
  length (nodes graph) = num_nodes graph ∧
  all_nodes (λ nd, Forall (valid_node graph) (neighbors nd)) graph.

#[global] Instance well_formed_dec graph : Decision (well_formed graph).
Proof. apply _. Defined.

(** The cost state [node_create] leaves behind. *)
Definition fresh_node (nd : node_t) : Prop :=
  g_cost nd = 0%float ∧ h_cost nd = 0%float ∧ f_cost nd = 0%float ∧
  parent nd = None.

Definition fresh (graph : graph_t) : Prop := all_nodes fresh_node graph.

#[global] Instance fresh_dec graph : Decision (fresh graph).
Proof. apply _. Defined.

(** The graphs that the construction interface builds: [graph_create],
    then any number of [node_create] and [add_edge]. *)
Inductive constructed : graph_t → Prop :=
  | constructed_create n : constructed (graph_create n)
  | constructed_node g i name lat lon g' :
      constructed g → node_create g i name lat lon = Ok g' →
      constructed g'
  | constructed_edge g a b g' :
      constructed g → add_edge g a b = Ok g' → constructed g'.

(** The coordinates of node [i] are numbers (neither infinite nor NaN). *)
Definition finite_coords (graph : graph_t) (i : nat) : Prop :=
  ∃ nd, node_at graph i = Some nd ∧
        is_finite (latitude nd) = true ∧ is_finite (longitude nd) = true.

(** No node is its own neighbour. *)
Definition no_self_loop (graph : graph_t) : Prop :=
  ∀ i nd, node_at graph i = Some nd → i ∉ neighbors nd.

(** [edge graph a b]: [b] is in the neighbour list of [a]. *)
Definition edge (graph : graph_t) (a b : nat) : Prop :=
  ∃ nd, node_at graph a = Some nd ∧ b ∈ neighbors nd.

(** [reachable graph a b]: a path of edges leads from [a] to [b]; the
    nodes reachable from [a] are the connected component of [a]. *)
Definition reachable (graph : graph_t) : nat → nat → Prop := rtc (edge graph).

(** ** The search, step by step *)

(** Where the control of the outer loop is: at the loop condition, inside
    the inner loop for the node [curr] with the rest of its neighbour list
    still to visit, or past the loop. *)
Inductive phase :=
  | AtHead
  | Expanding (curr : nat) (curr_list : list nat)
  | Left (how : exit_t).

Section steps.
Context {Q : Type} `{Queue Q}.

Definition with_open (st : search Q) (q : Q) : search Q :=
  {| s_graph := s_graph st; open_set := q; closed_set := closed_set st |}.

Definition with_closed (st : search Q) (c : set_t) : search Q :=
  {| s_graph := s_graph st; open_set := open_set st; closed_set := c |}.

(** The loop of [a_star] towards [end_node_num], one state change at a
    time: leaving the loop on an empty open set, leaving it on dequeuing
    the goal, dequeuing another node, one turn of the inner loop, and the
    [set_add] that follows the inner loop. *)
Inductive step (end_node_num : nat)
    : phase * search Q → phase * search Q → Prop :=
  | step_exhausted st :
      queue_is_empty (open_set st) = true →
      step end_node_num (AtHead, st) (Left EXHAUSTED, st)
  | step_found st q' :
      queue_is_empty (open_set st) = false →
      queue_remove (open_set st) = Some (end_node_num, q') →
      step end_node_num (AtHead, st) (Left FOUND, with_open st q')
  | step_extract st curr q' nc :
      queue_is_empty (open_set st) = false →
      queue_remove (open_set st) = Some (curr, q') →
      curr ≠ end_node_num →
      get_node (s_graph st) curr = Ok nc →
      step end_node_num (AtHead, st)
        (Expanding curr (neighbors nc), with_open st q')
  | step_relax st curr neighbor next st' :
      relax end_node_num curr st neighbor = Ok st' →
      step end_node_num (Expanding curr (neighbor :: next), st)
        (Expanding curr next, st')
  | step_close st curr :
      step end_node_num (Expanding curr [], st)
        (AtHead, with_closed st (set_add (closed_set st) curr)).

(** The cost fields of node [i] that a relaxation writes. *)
Definition path_fields (st : search Q) (i : nat)
    : option (float * float * option nat) :=
  (λ nd, (g_cost nd, f_cost nd, parent nd)) <$> node_at (s_graph st) i.

End steps.

(** ** What an edge insertion is said to do *)

(** The neighbour list of node [i]. *)
Definition neighbors_of (graph : graph_t) (i : nat) : option (list nat) :=
  neighbors <$> node_at graph i.

(** [add_edge graph a b] succeeds, puts [b] once at the end of the list of
    [a] and [a] once at the end of the list of [b], and leaves the other
    lists alone. *)
Definition appends_once (graph : graph_t) (a b : nat) : Prop :=
  ∃ la lb graph',
    neighbors_of graph a = Some la ∧ neighbors_of graph b = Some lb ∧
    add_edge graph a b = Ok graph' ∧
    neighbors_of graph' a = Some (la ++ [b]) ∧
    neighbors_of graph' b = Some (lb ++ [a]) ∧
    ∀ c, c ≠ a → c ≠ b → neighbors_of graph' c = neighbors_of graph c.

(** ** What the search leaves alone, what it writes *)

(** The part of a node that the search never writes. *)
Definition node_shape (nd : node_t) : float * float * list nat :=
  (latitude nd, longitude nd, neighbors nd).

(** Two graphs with the same nodes, coordinates and edges. *)
Definition same_shape (g g' : graph_t) : Prop :=
  num_nodes g = num_nodes g' ∧ length (nodes g) = length (nodes g') ∧
  ∀ i, node_shape <$> node_at g i = node_shape <$> node_at g' i.

(** The value [calculate_distance] computes from two nodes. *)
Definition node_distance (n1 n2 : node_t) : float :=
  sqrt (pow2 (longitude n1 - longitude n2)
        + pow2 (latitude n1 - latitude n2))%float.

(** The node a relaxation through [curr] leaves in the slot of a
    neighbour. *)
Definition relaxed (nd : node_t) (g h : float) (curr : nat) : node_t :=
  with_parent (with_f_cost (with_g_cost (with_h_cost nd h) g) (g + h)%float)
    (Some curr).

(** ** Invariants of the search *)

(** The created nodes of a graph, as a set of node numbers. *)
Definition node_set (graph : graph_t) : gset nat :=
  list_to_set
    (filter (λ i, is_Some (node_at graph i)) (seq 0 (length (nodes graph)))).

Section invariants.
Context {Q : Type} `{Queue Q}.

(** The node numbers in the open set, as a set. *)
Definition open_ids (st : search Q) : gset nat :=
  list_to_set (queue_ids (open_set st)).

(** [seen pending st i]: node [i] is in the open set, in the closed set,
    or is the node being expanded ([pending] holds that node between its
    extraction and its [set_add], and is empty otherwise). *)
Definition seen (pending : gset nat) (st : search Q) (i : nat) : Prop :=
  i ∈ queue_ids (open_set st) ∨ i ∈ closed_set st ∨ i ∈ pending.

(** What holds of the state of a search from [s] to [e] on the graph [g0]
    whenever the loop condition is evaluated, and with [pending] during an
    expansion. *)
Record search_inv (g0 : graph_t) (s e : nat) (pending : gset nat)
    (st : search Q) : Prop := {
  inv_shape : same_shape g0 (s_graph st);
  inv_nodup : NoDup (queue_ids (open_set st));
  inv_reach : ∀ i, seen pending st i → reachable g0 s i;
  inv_start : seen pending st s;
  inv_closed : ∀ c n, c ∈ closed_set st → edge g0 c n → seen pending st n;
  inv_untouched : ∀ i,
    ¬ reachable g0 s i →
    (g_cost <$> node_at (s_graph st) i) = (g_cost <$> node_at g0 i);
  inv_costs : ∀ i nd ne,
    i ∈ queue_ids (open_set st) →
    node_at (s_graph st) i = Some nd → node_at g0 e = Some ne →
    h_cost nd = node_distance nd ne ∧
    f_cost nd = (g_cost nd + h_cost nd)%float;
  inv_disjoint : ∀ i,
    no_self_loop g0 → i ∈ queue_ids (open_set st) →
    (i ∉ closed_set st) ∧ (i ∉ pending);
  inv_goal : (e ∉ closed_set st) ∧ (e ∉ pending);
}.

(** Every node the search has seen carries the path cost of the table
    [d]. *)
Definition agrees (d : nat → float) (pending : gset nat) (st : search Q)
    : Prop :=
  ∀ i nd, seen pending st i → node_at (s_graph st) i = Some nd →
          g_cost nd = d i.

(** The quantity that every turn of the outer loop decreases. *)
Definition measure (g0 : graph_t) (st : search Q) : nat :=
  2 * size (node_set g0 ∖ closed_set st)
  + size (open_ids st ∩ closed_set st).

(** How a run that came to an end relates to the last state in which the
    loop condition was evaluated; [I] is whatever else is known to hold of
    the states of the run. *)
Definition ended (g0 : graph_t) (s e : nat)
    (I : gset nat → search Q → Prop) (r : run Q) : Prop :=
  ∃ st, search_inv g0 s e ∅ st ∧ I ∅ st ∧
        s_graph (r_final r) = s_graph st ∧
        closed_set (r_final r) = closed_set st ∧
        match r_exit r with
        | EXHAUSTED => r_final r = st ∧ queue_entries (open_set st) = []
        | FOUND => e ∈ queue_ids (open_set st)
        end.

End invariants.

(** ** Tables of exact path costs *)

(** [exact_costs g s e d]: the table [d] gives the start the path cost it
    has in [g], and along every edge out of a node other than the goal the
    cost of the neighbour is at most the cost through the node and,
    unless the neighbour is the start, equal to it.  On such a graph all
    paths to a node have one length, that of the table. *)
Definition exact_costs (g : graph_t) (s e : nat) (d : nat → float) : Prop :=
  from_option (λ s0, g_cost s0 = d s) True (node_at g s) ∧
  Forall
    (λ c,
       from_option
         (λ nc,
            c ≠ e →
            Forall
              (λ n,
                 from_option
                   (λ nn,
                      (d n <=? d c + node_distance nc nn)%float = true ∧
                      ((n = s ∧ c ≠ s) ∨
                       (d c + node_distance nc nn)%float = d n))
                   True (node_at g n))
              (neighbors nc))
         True (node_at g c))
    (seq 0 (length (nodes g))).

#[global] Instance exact_costs_dec g s e d : Decision (exact_costs g s e d).
Proof. apply _. Defined.

(** The path costs on the unit square from node 0. *)
Definition square_costs (i : nat) : float :=
  nth i [0; 1; 2; 1]%float 0%float.


(** ** Graphs put together in the intended order *)

(** The node [node_create] stores. *)
Definition new_node (i : nat) (name : string) (lat lon : float) : node_t :=
  {| node_num := i; city_name := name; latitude := lat; longitude := lon;
     neighbors := []; parent := None;
     f_cost := 0%float; g_cost := 0%float; h_cost := 0%float |}.

(** Everything of a node but its neighbour list: what [add_edge] leaves
    alone. *)
Definition node_payload (nd : node_t)
    : nat * string * float * float * option nat * float * float * float :=
  (node_num nd, city_name nd, latitude nd, longitude nd, parent nd,
   f_cost nd, g_cost nd, h_cost nd).

(** The fields of a node that only the construction interface writes:
    what [a_star] leaves alone. *)
Definition node_static (nd : node_t)
    : nat * string * float * float * list nat :=
  (node_num nd, city_name nd, latitude nd, longitude nd, neighbors nd).

(** The neighbour relation reads the same in both directions. *)
Definition symmetric (graph : graph_t) : Prop :=
  ∀ a b, edge graph a b → edge graph b a.

(** The graphs of the intended use of the construction interface:
    [graph_create], then [node_create] on slots that are still [NULL] and
    [add_edge], in any order. *)
Inductive assembled : graph_t → Prop :=
  | assembled_create n : assembled (graph_create n)
  | assembled_node g i name lat lon g' :
      assembled g → node_at g i = None →
      node_create g i name lat lon = Ok g' → assembled g'
  | assembled_edge g a b g' :
      assembled g → add_edge g a b = Ok g' → assembled g'.

(** The coordinates of every node are numbers. *)
Definition all_finite (graph : graph_t) : Prop :=
  all_nodes (λ nd, is_finite (latitude nd) = true ∧
                   is_finite (longitude nd) = true) graph.

#[global] Instance all_finite_dec graph : Decision (all_finite graph).
Proof. apply _. Defined.

(** ** Walks and their costs *)

(** [walk graph a path b]: from [a], the nodes of [path] taken in turn are
    each a neighbour of the one before, and the last one is [b] ([a] itself
    when [path] is empty). *)
Fixpoint walk (graph : graph_t) (a : nat) (path : list nat) (b : nat) : Prop :=
  match path with
  | [] => a = b
  | c :: rest => edge graph a c ∧ walk graph c rest b
  end.

(** The cost of a walk as the search adds it up: starting from [acc] at
    [a], the distance of each edge is added in the order of the walk, each
    sum rounded. *)
Fixpoint cost_from (graph : graph_t) (acc : float) (a : nat) (path : list nat)
    : outcome float :=
  match path with
  | [] => Ok acc
  | b :: rest =>
      d ←! calculate_distance graph a b;
      cost_from graph (acc + d)%float b rest
  end.

(** [parent_chain graph a path]: each node of [path] has for parent the
    node before it, the first one [a]. *)
Fixpoint parent_chain (graph : graph_t) (a : nat) (path : list nat) : Prop :=
  match path with
  | [] => True
  | b :: rest =>
      (parent <$> node_at graph b) = Some (Some a) ∧ parent_chain graph b rest
  end.

(** ** Signs of binary64 values *)

(** A binary64 value that is a number and not negative: [+0], a positive
    finite number or [+infinity]. *)
Definition SFnonneg (x : spec_float) : bool :=
  match x with
  | S754_zero false | S754_infinity false | S754_finite false _ _ => true
  | _ => false
  end.

Definition nonneg (x : float) : bool := SFnonneg (Prim2SF x).

(** A binary64 value that is not a NaN. *)
Definition SFnumber (x : spec_float) : bool :=
  match x with S754_nan => false | _ => true end.

(** Two values of the same magnitude. *)
Definition SFsame_abs (x y : spec_float) : Prop := x = y ∨ x = SFopp y.

(** ** Further invariants of the search *)

Section more_invariants.
Context {Q : Type} `{Queue Q}.

(** The search has written nothing but cost fields and parents, and
    nothing at all to the nodes that cannot be reached from [s]. *)
Definition untouched (g0 : graph_t) (s : nat) (st : search Q) : Prop :=
  (∀ i, node_static <$> node_at (s_graph st) i
        = node_static <$> node_at g0 i) ∧
  (∀ i, ¬ reachable g0 s i → node_at (s_graph st) i = node_at g0 i).

(** The path cost of every node the search has seen is the cost of a walk
    from [s] to it, added up from the path cost [c0] the start had. *)
Definition costs_of_walks (g0 : graph_t) (s : nat) (c0 : float)
    (pending : gset nat) (st : search Q) : Prop :=
  ∀ i nd, seen pending st i → node_at (s_graph st) i = Some nd →
    ∃ path, walk g0 s path i ∧ cost_from g0 c0 s path = Ok (g_cost nd).

(** The parents of the nodes the search has seen lead back to [s]: every
    seen node is at the end of a walk from [s] along which each node has
    the one before it for parent, whose cost is the path cost of the node,
    and whose nodes before the last are closed or being expanded. *)
Definition parents_lead_back (g0 : graph_t) (s : nat) (pending : gset nat)
    (st : search Q) : Prop :=
  (s ∈ closed_set st ∪ pending ∨
   closed_set st = ∅ ∧ pending = ∅ ∧ ∀ i, i ∈ queue_ids (open_set st) → i = s) ∧
  (parent <$> node_at (s_graph st) s) = Some None ∧
  ∀ i nd, seen pending st i → node_at (s_graph st) i = Some nd →
    ∃ path,
      walk g0 s path i ∧ parent_chain (s_graph st) s path ∧
      cost_from g0 0 s path = Ok (g_cost nd) ∧
      ∀ j, j ∈ removelast (s :: path) → j ∈ closed_set st ∪ pending.

(** The path cost of every node the search has seen is a number that is
    not negative. *)
Definition costs_nonneg (pending : gset nat) (st : search Q) : Prop :=
  ∀ i nd, seen pending st i → node_at (s_graph st) i = Some nd →
    nonneg (g_cost nd) = true.

End more_invariants.

(** ** A graph that has been searched *)

(** The graph a search on the list queue leaves behind. *)
Definition after_search (graph : graph_t) (s e : nat) : graph_t :=
  match a_star_run (Q := ListQueue.t) graph s e with
  | Ok r => s_graph (r_final r)
  | _ => graph
  end.

(** Two nodes at distance 5 joined by an edge and a third node apart, after
    a search from node 0 to node 1. *)
Definition searched : graph_t :=
  after_search (built [(0, 0); (3, 4); (1, 1)]%float [(0, 1)]) 0 1.


(** ** The order of extractions *)

Section order_invariant.
Context {Q : Type} `{Queue Q}.

(** The priorities in the open set are the total costs of the nodes, and
    they are numbers: every entry carries the [f_cost] of its node, which
    is not negative, as is the [g_cost] of the node and of the node being
    expanded; the nodes are those of [g0], where they were. *)
Definition priorities_ok (g0 : graph_t) (c : phase * search Q) : Prop :=
  (∀ i, node_static <$> node_at (s_graph c.2) i
        = node_static <$> node_at g0 i) ∧
  (∀ i p, (i, p) ∈ queue_entries (open_set c.2) →
     ∃ nd, node_at (s_graph c.2) i = Some nd ∧ f_cost nd = p ∧
           nonneg p = true ∧ nonneg (g_cost nd) = true) ∧
  match c.1 with
  | Expanding curr _ =>
      ∃ nd, node_at (s_graph c.2) curr = Some nd ∧ nonneg (g_cost nd) = true
  | _ => True
  end.

End order_invariant.

(** The state of a search on the list queue when the loop is entered, and
    when its condition is evaluated for the second time. *)
Definition started (graph : graph_t) (s e : nat) : search ListQueue.t :=
  match a_star_init graph s e with
  | Ok st => st
  | _ => {| s_graph := graph; open_set := []; closed_set := ∅ |}
  end.

Definition after_first (graph : graph_t) (s e : nat) : search ListQueue.t :=
  match expand e s (with_open (started graph s e) [])
          (default [] (neighbors_of graph s)) with
  | Ok st => with_closed st (set_add (closed_set st) s)
  | _ => started graph s e
  end.


(** * The construction interface, with its memory *)

(** The same functions once more, this time with the memory they work on:
    the blocks that [malloc] and [calloc] hand out, the pointers between
    them, the two output streams, and the exit of the program when memory
    runs out.  This is where [free_list], [print_list], [graph_free] and
    [null_terminate] live.  An [int] is a [nat] as above, and whether an
    allocation succeeds is decided by a count of the allocations that
    are still possible. *)
Module Mem.

(** A pointer is the address of a block, or [NULL]. *)
Definition ptr := option nat.

(** A [node_t] in memory; [city_name] points to a string of the caller,
    which is kept here by value. *)
Record node_b := NodeB {
  b_node_num : nat;
  b_city_name : string;
  b_latitude : float;
  b_longitude : float;
  b_neighbors : ptr;
  b_parent : ptr;
  b_f_cost : float;
  b_g_cost : float;
  b_h_cost : float;
}.

(** What a block holds: nothing yet (fresh from [malloc]), an
    [intlist_t], a [node_t], an array of node pointers, or a [graph_t]. *)
Inductive block :=
  | Raw
  | Cell (num : nat) (next : ptr)
  | NodeBlk (nd : node_b)
  | Slots (slots : list ptr)
  | GraphBlk (num_nodes : nat) (nodes : ptr).

(** The memory: the allocated blocks, the number of allocations that will
    still succeed, and what has been written to [stdout] and [stderr]. *)
Record mem := MemState {
  blocks : gmap nat block;
  room : nat;
  out : list string;
  err : list string;
}.

(** How a computation ends: it returns, the program exits, the behaviour
    is undefined, or the loop budget of the model runs out. *)
Inductive res (A : Type) : Type :=
  | Ret (a : A) (m : mem)
  | Exit (status : nat) (m : mem)
  | Undef
  | Loop.
Arguments Ret {A} a m.
Arguments Exit {A} status m.
Arguments Undef {A}.
Arguments Loop {A}.

Definition M (A : Type) : Type := mem → res A.

Definition ret {A} (a : A) : M A := λ m, Ret a m.

Definition bind {A B} (x : M A) (k : A → M B) : M B :=
  λ m, match x m with
       | Ret a m' => k a m'
       | Exit status m' => Exit status m'
       | Undef => Undef
       | Loop => Loop
       end.

Notation "x ←@ m ; k" := (bind m (λ x, k))
  (at level 20, m at level 100, k at level 200, right associativity,
   format "x  ←@  m ;  '/' k").

Definition with_blocks (m : mem) (b : gmap nat block) : mem :=
  {| blocks := b; room := room m; out := out m; err := err m |}.

(** [malloc]: [NULL] when no room is left, otherwise a block that was not
    allocated, with nothing in it. *)
Definition malloc : M ptr :=
  λ m, match room m with
       | 0 => Ret None m
       | S r =>
           let a := base.fresh (dom (blocks m)) in
           Ret (Some a)
             {| blocks := <[a := Raw]> (blocks m); room := r;
                out := out m; err := err m |}
       end.

(** [calloc (n, sizeof (node_t * ))]: as [malloc], with [n] [NULL]
    pointers in the block.  For [n = 0] C leaves it to the implementation
    whether a block or [NULL] is returned; here it is a block, as with
    glibc. *)
Definition calloc (n : nat) : M ptr :=
  λ m, match room m with
       | 0 => Ret None m
       | S r =>
           let a := base.fresh (dom (blocks m)) in
           Ret (Some a)
             {| blocks := <[a := Slots (replicate n None)]> (blocks m);
                room := r; out := out m; err := err m |}
       end.

(** [free]: nothing for [NULL]; undefined for an address that is not
    allocated. *)
Definition free (p : ptr) : M unit :=
  λ m, match p with
       | None => Ret () m
       | Some a =>
           match blocks m !! a with
           | Some _ =>
               Ret ()
                 {| blocks := delete a (blocks m); room := S (room m);
                    out := out m; err := err m |}
           | None => Undef
           end
       end.

(** Reading and writing through a pointer; undefined through [NULL], a
    dangling pointer, or a pointer to a block of another kind. *)
Definition load (p : ptr) : M block :=
  λ m, match p with
       | Some a => match blocks m !! a with
                   | Some b => Ret b m
                   | None => Undef
                   end
       | None => Undef
       end.

Definition store (p : ptr) (b : block) : M unit :=
  λ m, match p with
       | Some a => match blocks m !! a with
                   | Some _ => Ret () (with_blocks m (<[a := b]> (blocks m)))
                   | None => Undef
                   end
       | None => Undef
       end.

Definition undef {A} : M A := λ _, Undef.

Definition load_cell (p : ptr) : M (nat * ptr) :=
  b ←@ load p;
  match b with Cell num next => ret (num, next) | _ => undef end.

Definition load_node (p : ptr) : M node_b :=
  b ←@ load p;
  match b with NodeBlk nd => ret nd | _ => undef end.

Definition load_graph (p : ptr) : M (nat * ptr) :=
  b ←@ load p;
  match b with GraphBlk n nodes => ret (n, nodes) | _ => undef end.

(** [array[i]], for an array of node pointers. *)
Definition load_slot (p : ptr) (i : nat) : M ptr :=
  b ←@ load p;
  match b with
  | Slots slots => match slots !! i with Some q => ret q | None => undef end
  | _ => undef
  end.

Definition store_slot (p : ptr) (i : nat) (q : ptr) : M unit :=
  b ←@ load p;
  match b with
  | Slots slots =>
      if decide (i < length slots) then store p (Slots (<[i := q]> slots))
      else undef
  | _ => undef
  end.

Definition printf (s : string) : M unit :=
  λ m, Ret () {| blocks := blocks m; room := room m;
                 out := out m ++ [s]; err := err m |}.

Definition fprintf_stderr (s : string) : M unit :=
  λ m, Ret () {| blocks := blocks m; room := room m;
                 out := out m; err := err m ++ [s] |}.

Definition exit {A} (status : nat) : M A := λ m, Exit status m.

(** The budget of the loops over a list: as many turns as there are
    blocks, and one more. *)
Definition budget : M nat := λ m, Ret (S (size (blocks m))) m.

Definition newline : string := String (Ascii.ascii_of_nat 10) EmptyString.

(** ** The functions of [a_star.c] *)

Definition null_terminate {A} : M A :=
  _ ←@ fprintf_stderr ("out of space" +:+ newline);
  exit 1.

Definition cons (val : nat) (next : ptr) : M ptr :=
  new ←@ malloc;
  match new with
  | None => null_terminate
  | Some _ => _ ←@ store new (Cell val next); ret new
  end.

(** The loop of [insert]: [while (last->next != NULL) last = last->next]. *)
Fixpoint last_cell (fuel : nat) (last : ptr) : M ptr :=
  match fuel with
  | 0 => λ _, Loop
  | S fuel' =>
      c ←@ load_cell last;
      match c.2 with
      | None => ret last
      | Some _ => last_cell fuel' c.2
      end
  end.

Definition insert (list : ptr) (val : nat) : M ptr :=
  match list with
  | None => cons val None
  | Some _ =>
      fuel ←@ budget;
      last ←@ last_cell fuel list;
      new ←@ cons val None;
      c ←@ load_cell last;
      _ ←@ store last (Cell c.1 new);
      ret list
  end.

Fixpoint free_list_rec (fuel : nat) (list : ptr) : M unit :=
  match list with
  | None => ret ()
  | Some _ =>
      match fuel with
      | 0 => λ _, Loop
      | S fuel' =>
          c ←@ load_cell list;
          _ ←@ free_list_rec fuel' c.2;
          free list
      end
  end.

Definition free_list (list : ptr) : M unit :=
  fuel ←@ budget; free_list_rec fuel list.

(** The line [print_list] writes for a neighbour. *)
Definition neighbor_line (num : nat) : string :=
  "neighbor is : " +:+ pretty num +:+ newline.

Fixpoint print_list_rec (fuel : nat) (list : ptr) : M unit :=
  match list with
  | None => ret ()
  | Some _ =>
      match fuel with
      | 0 => λ _, Loop
      | S fuel' =>
          c ←@ load_cell list;
          _ ←@ printf (neighbor_line c.1);
          print_list_rec fuel' c.2
      end
  end.

Definition print_list (list : ptr) : M unit :=
  fuel ←@ budget; print_list_rec fuel list.

Definition graph_create (num_nodes : nat) : M ptr :=
  new ←@ malloc;
  new_nodes ←@ calloc num_nodes;
  match new, new_nodes with
  | Some _, Some _ => _ ←@ store new (GraphBlk num_nodes new_nodes); ret new
  | _, _ => null_terminate
  end.

(** [graph->nodes[i]]. *)
Definition node_ptr (graph : ptr) (i : nat) : M ptr :=
  g ←@ load_graph graph; load_slot g.2 i.

Definition node_create (graph : ptr) (node_num : nat) (city_name : string)
    (latitude longitude : float) : M unit :=
  new ←@ malloc;
  match new with
  | None => null_terminate
  | Some _ =>
      _ ←@ store new
             (NodeBlk {| b_node_num := node_num; b_city_name := city_name;
                         b_latitude := latitude; b_longitude := longitude;
                         b_neighbors := None; b_parent := None;
                         b_f_cost := 0; b_g_cost := 0; b_h_cost := 0 |});
      g ←@ load_graph graph;
      store_slot g.2 node_num new
  end.

Definition with_b_neighbors (nd : node_b) (l : ptr) : node_b :=
  {| b_node_num := b_node_num nd; b_city_name := b_city_name nd;
     b_latitude := b_latitude nd; b_longitude := b_longitude nd;
     b_neighbors := l; b_parent := b_parent nd;
     b_f_cost := b_f_cost nd; b_g_cost := b_g_cost nd;
     b_h_cost := b_h_cost nd |}.

(** [graph->nodes[i]->neighbors = insert (graph->nodes[i]->neighbors, val)]. *)
Definition insert_neighbor (graph : ptr) (i val : nat) : M unit :=
  p ←@ node_ptr graph i;
  nd ←@ load_node p;
  l ←@ insert (b_neighbors nd) val;
  p' ←@ node_ptr graph i;
  nd' ←@ load_node p';
  store p' (NodeBlk (with_b_neighbors nd' l)).

Definition add_edge (graph : ptr) (node_num1 node_num2 : nat) : M unit :=
  _ ←@ insert_neighbor graph node_num1 node_num2;
  insert_neighbor graph node_num2 node_num1.

(** The loop of [graph_free]. *)
Fixpoint graph_free_loop (fuel : nat) (graph : ptr) (i : nat) : M unit :=
  match fuel with
  | 0 => λ _, Loop
  | S fuel' =>
      g ←@ load_graph graph;
      if decide (i < g.1) then
        p ←@ node_ptr graph i;
        _ ←@ match p with
             | None => free p
             | Some _ =>
                 nd ←@ load_node p;
                 _ ←@ free_list (b_neighbors nd);
                 p' ←@ node_ptr graph i;
                 free p'
             end;
        graph_free_loop fuel' graph (S i)
      else ret ()
  end.

Definition graph_free (graph : ptr) : M unit :=
  match graph with
  | None => ret ()
  | Some _ =>
      g ←@ load_graph graph;
      _ ←@ graph_free_loop (S g.1) graph 0;
      free graph
  end.

(** The memory of a program that has allocated nothing and can allocate
    [n] blocks. *)
Definition empty (n : nat) : mem :=
  {| blocks := ∅; room := n; out := []; err := [] |}.

(** ** What the memory holds *)

(** [cells h p l addrs]: from the pointer [p], the cells at the
    addresses [addrs] hold the numbers [l], each linked to the next and
    the last to [NULL]. *)
Fixpoint cells (h : gmap nat block) (p : ptr) (l : list nat)
    (addrs : list nat) : Prop :=
  match l, addrs with
  | [], [] => p = None
  | val :: l', a :: addrs' =>
      p = Some a ∧
      ∃ next, h !! a = Some (Cell val next) ∧ cells h next l' addrs'
  | _, _ => False
  end.

(** Where a graph lies: for every slot that holds a node, the address of
    the node and the addresses of the cells of its neighbour list. *)
Abbreviation layout := (list (option (nat * list nat))).

(** The pointer in the slot. *)
Definition slot_ptr (o : option (nat * list nat)) : ptr := fst <$> o.

Definition slot_addrs (o : option (nat * list nat)) : list nat :=
  match o with
  | None => []
  | Some (np, cs) => np :: cs
  end.

Definition layout_addrs (lay : layout) : list nat :=
  mjoin (slot_addrs <$> lay).

(** The [node_t] that holds the fields of [nd], with the two pointers
    given. *)
Definition node_block (nd : node_t) (lp pp : ptr) : node_b :=
  {| b_node_num := node_num nd; b_city_name := city_name nd;
     b_latitude := latitude nd; b_longitude := longitude nd;
     b_neighbors := lp; b_parent := pp;
     b_f_cost := f_cost nd; b_g_cost := g_cost nd; b_h_cost := h_cost nd |}.

(** The parent pointer of a node whose parent is the node number [par]. *)
Definition parent_rep (lay : layout) (par : option nat) (pp : ptr) : Prop :=
  match par with
  | None => pp = None
  | Some k => ∃ o, lay !! k = Some (Some o) ∧ pp = Some o.1
  end.

Definition node_rep (h : gmap nat block) (lay : layout)
    (o : option (nat * list nat)) (n : option node_t) : Prop :=
  match o, n with
  | None, None => True
  | Some (np, cs), Some nd =>
      ∃ lp pp,
        h !! np = Some (NodeBlk (node_block nd lp pp)) ∧
        cells h lp (neighbors nd) cs ∧ parent_rep lay (parent nd) pp
  | _, _ => False
  end.

(** [rep_at m gp ap lay g]: in the memory [m], the [graph_t] at [gp] with
    its array at [ap] and its nodes and cells at [lay] is the graph [g];
    no two of these blocks are the same. *)
Definition rep_at (m : mem) (gp ap : nat) (lay : layout) (g : graph_t)
    : Prop :=
  gp ≠ ap ∧ (gp ∉ layout_addrs lay) ∧ (ap ∉ layout_addrs lay) ∧
  NoDup (layout_addrs lay) ∧
  blocks m !! gp = Some (GraphBlk (num_nodes g) (Some ap)) ∧
  blocks m !! ap = Some (Slots (slot_ptr <$> lay)) ∧
  Forall2 (node_rep (blocks m) lay) lay (nodes g).

(** The memory after [out of space] has been written to [stderr]. *)
Definition out_of_space (m : mem) : mem :=
  {| blocks := blocks m; room := room m; out := out m;
     err := err m ++ ["out of space" +:+ newline] |}.

(** The memory when the loop of [graph_free] has dealt with the slots
    before [i] of a graph laid out at [lay] in [m0]. *)
Definition freed_upto (m0 : mem) (lay : layout) (i : nat) (m : mem) : Prop :=
  (∀ x, blocks m !! x
        = if decide (x ∈ layout_addrs (take i lay)) then None
          else blocks m0 !! x) ∧
  room m = room m0 + length (layout_addrs (take i lay)) ∧
  out m = out m0 ∧ err m = err m0.

(** ** A program *)

(** The memory a computation leaves. *)
Definition after {A} (x : M A) (m : mem) : mem :=
  match x m with
  | Ret _ m' => m'
  | Exit _ m' => m'
  | _ => m
  end.

(** The construction of [segment]: two nodes and the edge between them. *)
Definition make_segment : M ptr :=
  g ←@ graph_create 2;
  _ ←@ node_create g 0 "city" 0 0;
  _ ←@ node_create g 1 "city" 3 4;
  _ ←@ add_edge g 0 1;
  ret g.

(** The memory after that construction, and where the graph lies in it. *)
Definition segment_mem : mem := after make_segment (empty 8).

Definition segment_layout : layout := [Some (2, [4]); Some (3, [5])].

End Mem.

(** * Properties *)

(** ** The result monad *)

Lemma obind_Ok {A B} (m : outcome A) (k : A → outcome B) b :
  obind m k = Ok b ↔ ∃ a, m = Ok a ∧ k a = Ok b.
Proof.
  destruct m as [a| |]; simpl; split.
  - eauto.
  - by intros (a' & [= <-] & Hk).
  - done.
  - by intros (? & ? & _).
  - done.
  - by intros (? & ? & _).
Qed.

(** ** Binary64 arithmetic *)

Module FloatFacts.

Lemma Prim2SF_zero : Prim2SF 0%float = S754_zero false.
Proof. reflexivity. Qed.

Lemma is_finite_SF x :
  is_finite x = true →
  (∃ s, Prim2SF x = S754_zero s) ∨ (∃ s m e, Prim2SF x = S754_finite s m e).
Proof.
  unfold is_finite, is_nan, is_infinity.
  rewrite !FloatAxioms.eqb_spec, abs_spec.
  change (Prim2SF infinity) with (S754_infinity false).
  destruct (Prim2SF x) as [s|s| |s m e]; simpl; try discriminate; eauto.
  - destruct s; discriminate.
Qed.

Lemma float_sub_diag x : is_finite x = true → (x - x)%float = 0%float.
Proof.
  intros Hx. apply Prim2SF_inj. rewrite sub_spec, Prim2SF_zero.
  destruct (is_finite_SF x Hx) as [[s ->]|(s & m & e & ->)].
  - by destruct s.
  - unfold SF64sub, SFsub. rewrite Z.sub_diag. reflexivity.
Qed.

Lemma float_add_zero_r x : (x =? 0)%float = false → (x + 0)%float = x.
Proof.
  rewrite FloatAxioms.eqb_spec, Prim2SF_zero. intros Hx.
  apply Prim2SF_inj. rewrite add_spec, Prim2SF_zero.
  destruct (Prim2SF x) as [s|s| |s m e]; try reflexivity.
  - by destruct s.
Qed.

Lemma float_pos_nonzero x : (0 <? x)%float = true → (x =? 0)%float = false.
Proof.
  rewrite ltb_spec, FloatAxioms.eqb_spec, Prim2SF_zero.
  destruct (Prim2SF x) as [s|s| |s m e]; try done; destruct s; done.
Qed.

Lemma SFleb_trans x y z :
  SFleb x y = true → SFleb y z = true → SFleb x z = true.
Proof.
  unfold SFleb, SFcompare.
  destruct x as [[]|[]| |[] mx ex], y as [[]|[]| |[] my ey],
    z as [[]|[]| |[] mz ez]; simpl; try done;
    change (Pos.compare_cont Eq) with Pos.compare;
    destruct (Z.compare_spec ex ey), (Z.compare_spec ey ez),
      (Z.compare_spec ex ez); simpl; try done; try lia;
    destruct (Pos.compare_spec mx my), (Pos.compare_spec my mz),
      (Pos.compare_spec mx mz); simpl; try done; lia.
Qed.

Lemma SFleb_total x y :
  x ≠ S754_nan → y ≠ S754_nan → SFltb y x = false → SFleb x y = true.
Proof.
  unfold SFleb, SFltb, SFcompare.
  destruct x as [[]|[]| |[] mx ex], y as [[]|[]| |[] my ey];
    simpl; try done;
    change (Pos.compare_cont Eq) with Pos.compare;
    rewrite (Z.compare_antisym ex ey), (Pos.compare_antisym mx my);
    destruct (ex ?= ey)%Z; simpl; try done;
    destruct (mx ?= my)%positive; simpl; done.
Qed.

Lemma SFltb_leb x y : SFltb x y = true → SFleb x y = true.
Proof. unfold SFleb, SFltb. by destruct (SFcompare x y) as [[]|]. Qed.

Lemma is_nan_SF x : is_nan x = false ↔ Prim2SF x ≠ S754_nan.
Proof.
  unfold is_nan. rewrite FloatAxioms.eqb_spec.
  unfold SFeqb, SFcompare.
  destruct (Prim2SF x) as [[]|[]| |[] m e]; simpl; try done;
    change (Pos.compare_cont Eq) with Pos.compare;
    rewrite Z.compare_refl, Pos.compare_refl; done.
Qed.

Lemma float_leb_refl x : is_nan x = false → (x <=? x)%float = true.
Proof.
  unfold is_nan. rewrite FloatAxioms.eqb_spec, leb_spec.
  unfold SFeqb, SFleb. by destruct (SFcompare _ _) as [[]|].
Qed.

Lemma float_leb_trans x y z :
  (x <=? y)%float = true → (y <=? z)%float = true → (x <=? z)%float = true.
Proof. rewrite !leb_spec. apply SFleb_trans. Qed.

Lemma float_leb_total x y :
  is_nan x = false → is_nan y = false →
  (y <? x)%float = false → (x <=? y)%float = true.
Proof. rewrite !is_nan_SF, ltb_spec, leb_spec. apply SFleb_total. Qed.

Lemma float_ltb_leb x y : (x <? y)%float = true → (x <=? y)%float = true.
Proof. rewrite ltb_spec, leb_spec. apply SFltb_leb. Qed.

End FloatFacts.

(** ** The list queue meets the contract *)

Module ListQueueFacts.
Import ListQueue FloatFacts.

Lemma extract_min_perm e l m rest :
  extract_min e l = (m, rest) → e :: l ≡ₚ m :: rest.
Proof.
  revert e m rest. induction l as [|e' l IH]; intros e m rest; simpl.
  - by intros [= <- <-].
  - destruct (extract_min e' l) as [m' rest'] eqn:E.
    destruct (m'.2 <? e.2)%float; intros [= <- <-].
    + rewrite (IH _ _ _ E). apply Permutation_swap.
    + done.
Qed.

Lemma extract_min_least e l m rest :
  extract_min e l = (m, rest) →
  Forall (λ x, is_nan x.2 = false) (e :: l) →
  Forall (λ x, (m.2 <=? x.2)%float = true) (e :: l).
Proof.
  revert e m rest. induction l as [|e' l IH]; intros e m rest; simpl.
  - intros [= <- <-] [He _]%Forall_cons. repeat constructor.
    by apply float_leb_refl.
  - destruct (extract_min e' l) as [m' rest'] eqn:E.
    intros Hm [He Hl]%Forall_cons.
    pose proof (IH _ _ _ E Hl) as Hleast.
    assert (is_nan m'.2 = false) as Hm'.
    { apply extract_min_perm in E.
      eapply (Forall_forall (λ x, is_nan x.2 = false)); [exact Hl|].
      rewrite E. by left. }
    destruct (m'.2 <? e.2)%float eqn:Hlt; injection Hm as <- <-.
    + constructor; [by apply float_ltb_leb | done].
    + constructor; [by apply float_leb_refl |].
      eapply Forall_impl; [exact Hleast|]. intros x Hx. simpl in Hx.
      eapply float_leb_trans; [|exact Hx]. by apply float_leb_total.
Qed.

Lemma query_elem_of (q : t) i : query q i = true ↔ i ∈ q.*1.
Proof.
  unfold query. rewrite existsb_exists, list_elem_of_fmap.
  split.
  - intros (x & Hx%list_elem_of_In & Hi%Nat.eqb_eq). eauto.
  - intros (x & -> & Hx%list_elem_of_In). exists x. by rewrite Nat.eqb_refl.
Qed.

#[global] Instance laws : QueueLaws t.
Proof.
  split.
  - done.
  - intros q i p. simpl. symmetry. apply Permutation_cons_append.
  - intros [|e l]; simpl; [done|].
    by destruct (extract_min e l).
  - intros [|e l] i q'; simpl; [done|].
    destruct (extract_min e l) as [[j p] rest] eqn:E.
    intros [= <- <-]. exists p. split.
    + by apply extract_min_perm.
    + by apply (extract_min_least _ _ _ _ E).
  - by intros [|e l].
  - apply query_elem_of.
  - done.
Qed.

End ListQueueFacts.

(** ** Reading and writing nodes *)

Lemma get_node_Ok graph i nd : get_node graph i = Ok nd ↔ node_at graph i = Some nd.
Proof. unfold get_node. destruct (node_at graph i); naive_solver. Qed.

Lemma node_at_lookup graph i nd :
  node_at graph i = Some nd ↔ nodes graph !! i = Some (Some nd).
Proof.
  unfold node_at. destruct (nodes graph !! i) as [[?|]|]; naive_solver.
Qed.

Lemma node_at_lt graph i nd :
  node_at graph i = Some nd → i < length (nodes graph).
Proof. rewrite node_at_lookup. apply lookup_lt_Some. Qed.

Lemma node_at_set_node graph i j nd :
  i < length (nodes graph) →
  node_at (set_node graph i nd) j
  = if decide (j = i) then Some nd else node_at graph j.
Proof.
  intros Hi. unfold node_at, set_node. simpl. case_decide as Hji.
  - subst j. by rewrite list_lookup_insert_eq.
  - by rewrite list_lookup_insert_ne.
Qed.

Lemma get_node_set_node graph i j nd :
  i < length (nodes graph) →
  get_node (set_node graph i nd) j
  = if decide (j = i) then Ok nd else get_node graph j.
Proof.
  intros Hi. unfold get_node. rewrite node_at_set_node by done.
  by case_decide.
Qed.

Lemma lookup_set_node graph i j nd :
  i < length (nodes graph) →
  nodes (set_node graph i nd) !! j
  = if decide (j = i) then Some (Some nd) else nodes graph !! j.
Proof.
  intros Hi. unfold set_node. simpl. case_decide as Hji.
  - subst j. by rewrite list_lookup_insert_eq.
  - by rewrite list_lookup_insert_ne.
Qed.

Lemma set_node_length graph i nd :
  length (nodes (set_node graph i nd)) = length (nodes graph).
Proof. apply length_insert. Qed.

Lemma set_node_twice graph i nd nd' :
  set_node (set_node graph i nd) i nd' = set_node graph i nd'.
Proof. unfold set_node. simpl. by rewrite list_insert_insert_eq. Qed.

Lemma all_nodes_at P graph i nd :
  all_nodes P graph → node_at graph i = Some nd → P nd.
Proof.
  intros Hall Hnd%node_at_lookup.
  by apply (Forall_lookup_1 _ _ _ _ Hall Hnd).
Qed.

(** ** Adjacency lists *)

Lemma insert_app l val : insert l val = l ++ [val].
Proof. induction l as [|x l IH]; simpl; [done | by rewrite IH]. Qed.

Lemma neighbors_of_Some graph i l :
  neighbors_of graph i = Some l ↔
  ∃ nd, node_at graph i = Some nd ∧ neighbors nd = l.
Proof.
  unfold neighbors_of. destruct (node_at graph i) as [nd|]; simpl; split.
  - intros [= <-]. eauto.
  - by intros (nd' & [= <-] & <-).
  - done.
  - by intros (nd' & ? & _).
Qed.

Lemma neighbors_of_set_node graph i j nd :
  i < length (nodes graph) →
  neighbors_of (set_node graph i nd) j
  = if decide (j = i) then Some (neighbors nd) else neighbors_of graph j.
Proof.
  intros Hi. unfold neighbors_of. rewrite node_at_set_node by done.
  by case_decide.
Qed.

(** What [add_edge] returns, with the nodes it reads named. *)
Lemma add_edge_eq graph a b na nb :
  node_at graph a = Some na → node_at graph b = Some nb →
  add_edge graph a b
  = Ok (set_node
          (set_node graph a (with_neighbors na (neighbors na ++ [b]))) b
          (with_neighbors
             (if decide (b = a) then with_neighbors na (neighbors na ++ [b])
              else nb)
             ((if decide (b = a) then neighbors na ++ [b] else neighbors nb)
              ++ [a]))).
Proof.
  intros Ha Hb. unfold add_edge.
  rewrite (proj2 (get_node_Ok _ _ _) Ha). simpl.
  rewrite get_node_set_node by eauto using node_at_lt.
  case_decide.
  - simpl. by rewrite !insert_app.
  - rewrite (proj2 (get_node_Ok _ _ _) Hb). simpl. by rewrite !insert_app.
Qed.

(** ** Constructed graphs are well formed and fresh *)

Lemma valid_node_set_node graph i nd j :
  i < length (nodes graph) →
  valid_node graph j → valid_node (set_node graph i nd) j.
Proof.
  intros Hi Hj. unfold valid_node. rewrite node_at_set_node by done.
  by case_decide.
Qed.

Lemma well_formed_set_node graph i nd :
  i < length (nodes graph) → well_formed graph →
  Forall (valid_node (set_node graph i nd)) (neighbors nd) →
  well_formed (set_node graph i nd).
Proof.
  intros Hi [Hlen Hall] Hnd. split; [by rewrite set_node_length|].
  apply Forall_insert; [|done].
  eapply Forall_impl; [exact Hall|]. intros [nd'|] Hnd'; simpl in *; [|done].
  eapply Forall_impl; [exact Hnd'|]. intros j. by apply valid_node_set_node.
Qed.

Lemma fresh_set_node graph i nd :
  fresh graph → fresh_node nd → fresh (set_node graph i nd).
Proof. intros Hfresh Hnd. by apply Forall_insert. Qed.

Lemma graph_create_well_formed n :
  well_formed (graph_create n) ∧ fresh (graph_create n).
Proof.
  split; [split|]; simpl.
  - apply length_replicate.
  - by apply Forall_replicate.
  - by apply Forall_replicate.
Qed.

Lemma node_create_well_formed graph i name lat lon graph' :
  node_create graph i name lat lon = Ok graph' →
  well_formed graph ∧ fresh graph → well_formed graph' ∧ fresh graph'.
Proof.
  unfold node_create. case_decide as Hi; [|done].
  intros [= <-] [Hwf Hfresh]. split.
  - apply well_formed_set_node; [done..|]. simpl. constructor.
  - by apply fresh_set_node.
Qed.

Lemma add_edge_well_formed graph a b graph' :
  add_edge graph a b = Ok graph' →
  well_formed graph ∧ fresh graph → well_formed graph' ∧ fresh graph'.
Proof.
  intros Hadd [Hwf Hfresh]. unfold add_edge in Hadd.
  apply obind_Ok in Hadd as (na & Hna%get_node_Ok & Hadd).
  simpl in Hadd.
  apply obind_Ok in Hadd as (nb & Hnb%get_node_Ok & [= <-]).
  rewrite !insert_app in *.
  pose proof (node_at_lt _ _ _ Hna) as Hla.
  pose proof (node_at_lt _ _ _ Hnb) as Hlb.
  set (g1 := set_node graph a (with_neighbors na (neighbors na ++ [b]))) in *.
  assert (valid_node g1 a) as Ha1.
  { unfold valid_node, g1. rewrite node_at_set_node by done.
    by rewrite decide_True. }
  assert (valid_node g1 b) as Hb1 by by exists nb.
  assert (well_formed g1) as Hwf1.
  { apply well_formed_set_node; [done..|]. simpl.
    apply Forall_app. split; [|by repeat constructor].
    pose proof (all_nodes_at _ _ _ _ (proj2 Hwf) Hna) as Hnbrs.
    eapply Forall_impl; [exact Hnbrs|]. intros j.
    by apply valid_node_set_node. }
  assert (fresh g1) as Hfresh1.
  { apply fresh_set_node; [done|].
    by apply (all_nodes_at _ _ _ _ Hfresh Hna). }
  split.
  - apply well_formed_set_node; [done..|]. simpl.
    apply Forall_app. split.
    + pose proof (all_nodes_at _ _ _ _ (proj2 Hwf1) Hnb) as Hnbrs.
      eapply Forall_impl; [exact Hnbrs|]. intros j.
      by apply valid_node_set_node.
    + repeat constructor. by apply valid_node_set_node.
  - apply fresh_set_node; [done|].
    by apply (all_nodes_at _ _ _ _ Hfresh1 Hnb).
Qed.

(** X8.  A graph built with [graph_create], [node_create] and [add_edge],
    in any order, is well formed (it has the node count it was created
    with and every neighbour list names created nodes only) and carries
    the cost state [node_create] leaves: the constructors never write a
    cost or a parent. *)
Lemma constructed_well_formed graph :
  constructed graph → well_formed graph ∧ fresh graph.
Proof.
  induction 1 as [n|g i name lat lon g' _ IH Hnode|g a b g' _ IH Hedge].
  - apply graph_create_well_formed.
  - by eapply node_create_well_formed.
  - by eapply add_edge_well_formed.
Qed.

Lemma create_nodes_constructed coords graph i graph' :
  constructed graph → create_nodes graph i coords = Ok graph' →
  constructed graph'.
Proof.
  revert graph i. induction coords as [|[lat lon] coords IH];
    intros graph i Hg; simpl.
  - by intros [= <-].
  - intros (g1 & Hnode & Hrest)%obind_Ok.
    eapply IH; [|done]. by eapply constructed_node.
Qed.

Lemma add_edges_constructed edges graph graph' :
  constructed graph → add_edges graph edges = Ok graph' →
  constructed graph'.
Proof.
  revert graph. induction edges as [|[a b] edges IH]; intros graph Hg; simpl.
  - by intros [= <-].
  - intros (g1 & Hedge & Hrest)%obind_Ok.
    eapply IH; [|done]. by eapply constructed_edge.
Qed.

(** The scenario graphs are built through the construction interface. *)
Lemma build_constructed coords edges graph :
  build coords edges = Ok graph → constructed graph.
Proof.
  intros (g1 & Hnodes & Hedges)%obind_Ok.
  eapply add_edges_constructed; [|done].
  eapply create_nodes_constructed; [|done]. constructor.
Qed.

(** ** One relaxation *)

Lemma get_node_at graph i nd : node_at graph i = Some nd → get_node graph i = Ok nd.
Proof. apply get_node_Ok. Qed.

Lemma calculate_distance_eq graph a b na nb :
  node_at graph a = Some na → node_at graph b = Some nb →
  calculate_distance graph a b = Ok (node_distance na nb).
Proof.
  intros Ha Hb. unfold calculate_distance.
  by rewrite (get_node_at _ _ _ Ha), (get_node_at _ _ _ Hb).
Qed.

Ltac relax_norm :=
  repeat first
    [ rewrite set_node_twice
    | rewrite get_node_set_node by (by rewrite ?set_node_length)
    | rewrite lookup_set_node by (by rewrite ?set_node_length)
    | rewrite list_insert_insert_eq
    | rewrite list_lookup_insert_eq by (by rewrite ?length_insert)
    | rewrite list_lookup_insert_ne by done
    | rewrite decide_True by done
    | rewrite decide_False by done
    | progress simpl ].

Section relax.
Context {Q : Type} `{Queue Q}.

(** What [relax] returns, with the nodes it reads named. *)
Lemma relax_eq e curr (st : search Q) n ndn ndc nde :
  node_at (s_graph st) n = Some ndn →
  node_at (s_graph st) curr = Some ndc →
  node_at (s_graph st) e = Some nde →
  relax e curr st n
  = Ok (let h := node_distance ndn nde in
        let pot := (g_cost ndc + node_distance ndc ndn)%float in
        if queue_query (open_set st) n && (g_cost ndn <=? pot)%float
           || set_query (closed_set st) n
        then {| s_graph := set_node (s_graph st) n (with_h_cost ndn h);
                open_set := open_set st; closed_set := closed_set st |}
        else {| s_graph := set_node (s_graph st) n (relaxed ndn pot h curr);
                open_set :=
                  if queue_query (open_set st) n
                  then queue_change_priority (open_set st) n (pot + h)%float
                  else queue_add (open_set st) n (pot + h)%float;
                closed_set := closed_set st |}).
Proof.
  intros Hn Hc He.
  pose proof (node_at_lt _ _ _ Hn) as Hlt.
  unfold relax, set_h_cost, calculate_g_cost, calculate_distance, gcost,
    set_g_cost, set_f_cost, set_parent, fcost, relaxed, node_distance.
  rewrite (get_node_at _ _ _ Hn), (get_node_at _ _ _ He). simpl.
  destruct (decide (curr = n)) as [->|Hne]; simplify_eq.
  - relax_norm.
    destruct (queue_query (open_set st) n); simpl;
      [destruct (_ <=? _)%float; simpl; [done|] |];
      (destruct (set_query (closed_set st) n); simpl; [done|]);
      by relax_norm.
  - relax_norm. rewrite (get_node_at _ _ _ Hc). simpl.
    destruct (queue_query (open_set st) n); simpl;
      [destruct (_ <=? _)%float; simpl; [done|] |];
      (destruct (set_query (closed_set st) n); simpl; [done|]);
      relax_norm; rewrite (proj1 (node_at_lookup _ _ _) Hc); simpl;
      by relax_norm.
Qed.

End relax.

(** ** Graphs of the same shape *)

Lemma same_shape_refl g : same_shape g g.
Proof. by repeat split. Qed.

Lemma same_shape_node g g' i nd :
  same_shape g g' → node_at g i = Some nd →
  ∃ nd', node_at g' i = Some nd' ∧ node_shape nd' = node_shape nd.
Proof.
  intros (_ & _ & Hsh) Hnd. specialize (Hsh i). rewrite Hnd in Hsh.
  destruct (node_at g' i) as [nd'|]; simplify_eq/=.
  exists nd'. split; [done|]. unfold node_shape. congruence.
Qed.

Lemma same_shape_node_rev g g' i nd' :
  same_shape g g' → node_at g' i = Some nd' →
  ∃ nd, node_at g i = Some nd ∧ node_shape nd' = node_shape nd.
Proof.
  intros (_ & _ & Hsh) Hnd. specialize (Hsh i). rewrite Hnd in Hsh.
  destruct (node_at g i) as [nd|]; simplify_eq/=.
  exists nd. split; [done|]. unfold node_shape. congruence.
Qed.

Lemma same_shape_set_node g0 g i nd0 nd :
  same_shape g0 g → node_at g i = Some nd0 →
  node_shape nd = node_shape nd0 →
  same_shape g0 (set_node g i nd).
Proof.
  intros (Hn & Hlen & Hsh) Hnd0 Hnd. split; [done|]. split.
  - by rewrite set_node_length.
  - intros j. rewrite node_at_set_node by eauto using node_at_lt.
    case_decide as Hj; [|done]. subst j.
    rewrite Hsh, Hnd0. simpl. by rewrite Hnd.
Qed.

Lemma node_distance_shape a a' b b' :
  node_shape a = node_shape a' → node_shape b = node_shape b' →
  node_distance a b = node_distance a' b'.
Proof.
  unfold node_shape, node_distance. intros [= -> -> _] [= -> -> _]. done.
Qed.

Lemma node_shape_neighbors a b :
  node_shape a = node_shape b → neighbors a = neighbors b.
Proof. by intros [= _ _ ->]. Qed.

(** ** Nodes, edges and paths *)

Lemma elem_of_node_set graph i : i ∈ node_set graph ↔ valid_node graph i.
Proof.
  unfold node_set, valid_node.
  rewrite elem_of_list_to_set, list_elem_of_filter, elem_of_seq.
  split; [by intros [? _]|]. intros Hi. split; [done|].
  destruct Hi as [nd Hnd%node_at_lt]. lia.
Qed.

Lemma node_set_size graph : size (node_set graph) ≤ length (nodes graph).
Proof.
  transitivity (size (list_to_set (C := gset nat) (seq 0 (length (nodes graph))))).
  - apply subseteq_size. intros i.
    unfold node_set. rewrite !elem_of_list_to_set, list_elem_of_filter.
    by intros [_ ?].
  - rewrite size_list_to_set by apply NoDup_seq. by rewrite length_seq.
Qed.

Lemma edge_valid graph a b :
  well_formed graph → edge graph a b → valid_node graph b.
Proof.
  intros [_ Hwf] (nd & Ha & Hb).
  pose proof (all_nodes_at _ _ _ _ Hwf Ha) as Hnbrs. simpl in Hnbrs.
  by apply (proj1 (Forall_forall _ _) Hnbrs).
Qed.

Lemma reachable_valid graph a b :
  well_formed graph → valid_node graph a → reachable graph a b →
  valid_node graph b.
Proof.
  intros Hwf Ha Hab. induction Hab as [|x y z Hxy _ IH]; [done|].
  apply IH. by eapply edge_valid.
Qed.

Lemma reachable_edge graph a b c :
  reachable graph a b → edge graph b c → reachable graph a c.
Proof. intros Hab Hbc. by eapply rtc_r. Qed.

(** ** Consequences of the queue contract *)

Section queue_facts.
Context {Q : Type} `{QueueLaws Q}.

Lemma queue_ids_create : queue_ids (queue_create (Q := Q)) = [].
Proof. unfold queue_ids. by rewrite queue_create_entries. Qed.

Lemma queue_ids_add (q : Q) i p : queue_ids (queue_add q i p) ≡ₚ i :: queue_ids q.
Proof. unfold queue_ids. by rewrite queue_add_entries. Qed.

Lemma queue_ids_change_priority (q : Q) i p :
  queue_ids (queue_change_priority q i p) ≡ₚ queue_ids q.
Proof.
  unfold queue_ids. rewrite queue_change_priority_entries.
  rewrite <- list_fmap_compose.
  erewrite list_fmap_ext; [done|]. intros _ [j pj] _. simpl.
  by case_decide.
Qed.

Lemma queue_ids_remove (q q' : Q) i :
  queue_remove q = Some (i, q') → queue_ids q ≡ₚ i :: queue_ids q'.
Proof.
  intros (p & Hp & _)%queue_remove_Some. unfold queue_ids. by rewrite Hp.
Qed.

Lemma queue_remove_is_Some (q : Q) :
  queue_is_empty q = false → is_Some (queue_remove q).
Proof.
  intros Hne. destruct (queue_remove q) as [r|] eqn:Hr; [done|].
  apply queue_remove_None, queue_is_empty_spec in Hr. congruence.
Qed.

Lemma queue_is_empty_ids (q : Q) :
  queue_is_empty q = true ↔ queue_ids q = [].
Proof.
  rewrite queue_is_empty_spec. unfold queue_ids.
  split; [by intros -> | apply fmap_nil_inv].
Qed.

Lemma queue_query_false (q : Q) i : queue_query q i = false ↔ i ∉ queue_ids q.
Proof.
  rewrite <- queue_query_spec. by destruct (queue_query q i).
Qed.

End queue_facts.

(** ** Counting with finite sets *)

Lemma size_lt_witness (X Y : gset nat) x :
  x ∈ Y → x ∉ X → X ⊆ Y → size X < size Y.
Proof. intros Hy Hx Hsub. apply subset_size. set_solver. Qed.

Lemma size_pos_witness (X : gset nat) x : x ∈ X → 0 < size X.
Proof.
  intros Hx. rewrite <- (size_empty (C := gset nat)).
  apply (size_lt_witness _ _ x); set_solver.
Qed.

Lemma size_add_le (X : gset nat) x : size ({[x]} ∪ X) ≤ 1 + size X.
Proof.
  destruct (decide (x ∈ X)) as [Hx|Hx].
  - assert ({[x]} ∪ X = X) as -> by set_solver. lia.
  - rewrite size_union by set_solver. by rewrite size_singleton.
Qed.

(** Closing the node [curr] that was taken out of the open set [O] makes
    the measure smaller, whatever the expansion added to the rest [O1] of
    the open set, as long as what it added was not closed. *)
Lemma measure_decrease (V O O1 O2 C : gset nat) curr :
  curr ∈ V →
  (∀ i, i ∈ O ↔ i = curr ∨ i ∈ O1) →
  curr ∉ O1 →
  (∀ i, i ∈ O2 → i ∈ O1 ∨ i ∉ C) →
  2 * size (V ∖ ({[curr]} ∪ C)) + size (O2 ∩ ({[curr]} ∪ C))
  < 2 * size (V ∖ C) + size (O ∩ C).
Proof.
  intros HV HO HO1 HO2.
  destruct (decide (curr ∈ C)) as [HC|HC].
  - assert ({[curr]} ∪ C = C) as -> by set_solver.
    assert (size (O2 ∩ C) < size (O ∩ C)); [|lia].
    apply (size_lt_witness _ _ curr).
    + apply elem_of_intersection. split; [|done]. apply HO. by left.
    + intros [Hin _]%elem_of_intersection.
      by destruct (HO2 _ Hin).
    + intros i [Hin Hic]%elem_of_intersection.
      apply elem_of_intersection. split; [|done].
      apply HO. right. by destruct (HO2 _ Hin).
  - assert (size (V ∖ ({[curr]} ∪ C)) < size (V ∖ C)).
    { apply (size_lt_witness _ _ curr); set_solver. }
    assert (size (O2 ∩ ({[curr]} ∪ C)) ≤ 1 + size (O ∩ C)); [|lia].
    etransitivity; [|apply (size_add_le _ curr)].
    apply subseteq_size. intros i [Hin Hic]%elem_of_intersection.
    apply elem_of_union in Hic as [Hic|Hic]; [set_solver|].
    apply elem_of_union_r, elem_of_intersection. split; [|done].
    apply HO. right. by destruct (HO2 _ Hin).
Qed.

(** ** A larger budget changes nothing *)

Lemma a_star_loop_mono {Q : Type} `{Queue Q} fuel fuel' e count
    (st : search Q) r :
  a_star_loop fuel e count st = Ok r → fuel ≤ fuel' →
  a_star_loop fuel' e count st = Ok r.
Proof.
  revert fuel' count st.
  induction fuel as [|fuel IH]; intros fuel' count st Hr Hle; [done|].
  destruct fuel' as [|fuel']; [lia|]. simpl in *.
  destruct (queue_is_empty (open_set st)); [done|].
  destruct (queue_remove (open_set st)) as [[curr q']|]; [|done].
  case_decide; [done|].
  apply obind_Ok in Hr as (nc & -> & Hr). simpl.
  apply obind_Ok in Hr as (st2 & -> & Hr). simpl.
  apply IH; [done | lia].
Qed.

(** ** The invariants are kept *)

Section search_facts.
Context {Q : Type} `{QueueLaws Q}.
Variables (g0 : graph_t) (s e : nat).
Hypothesis Hwf : well_formed g0.
Hypothesis Hs : valid_node g0 s.
Hypothesis He : valid_node g0 e.

Lemma seen_reachable_valid pending (st : search Q) i :
  search_inv g0 s e pending st → seen pending st i → valid_node g0 i.
Proof.
  intros Hinv Hi. apply (reachable_valid g0 s i Hwf Hs).
  by eapply inv_reach.
Qed.

(** One turn of the inner loop keeps the invariants, leaves the closed set
    alone, and can only add the neighbour to the open set, which it does
    only when the neighbour is not closed. *)
Lemma relax_inv curr n (st : search Q) :
  search_inv g0 s e {[curr]} st →
  edge g0 curr n →
  ∃ st',
    relax e curr st n = Ok st' ∧
    search_inv g0 s e {[curr]} st' ∧
    closed_set st' = closed_set st ∧
    (∀ i, i ∈ queue_ids (open_set st) → i ∈ queue_ids (open_set st')) ∧
    (∀ i, i ∈ queue_ids (open_set st') →
          i ∈ queue_ids (open_set st) ∨ i = n ∧ n ∉ closed_set st) ∧
    (n ∈ queue_ids (open_set st') ∨ n ∈ closed_set st).
Proof.
  intros Hinv Hedge.
  assert (reachable g0 s curr) as Hcurr.
  { apply (inv_reach _ _ _ _ _ Hinv). right; right. set_solver. }
  assert (reachable g0 s n) as Hreach_n by by eapply reachable_edge.
  destruct Hedge as (c0 & Hc0 & Hn_c0).
  destruct (reachable_valid _ _ _ Hwf Hs Hreach_n) as [n0 Hn0].
  destruct He as [e0 He0].
  destruct (same_shape_node _ _ _ _ (inv_shape _ _ _ _ _ Hinv) Hc0)
    as (ndc & Hndc & Hshc).
  destruct (same_shape_node _ _ _ _ (inv_shape _ _ _ _ _ Hinv) Hn0)
    as (ndn & Hndn & Hshn).
  destruct (same_shape_node _ _ _ _ (inv_shape _ _ _ _ _ Hinv) He0)
    as (nde & Hnde & Hshe).
  pose proof (node_at_lt _ _ _ Hndn) as Hlt.
  rewrite (relax_eq _ _ _ _ _ _ _ Hndn Hndc Hnde). simpl.
  set (h := node_distance ndn nde).
  set (pot := (g_cost ndc + node_distance ndc ndn)%float).
  assert (h = node_distance ndn e0) as Hh by by apply node_distance_shape.
  destruct (queue_query (open_set st) n && (g_cost ndn <=? pot)%float
            || set_query (closed_set st) n) eqn:Hskip.
  - (* the neighbour is skipped *)
    eexists. split; [done|]. simpl.
    assert (n ∈ queue_ids (open_set st) ∨ n ∈ closed_set st) as Hn.
    { apply orb_true_iff in Hskip as [[Hq _]%andb_true_iff|Hc].
      - left. by apply queue_query_spec.
      - right. by apply bool_decide_eq_true in Hc. }
    split; [|by eauto].
    destruct Hinv as [Hsh Hnd Hre Hst Hcl Hun Hco Hdi Hgo].
    split; simpl; try done.
    + by eapply same_shape_set_node.
    + intros i Hi. rewrite <- (Hun i Hi).
      rewrite node_at_set_node by done. case_decide; [|done].
      subst i. by rewrite Hndn.
    + intros i nd ne Hi Hnd_i Hne.
      assert (ne = e0) as -> by congruence.
      rewrite node_at_set_node in Hnd_i by done.
      case_decide as Hin; [|by eapply Hco].
      subst i. injection Hnd_i as <-. simpl.
      destruct (Hco n ndn e0 Hi Hndn He0) as [Hh_old Hf_old].
      split; [done|]. rewrite Hf_old, Hh_old. by rewrite <- Hh.
  - (* the neighbour is relaxed *)
    apply orb_false_iff in Hskip as [Hskip1 Hclosed].
    apply bool_decide_eq_false in Hclosed.
    set (q' := if queue_query (open_set st) n
               then queue_change_priority (open_set st) n (pot + h)%float
               else queue_add (open_set st) n (pot + h)%float).
    assert (∀ i, i ∈ queue_ids q' ↔ i ∈ queue_ids (open_set st) ∨ i = n)
      as Hids.
    { intros i. unfold q'.
      destruct (queue_query (open_set st) n) eqn:Hq.
      - rewrite queue_ids_change_priority.
        apply queue_query_spec in Hq. naive_solver.
      - rewrite queue_ids_add. set_solver. }
    assert (NoDup (queue_ids q')) as Hnodup.
    { unfold q'. destruct (queue_query (open_set st) n) eqn:Hq.
      - rewrite queue_ids_change_priority. by eapply inv_nodup.
      - rewrite queue_ids_add. apply NoDup_cons. split.
        + by apply queue_query_false.
        + by eapply inv_nodup. }
    eexists. split; [done|]. simpl.
    split; [|split; [done|]; split; [|split]].
    + destruct Hinv as [Hsh Hnd Hre Hst Hcl Hun Hco Hdi Hgo].
      split; simpl.
      * by eapply same_shape_set_node.
      * done.
      * intros i [[Hi| ->]%Hids|Hi]; [|done|]; apply Hre; [by left|by right].
      * destruct Hst as [Hst|Hst]; [left; apply Hids; by left | by right].
      * intros c m Hc Hm.
        destruct (Hcl c m Hc Hm) as [Hm'|Hm']; [|by right].
        left. apply Hids. by left.
      * intros i Hi. rewrite <- (Hun i Hi).
        rewrite node_at_set_node by done. case_decide; [|done].
        subst i. done.
      * intros i nd ne Hi Hnd_i Hne.
        assert (ne = e0) as -> by congruence.
        rewrite node_at_set_node in Hnd_i by done.
        case_decide as Hin.
        -- subst i. injection Hnd_i as <-. simpl. done.
        -- apply Hids in Hi as [Hi|Hi]; [|done]. by eapply Hco.
      * intros i Hno [Hi| ->]%Hids; [by apply Hdi|].
        split; [done|]. intros ->%elem_of_singleton.
        by apply (Hno _ _ Hc0).
      * done.
    + intros i Hi. apply Hids. by left.
    + intros i [Hi| ->]%Hids; [by left | by right].
    + left. apply Hids. by right.
Qed.

(** What the statements before the loop return, with the nodes they read
    named. *)
Lemma a_star_init_eq s0 e0 :
  node_at g0 s = Some s0 → node_at g0 e = Some e0 →
  a_star_init (Q := Q) g0 s e
  = Ok {| s_graph :=
            set_node g0 s
              (with_f_cost (with_h_cost s0 (node_distance s0 e0))
                 (g_cost s0 + node_distance s0 e0)%float);
          open_set :=
            queue_add queue_create s (g_cost s0 + node_distance s0 e0)%float;
          closed_set := set_create |}.
Proof.
  intros Hs0 He0. pose proof (node_at_lt _ _ _ Hs0) as Hlt.
  unfold a_star_init, set_h_cost, set_f_cost, fcost.
  rewrite (calculate_distance_eq _ _ _ _ _ Hs0 He0). simpl.
  rewrite (get_node_at _ _ _ Hs0). simpl.
  by relax_norm.
Qed.

(** The state before the loop satisfies the invariants. *)
Lemma a_star_init_inv :
  ∃ st0, a_star_init (Q := Q) g0 s e = Ok st0 ∧ search_inv g0 s e ∅ st0 ∧
         closed_set st0 = ∅ ∧ queue_ids (open_set st0) ≡ₚ [s] ∧
         ∀ i, (g_cost <$> node_at (s_graph st0) i) = (g_cost <$> node_at g0 i).
Proof.
  destruct Hs as [s0 Hs0]. destruct He as [e0 He0].
  pose proof (node_at_lt _ _ _ Hs0) as Hlt.
  eexists. split; [by apply a_star_init_eq|]. simpl.
  assert (queue_ids (queue_add (queue_create (Q := Q)) s
                       (g_cost s0 + node_distance s0 e0)%float) ≡ₚ [s])
    as Hids by by rewrite queue_ids_add, queue_ids_create.
  assert (∀ i, (g_cost <$> node_at
                  (set_node g0 s
                     (with_f_cost (with_h_cost s0 (node_distance s0 e0))
                        (g_cost s0 + node_distance s0 e0)%float)) i)
               = (g_cost <$> node_at g0 i)) as Hg.
  { intros i. rewrite node_at_set_node by done. case_decide; [|done].
    subst i. by rewrite Hs0. }
  split; [|by do 2 (split; [done|])].
  split; simpl.
  - eapply same_shape_set_node; [apply same_shape_refl | done..].
  - rewrite Hids. apply NoDup_singleton.
  - intros i [Hi|[Hi|Hi]]; [|set_solver..].
    rewrite Hids in Hi. apply list_elem_of_singleton in Hi as ->.
    apply rtc_refl.
  - left. simpl. rewrite Hids. by left.
  - intros c n Hc. by apply not_elem_of_empty in Hc.
  - intros i _. apply Hg.
  - intros i nd ne Hi Hnd Hne. simpl in *.
    rewrite Hids in Hi. apply list_elem_of_singleton in Hi as ->.
    rewrite node_at_set_node in Hnd by done.
    rewrite decide_True in Hnd by done. injection Hnd as <-. simpl.
    assert (ne = e0) as -> by congruence. done.
  - intros i _ Hi. split; apply not_elem_of_empty.
  - split; apply not_elem_of_empty.
Qed.

(** A further property [I] of the states of a run, kept by each of the
    three kinds of state change. *)
Variable I : gset nat → search Q → Prop.
Hypothesis I_remove : ∀ st curr q',
  search_inv g0 s e ∅ st → I ∅ st →
  queue_remove (open_set st) = Some (curr, q') → curr ≠ e →
  I {[curr]} (with_open st q').
Hypothesis I_relax : ∀ st curr n st',
  search_inv g0 s e {[curr]} st → I {[curr]} st →
  edge g0 curr n → relax e curr st n = Ok st' →
  I {[curr]} st'.
Hypothesis I_close : ∀ st curr,
  search_inv g0 s e {[curr]} st → I {[curr]} st →
  I ∅ (with_closed st (set_add (closed_set st) curr)).

(** The inner loop keeps the invariants; it adds to the open set only
    neighbours that are not closed, and leaves every neighbour open or
    closed. *)
Lemma expand_inv curr l (st : search Q) :
  search_inv g0 s e {[curr]} st →
  I {[curr]} st →
  (∀ n, n ∈ l → edge g0 curr n) →
  ∃ st',
    expand e curr st l = Ok st' ∧
    search_inv g0 s e {[curr]} st' ∧
    I {[curr]} st' ∧
    closed_set st' = closed_set st ∧
    (∀ i, i ∈ queue_ids (open_set st) → i ∈ queue_ids (open_set st')) ∧
    (∀ i, i ∈ queue_ids (open_set st') →
          i ∈ queue_ids (open_set st) ∨ i ∈ l ∧ i ∉ closed_set st) ∧
    (∀ n, n ∈ l → n ∈ queue_ids (open_set st') ∨ n ∈ closed_set st).
Proof.
  revert st. induction l as [|n l IH]; intros st Hinv HI Hl; simpl.
  - exists st. do 5 (split; [done|]). split; [by left|].
    by intros n ?%elem_of_nil.
  - assert (edge g0 curr n) as Hedge by (apply Hl; by left).
    destruct (relax_inv curr n st Hinv Hedge)
      as (st1 & Hrelax & Hinv1 & Hc1 & Hsub1 & Hnew1 & Hn1).
    pose proof (I_relax _ _ _ _ Hinv HI Hedge Hrelax) as HI1.
    rewrite Hrelax. simpl.
    destruct (IH st1 Hinv1 HI1)
      as (st2 & -> & Hinv2 & HI2 & Hc2 & Hsub2 & Hnew2 & Hn2).
    { intros m Hm. apply Hl. by right. }
    exists st2. do 3 (split; [done|]).
    split; [congruence|]. split; [by auto|]. split.
    + intros i [Hi|[Hi Hic]]%Hnew2.
      * apply Hnew1 in Hi as [Hi|[-> Hi]]; [by left|].
        right. split; [by left | done].
      * right. split; [by right | congruence].
    + intros m [->|Hm]%elem_of_cons.
      * destruct Hn1 as [Hn1|Hn1]; [left; by apply Hsub2 | by right].
      * rewrite <- Hc1. by apply Hn2.
Qed.

(** The loop comes to an end within its budget, in a state that satisfies
    the invariants, after a number of extractions that the measure
    bounds. *)
Lemma a_star_loop_inv fuel count (st : search Q) :
  search_inv g0 s e ∅ st →
  I ∅ st →
  measure g0 st < fuel →
  ∃ r,
    a_star_loop fuel e count st = Ok r ∧
    ended g0 s e I r ∧
    r_extractions r ≤ count + measure g0 st ∧
    (no_self_loop g0 →
     r_extractions r ≤ count + size (node_set g0 ∖ closed_set st)).
Proof.
  revert count st.
  induction fuel as [|fuel IH]; intros count st Hinv HI Hfuel; [lia|].
  simpl. destruct (queue_is_empty (open_set st)) eqn:Hemp.
  { eexists. split; [done|]. split; [|simpl; lia].
    exists st. do 4 (split; [done|]). simpl. split; [done|].
    by apply queue_is_empty_spec. }
  destruct (queue_remove_is_Some _ Hemp) as [[curr q'] Hrem].
  rewrite Hrem.
  pose proof (queue_ids_remove _ _ _ Hrem) as Hperm.
  pose proof (inv_nodup _ _ _ _ _ Hinv) as Hnodup.
  rewrite Hperm in Hnodup. apply NoDup_cons in Hnodup as [Hcurr_q' Hnodup'].
  assert (curr ∈ queue_ids (open_set st)) as Hcurr_open.
  { rewrite Hperm. by left. }
  assert (valid_node g0 curr) as Hcurr_valid.
  { eapply seen_reachable_valid; [done|]. by left. }
  apply elem_of_node_set in Hcurr_valid as Hcurr_V.
  case_decide as Hgoal.
  { (* the goal is dequeued *)
    subst curr. eexists. split; [done|]. split; [|split]; simpl.
    - exists st. by do 4 (split; [done|]).
    - assert (1 ≤ measure g0 st); [|lia]. unfold measure.
      destruct (decide (e ∈ closed_set st)) as [Hc|Hc].
      + assert (0 < size (open_ids st ∩ closed_set st)); [|lia].
        apply (size_pos_witness _ e).
        apply elem_of_intersection. split; [|done].
        by apply elem_of_list_to_set.
      + assert (0 < size (node_set g0 ∖ closed_set st)); [|lia].
        apply (size_pos_witness _ e). set_solver.
    - intros Hno.
      assert (0 < size (node_set g0 ∖ closed_set st)); [|lia].
      destruct (inv_disjoint _ _ _ _ _ Hinv e Hno Hcurr_open) as [Hc _].
      apply (size_pos_witness _ e). set_solver. }
  (* the node is expanded and closed *)
  destruct Hcurr_valid as [c0 Hc0].
  destruct (same_shape_node _ _ _ _ (inv_shape _ _ _ _ _ Hinv) Hc0)
    as (ndc & Hndc & Hshc).
  simpl. rewrite (get_node_at _ _ _ Hndc). simpl.
  set (st1 := {| s_graph := s_graph st; open_set := q';
                 closed_set := closed_set st |}).
  assert (search_inv g0 s e {[curr]} st1) as Hinv1.
  { destruct Hinv as [Hsh Hnd Hre Hst Hcl Hun Hco Hdi Hgo].
    assert (∀ i, seen ∅ st i → seen {[curr]} st1 i) as Hseen.
    { intros i [Hi|[Hi|Hi]]; [|by right; left | set_solver].
      rewrite Hperm in Hi. apply elem_of_cons in Hi as [->|Hi].
      - right; right. set_solver.
      - by left. }
    split; simpl; try done.
    - intros i [Hi|[Hi|Hi]]; apply Hre.
      + left. rewrite Hperm. by right.
      + by right; left.
      + left. apply elem_of_singleton in Hi as ->. done.
    - by apply Hseen.
    - intros c n Hc Hn. apply Hseen. by eapply Hcl.
    - intros i nd ne Hi. apply Hco. rewrite Hperm. by right.
    - intros i Hno Hi. split.
      + apply (Hdi i Hno). rewrite Hperm. by right.
      + intros ->%elem_of_singleton. done.
    - split; [apply Hgo|]. by intros ->%elem_of_singleton. }
  pose proof (I_remove _ _ _ Hinv HI Hrem Hgoal) as HI1.
  destruct (expand_inv curr (neighbors ndc) st1 Hinv1 HI1)
    as (st2 & -> & Hinv2 & HI2 & Hc2 & Hsub2 & Hnew2 & Hn2).
  { intros n Hn. exists c0. split; [done|].
    by rewrite <- (node_shape_neighbors _ _ Hshc). }
  pose proof (I_close _ _ Hinv2 HI2) as HI3.
  simpl.
  set (st3 := {| s_graph := s_graph st2; open_set := open_set st2;
                 closed_set := set_add (closed_set st2) curr |}).
  assert (search_inv g0 s e ∅ st3) as Hinv3.
  { destruct Hinv2 as [Hsh Hnd Hre Hst Hcl Hun Hco Hdi Hgo].
    unfold st3, seen, set_add in *.
    split; unfold seen; simpl in *; try done.
    - intros i [Hi|[Hi|Hi]]; [| |set_solver]; apply Hre; [by left|].
      apply elem_of_union in Hi as [Hi|Hi]; [by right; right | by right; left].
    - destruct Hst as [?|[?|?]]; [by left | right; left; set_solver..].
    - intros c n Hc Hn.
      apply elem_of_union in Hc as [->%elem_of_singleton|Hc].
      + destruct Hn as (c0' & Hc0' & Hn).
        assert (c0' = c0) as -> by congruence.
        rewrite <- (node_shape_neighbors _ _ Hshc) in Hn.
        destruct (Hn2 n Hn) as [Hn'|Hn']; [by left|].
        right; left. rewrite Hc2. set_solver.
      + destruct (Hcl c n Hc Hn) as [?|[?|?]];
          [by left | right; left; set_solver..].
    - intros i Hno Hi. destruct (Hdi i Hno Hi). split; set_solver.
    - split; [|set_solver]. destruct Hgo. set_solver. }
  assert (measure g0 st3 < measure g0 st) as Hmeasure.
  { unfold measure, st3, set_add. simpl. rewrite Hc2. simpl.
    apply (measure_decrease _ _ (list_to_set (queue_ids q'))); [done|..].
    - intros i. unfold open_ids. rewrite !elem_of_list_to_set, Hperm.
      apply elem_of_cons.
    - by rewrite elem_of_list_to_set.
    - intros i. unfold open_ids. rewrite !elem_of_list_to_set.
      intros [Hi|[_ Hi]]%Hnew2; [by left | by right]. }
  destruct (IH (S count) st3 Hinv3 HI3)
    as (r & -> & Hended & Hcount & Hcount').
  { lia. }
  exists r. split; [done|]. split; [done|]. split; [lia|].
  intros Hno. specialize (Hcount' Hno).
  destruct (inv_disjoint _ _ _ _ _ Hinv curr Hno Hcurr_open) as [Hc _].
  assert (size (node_set g0 ∖ closed_set st3)
          < size (node_set g0 ∖ closed_set st)); [|lia].
  unfold st3, set_add. simpl. rewrite Hc2. simpl.
  apply (size_lt_witness _ _ curr); set_solver.
Qed.

Hypothesis I_init : ∀ st0, a_star_init g0 s e = Ok st0 → I ∅ st0.

(** A run on a well-formed graph comes to an end within the budget of
    [a_star], and within any larger one. *)
Lemma a_star_run_inv :
  ∃ r,
    a_star_run g0 s e = Ok r ∧
    ended g0 s e I r ∧
    r_extractions r ≤ 2 * num_nodes g0 ∧
    (no_self_loop g0 → r_extractions r ≤ num_nodes g0) ∧
    ∀ fuel st0,
      a_star_fuel g0 ≤ fuel → a_star_init g0 s e = Ok st0 →
      a_star_loop fuel e 0 st0 = Ok r.
Proof.
  destruct a_star_init_inv as (st0 & Hinit & Hinv0 & Hc0 & Hids0 & _).
  pose proof (I_init _ Hinit) as HI0.
  assert (size (node_set g0 ∖ closed_set st0) ≤ num_nodes g0) as Hsize.
  { destruct Hwf as [<- _]. etransitivity; [|apply node_set_size].
    apply subseteq_size. set_solver. }
  assert (measure g0 st0 ≤ 2 * num_nodes g0) as Hm.
  { unfold measure.
    assert (open_ids st0 ∩ closed_set st0 = ∅) as -> by set_solver.
    rewrite size_empty. lia. }
  destruct (a_star_loop_inv (a_star_fuel g0) 0 st0 Hinv0 HI0)
    as (r & Hr & Hended & Hcount & Hcount').
  { unfold a_star_fuel. lia. }
  exists r. unfold a_star_run. rewrite Hinit. simpl.
  split; [done|]. split; [done|]. split; [lia|]. split.
  - intros Hno. specialize (Hcount' Hno). lia.
  - intros fuel st0' Hfuel Hinit'.
    assert (st0' = st0) as -> by congruence.
    destruct (a_star_loop_inv fuel 0 st0 Hinv0 HI0) as (r' & Hr' & _).
    { unfold a_star_fuel in Hfuel. lia. }
    rewrite Hr'. f_equal. symmetry.
    eapply a_star_loop_mono in Hr; [|exact Hfuel]. congruence.
Qed.

End search_facts.

(** ** What the end of a run tells *)

Section run_facts.
Context {Q : Type} `{QueueLaws Q}.
Variables (g0 : graph_t) (s e : nat).
Variable I : gset nat → search Q → Prop.

Lemma ended_exhausted r i :
  ended g0 s e I r → r_exit r = EXHAUSTED →
  i ∈ closed_set (r_final r) ↔ reachable g0 s i.
Proof.
  intros (st & Hinv & _ & _ & -> & Hexit) Hr. rewrite Hr in Hexit.
  destruct Hexit as [_ Hempty].
  assert (∀ j, seen ∅ st j → j ∈ closed_set st) as Hseen.
  { intros j [Hj|[Hj|Hj]]; [|done|set_solver].
    unfold queue_ids in Hj. rewrite Hempty in Hj.
    by apply elem_of_nil in Hj. }
  split.
  - intros Hi. apply (inv_reach _ _ _ _ _ Hinv). by right; left.
  - revert i. apply (rtc_ind_r (λ i, i ∈ closed_set st)).
    + apply Hseen. by eapply inv_start.
    + intros a b _ Hab Ha. apply Hseen. by eapply inv_closed.
Qed.

Lemma ended_found r :
  ended g0 s e I r → r_exit r = FOUND ↔ reachable g0 s e.
Proof.
  intros Hended. split.
  - intros Hr. destruct Hended as (st & Hinv & _ & _ & _ & Hexit).
    rewrite Hr in Hexit. apply (inv_reach _ _ _ _ _ Hinv). by left.
  - intros Hreach. destruct (r_exit r) eqn:Hr; [done|].
    apply (ended_exhausted r e Hended Hr) in Hreach.
    destruct Hended as (st & Hinv & _ & _ & Hc & _).
    rewrite Hc in Hreach. by destruct (inv_goal _ _ _ _ _ Hinv).
Qed.

Lemma ended_untouched r i :
  ended g0 s e I r → ¬ reachable g0 s i →
  (g_cost <$> node_at (s_graph (r_final r)) i) = (g_cost <$> node_at g0 i).
Proof.
  intros (st & Hinv & _ & -> & _) Hi. by apply (inv_untouched _ _ _ _ _ Hinv).
Qed.

Lemma ended_shape r : ended g0 s e I r → same_shape g0 (s_graph (r_final r)).
Proof. intros (st & Hinv & _ & -> & _). by eapply inv_shape. Qed.

Lemma ended_found_costs r nd e0 :
  ended g0 s e I r → r_exit r = FOUND →
  node_at (s_graph (r_final r)) e = Some nd → node_at g0 e = Some e0 →
  h_cost nd = node_distance e0 e0 ∧
  f_cost nd = (g_cost nd + h_cost nd)%float.
Proof.
  intros (st & Hinv & _ & Hg & _ & Hexit) Hr Hnd He0.
  rewrite Hr in Hexit. rewrite Hg in Hnd.
  destruct (inv_costs _ _ _ _ _ Hinv e nd e0 Hexit Hnd He0) as [Hh Hf].
  split; [|done]. rewrite Hh.
  destruct (same_shape_node _ _ _ _ (inv_shape _ _ _ _ _ Hinv) He0)
    as (nd' & Hnd' & Hsh).
  assert (nd' = nd) as -> by congruence.
  by apply node_distance_shape.
Qed.

End run_facts.

(** The distance from a node with finite coordinates to itself is [0]. *)
Lemma node_distance_self nd :
  is_finite (latitude nd) = true → is_finite (longitude nd) = true →
  node_distance nd nd = 0%float.
Proof.
  intros Hlat Hlon. unfold node_distance.
  by rewrite !FloatFacts.float_sub_diag.
Qed.

(** What the statements after the loop return, with the node they read
    named. *)
Lemma a_star_result_eq graph e nd :
  node_at graph e = Some nd →
  a_star_result graph e
  = Ok (if (g_cost nd =? 0)%float then (-1)%float else f_cost nd).
Proof.
  intros Hnd. unfold a_star_result, gcost, fcost.
  rewrite (get_node_at _ _ _ Hnd). simpl.
  by destruct (g_cost nd =? 0)%float.
Qed.

(** ** The loop, one state change at a time *)

Section step_facts.
Context {Q : Type} `{Queue Q}.

Lemma expand_steps e curr (st : search Q) l st' :
  expand e curr st l = Ok st' →
  rtc (step e) (Expanding curr l, st) (Expanding curr [], st').
Proof.
  revert st. induction l as [|n l IH]; intros st; simpl.
  - intros [= <-]. apply rtc_refl.
  - intros (st1 & Hrelax & Hrest)%obind_Ok.
    eapply rtc_l; [by apply step_relax | by apply IH].
Qed.

(** A run of the loop is a sequence of steps from the loop head to the
    point past the loop. *)
Lemma a_star_loop_steps fuel e count (st : search Q) r :
  a_star_loop fuel e count st = Ok r →
  rtc (step e) (AtHead, st) (Left (r_exit r), r_final r).
Proof.
  revert count st. induction fuel as [|fuel IH]; intros count st; [done|].
  simpl. destruct (queue_is_empty (open_set st)) eqn:Hemp.
  { intros [= <-]. simpl. by apply rtc_once, step_exhausted. }
  destruct (queue_remove (open_set st)) as [[curr q']|] eqn:Hrem; [|done].
  case_decide as Hgoal.
  { intros [= <-]. simpl. subst curr. by apply rtc_once, step_found. }
  intros (nc & Hnc & Hr)%obind_Ok.
  apply obind_Ok in Hr as (st2 & Hexp & Hr).
  eapply rtc_l; [by eapply step_extract|].
  eapply rtc_trans; [by apply expand_steps|].
  eapply rtc_l; [apply step_close|]. by apply IH in Hr.
Qed.

(** A state has at most one successor, and none past the loop: the steps
    from a state form one path, which every state reachable from it lies
    on. *)
Lemma step_deterministic e (c c1 c2 : phase * search Q) :
  step e c c1 → step e c c2 → c1 = c2.
Proof.
  intros H1 H2. inversion H1; subst; inversion H2; subst;
    try done; congruence.
Qed.

Lemma steps_on_run e (c0 c : phase * search Q) how st :
  rtc (step e) c0 c → rtc (step e) c0 (Left how, st) →
  rtc (step e) c (Left how, st).
Proof.
  intros Hc. induction Hc as [c|c0 c1 c Hstep _ IH]; [done|].
  intros Hend. apply IH.
  apply rtc_inv in Hend as [->|(c1' & Hstep' & Hend)].
  - inversion Hstep.
  - by rewrite (step_deterministic _ _ _ _ Hstep Hstep').
Qed.

(** A relaxation that returns has read the three nodes it names. *)
Lemma relax_Ok_nodes e curr (st : search Q) n st' :
  relax e curr st n = Ok st' →
  ∃ ndn ndc nde,
    node_at (s_graph st) n = Some ndn ∧
    node_at (s_graph st) curr = Some ndc ∧
    node_at (s_graph st) e = Some nde.
Proof.
  unfold relax, set_h_cost, calculate_distance, get_node at 1 2.
  destruct (node_at (s_graph st) n) as [ndn|] eqn:Hn; [|done].
  destruct (node_at (s_graph st) e) as [nde|] eqn:He; [|done].
  simpl. rewrite (get_node_at _ _ _ Hn). simpl.
  unfold calculate_g_cost.
  rewrite get_node_set_node by eauto using node_at_lt.
  destruct (node_at (s_graph st) curr) as [ndc|] eqn:Hc;
    [intros _; by eexists _, _, _|].
  case_decide as Hcn; [congruence|].
  unfold get_node at 1. by rewrite Hc.
Qed.

(** What a relaxation does to the open and closed sets and to the path
    fields of the nodes. *)
Lemma relax_effect e curr (st : search Q) n st' :
  relax e curr st n = Ok st' →
  closed_set st' = closed_set st ∧
  (∀ i, i ≠ n → path_fields st' i = path_fields st i) ∧
  (open_set st' = open_set st ∧ path_fields st' n = path_fields st n
   ∨ (n ∉ closed_set st) ∧
     ∃ f, open_set st'
          = if queue_query (open_set st) n
            then queue_change_priority (open_set st) n f
            else queue_add (open_set st) n f).
Proof.
  intros Hrelax.
  destruct (relax_Ok_nodes _ _ _ _ _ Hrelax)
    as (ndn & ndc & nde & Hn & Hc & He).
  pose proof (node_at_lt _ _ _ Hn) as Hlt.
  rewrite (relax_eq _ _ _ _ _ _ _ Hn Hc He) in Hrelax. simpl in Hrelax.
  destruct (_ || _) eqn:Hskip; injection Hrelax as <-; simpl.
  - split; [done|]. unfold path_fields. simpl. split.
    + intros i Hi. rewrite node_at_set_node by done.
      by rewrite decide_False.
    + left. split; [done|]. rewrite node_at_set_node by done.
      rewrite decide_True by done. by rewrite Hn.
  - split; [done|]. unfold path_fields. simpl. split.
    + intros i Hi. rewrite node_at_set_node by done.
      by rewrite decide_False.
    + right. apply orb_false_iff in Hskip as [_ Hclosed].
      apply bool_decide_eq_false in Hclosed. split; [done|]. eauto.
Qed.

End step_facts.

(** * Properties of the design document *)

(** ** Unreachable goals: the closed set is the component of the start *)

Section component.
Context {Q : Type} `{QueueLaws Q}.

(** A run on a well-formed graph comes to an end. *)
Lemma a_star_run_plain g s e :
  well_formed g → valid_node g s → valid_node g e →
  ∃ r : run Q,
    a_star_run g s e = Ok r ∧
    ended g s e (λ _ _, True) r ∧
    r_extractions r ≤ 2 * num_nodes g ∧
    (no_self_loop g → r_extractions r ≤ num_nodes g) ∧
    ∀ fuel st0,
      a_star_fuel g ≤ fuel → a_star_init g s e = Ok st0 →
      a_star_loop fuel e 0 st0 = Ok r.
Proof. intros Hwf Hs He. by apply a_star_run_inv. Qed.

(** C9.  When the goal cannot be reached from the start, the search
    leaves the loop with the open set empty, and the closed set then holds
    exactly the nodes that can be reached from the start: its connected
    component. *)
Theorem closed_set_is_component g s e :
  well_formed g → valid_node g s → valid_node g e →
  ¬ reachable g s e →
  ∃ r : run Q,
    a_star_run g s e = Ok r ∧
    r_exit r = EXHAUSTED ∧
    ∀ i, i ∈ closed_set (r_final r) ↔ reachable g s i.
Proof.
  intros Hwf Hs He Hunreach.
  destruct (a_star_run_plain g s e Hwf Hs He) as (r & Hr & Hended & _).
  exists r. split; [done|].
  assert (r_exit r = EXHAUSTED) as Hexit.
  { destruct (r_exit r) eqn:Hx; [|done].
    by apply (ended_found _ _ _ _ _ Hended) in Hx. }
  split; [done|]. intros i. by eapply ended_exhausted.
Qed.

End component.

Lemma islands_well_formed : well_formed islands.
Proof. apply (bool_decide_unpack _). by vm_compute. Qed.

Lemma islands_unreachable : ¬ reachable islands 0 2.
Proof.
  intros Hr. apply rtc_inv in Hr as [Heq|(y & (nd & Hnd & Hy) & _)];
    [done|].
  vm_compute in Hnd. injection Hnd as <-. by apply elem_of_nil in Hy.
Qed.

Lemma closed_set_is_component_witness :
  well_formed islands ∧ valid_node islands 0 ∧ valid_node islands 2 ∧
  ¬ reachable islands 0 2 ∧
  ∃ r : run ListQueue.t,
    a_star_run islands 0 2 = Ok r ∧
    r_exit r = EXHAUSTED ∧
    ∀ i, i ∈ closed_set (r_final r) ↔ reachable islands 0 i.
Proof.
  assert (valid_node islands 0) as H0 by (by eexists).
  assert (valid_node islands 2) as H2 by (by eexists).
  do 4 (split; [first [exact islands_well_formed | exact islands_unreachable
                      | done]|]).
  exact (closed_set_is_component islands 0 2 islands_well_formed H0 H2
           islands_unreachable).
Defined.

(** ** Termination *)

Section termination.
Context {Q : Type} `{QueueLaws Q}.

(** C10, as amended.  On a well-formed graph, for a valid start and a valid
    goal, [a_star] comes to an end: the run returns within the loop budget
    of [a_star], and within any larger budget with the same result.  The
    number of extractions is at most twice the number of nodes, and at most
    the number of nodes when no node is its own neighbour.  A turn of the
    inner loop for a neighbour that is in the closed set leaves the open
    set as it is. *)
Theorem a_star_terminates g s e :
  well_formed g → valid_node g s → valid_node g e →
  (∃ r : run Q,
     a_star_run g s e = Ok r ∧
     (∀ fuel st0,
        a_star_fuel g ≤ fuel → a_star_init g s e = Ok st0 →
        a_star_loop fuel e 0 st0 = Ok r) ∧
     r_extractions r ≤ 2 * num_nodes g ∧
     (no_self_loop g → r_extractions r ≤ num_nodes g)) ∧
  ∀ curr n (st st' : search Q),
    relax e curr st n = Ok st' → n ∈ closed_set st →
    open_set st' = open_set st.
Proof.
  intros Hwf Hs He. split.
  - destruct (a_star_run_plain g s e Hwf Hs He)
      as (r & Hr & _ & Hcount & Hcount' & Hfuel).
    by exists r.
  - intros curr n st st' Hrelax Hn.
    by destruct (relax_effect _ _ _ _ _ Hrelax) as (_ & _ & [[? _]|[? _]]).
Qed.

End termination.

Lemma detour_well_formed : well_formed detour.
Proof. apply (bool_decide_unpack _). by vm_compute. Qed.

(** On [detour] the search from node 0 to node 2 takes node 0 out of the
    open set twice: four extractions for three nodes. *)
Lemma extractions_exceed_nodes :
  well_formed detour ∧ valid_node detour 0 ∧ valid_node detour 2 ∧
  ∃ r : run ListQueue.t,
    a_star_run detour 0 2 = Ok r ∧
    ¬ (r_extractions r ≤ num_nodes detour).
Proof.
  split; [exact detour_well_formed|].
  split; [by eexists|]. split; [by eexists|].
  eexists. split; [by vm_compute|]. vm_compute. lia.
Qed.

Lemma square_well_formed : well_formed square.
Proof. apply (bool_decide_unpack _). by vm_compute. Qed.

Lemma a_star_terminates_witness :
  well_formed square ∧ valid_node square 0 ∧ valid_node square 2 ∧
  (∃ r : run ListQueue.t,
     a_star_run square 0 2 = Ok r ∧
     (∀ fuel st0,
        a_star_fuel square ≤ fuel → a_star_init square 0 2 = Ok st0 →
        a_star_loop fuel 2 0 st0 = Ok r) ∧
     r_extractions r ≤ 2 * num_nodes square ∧
     (no_self_loop square → r_extractions r ≤ num_nodes square)) ∧
  ∀ curr n (st st' : search ListQueue.t),
    relax 2 curr st n = Ok st' → n ∈ closed_set st →
    open_set st' = open_set st.
Proof.
  assert (valid_node square 0) as H0 by (by eexists).
  assert (valid_node square 2) as H2 by (by eexists).
  split; [exact square_well_formed|]. split; [done|]. split; [done|].
  exact (a_star_terminates square 0 2 square_well_formed H0 H2).
Defined.

(** ** The value returned *)

Section sentinel.
Context {Q : Type} `{QueueLaws Q}.

Lemma fresh_g_cost g i nd :
  fresh g → node_at g i = Some nd → g_cost nd = 0%float.
Proof. intros Hfresh Hnd. by destruct (all_nodes_at _ _ _ _ Hfresh Hnd). Qed.

(** What [a_star] returns, from the end of the run. *)
Lemma a_star_eq g s e (r : run Q) nd :
  a_star_run g s e = Ok r →
  node_at (s_graph (r_final r)) e = Some nd →
  a_star g s e
  = Ok (if (g_cost nd =? 0)%float then (-1)%float else f_cost nd).
Proof.
  intros Hr Hnd. unfold a_star. rewrite Hr. simpl.
  by apply a_star_result_eq.
Qed.

(** At [FOUND], the heuristic of a goal with finite coordinates is [0] and
    its total cost is its path cost plus [0]. *)
Lemma found_costs g s e (r : run Q) nd :
  well_formed g → valid_node g s → finite_coords g e →
  a_star_run g s e = Ok r → r_exit r = FOUND →
  node_at (s_graph (r_final r)) e = Some nd →
  h_cost nd = 0%float ∧ f_cost nd = (g_cost nd + 0)%float.
Proof.
  intros Hwf Hs (e0 & He0 & Hlat & Hlon) Hr Hexit Hnd.
  assert (valid_node g e) as He by by exists e0.
  destruct (a_star_run_plain g s e Hwf Hs He) as (r' & Hr' & Hended & _).
  assert (r' = r) as -> by congruence.
  destruct (ended_found_costs _ _ _ _ _ _ _ Hended Hexit Hnd He0)
    as [Hh Hf].
  rewrite (node_distance_self _ Hlat Hlon) in Hh.
  split; [done|]. by rewrite Hf, Hh.
Qed.

(** What holds of the value returned.  On a well-formed graph with the
    cost state [node_create] leaves, [a_star] returns; the value returned
    is [-1] or [f_cost (goal)] according to whether [g_cost (goal)]
    equals [0] after the loop.  When the goal cannot be reached from the
    start, the value returned is the negative value [-1].  When the loop
    is left at [FOUND], the value is positive if the path cost at the
    goal, as the search has added it up, is positive and the coordinates
    of the goal are finite; on [nearby] and [far] below they are not. *)
Lemma a_star_sentinel g s e :
  well_formed g → fresh g → valid_node g s → valid_node g e →
  ∃ (r : run Q) nd v,
    a_star_run g s e = Ok r ∧
    node_at (s_graph (r_final r)) e = Some nd ∧
    a_star g s e = Ok v ∧
    v = (if (g_cost nd =? 0)%float then (-1)%float else f_cost nd) ∧
    (¬ reachable g s e → v = (-1)%float ∧ (v <? 0)%float = true) ∧
    (r_exit r = FOUND → finite_coords g e →
     (0 <? g_cost nd)%float = true → (0 <? v)%float = true).
Proof.
  intros Hwf Hfresh Hs He.
  destruct (a_star_run_plain g s e Hwf Hs He) as (r & Hr & Hended & _).
  destruct He as [e0 He0].
  destruct (same_shape_node _ _ _ _ (ended_shape _ _ _ _ _ Hended) He0)
    as (nd & Hnd & _).
  exists r, nd. eexists. split; [done|]. split; [done|].
  split; [by apply (a_star_eq _ _ _ r)|]. split; [done|]. split.
  - intros Hunreach.
    pose proof (ended_untouched _ _ _ _ r e Hended Hunreach) as Hg.
    rewrite He0, Hnd in Hg. injection Hg as Hg.
    by rewrite Hg, (fresh_g_cost _ _ _ Hfresh He0).
  - intros Hexit Hfin Hpos.
    destruct (found_costs _ _ _ _ _ Hwf Hs Hfin Hr Hexit Hnd) as [_ Hf].
    pose proof (FloatFacts.float_pos_nonzero _ Hpos) as Hnz.
    rewrite (FloatFacts.float_add_zero_r _ Hnz) in Hf.
    by rewrite Hnz, Hf.
Qed.

(** When the loop is left at [FOUND] and the coordinates of the goal are
    finite, [h_cost (goal)] is [0], the distance from the goal to itself,
    and [f_cost (goal)] is [g_cost (goal) + 0]; when in addition
    [g_cost (goal)] is not [0], [f_cost (goal)] equals [g_cost (goal)] and
    is the value [a_star] returns. *)
Lemma found_f_cost_is_g_cost g s e (r : run Q) nd :
  well_formed g → valid_node g s → finite_coords g e →
  a_star_run g s e = Ok r → r_exit r = FOUND →
  node_at (s_graph (r_final r)) e = Some nd →
  h_cost nd = 0%float ∧
  f_cost nd = (g_cost nd + 0)%float ∧
  ((g_cost nd =? 0)%float = false →
   f_cost nd = g_cost nd ∧ a_star g s e = Ok (g_cost nd)).
Proof.
  intros Hwf Hs Hfin Hr Hexit Hnd.
  destruct (found_costs _ _ _ _ _ Hwf Hs Hfin Hr Hexit Hnd) as [Hh Hf].
  split; [done|]. split; [done|]. intros Hnz.
  rewrite (FloatFacts.float_add_zero_r _ Hnz) in Hf.
  split; [done|].
  by rewrite (a_star_eq _ _ _ _ _ Hr Hnd), Hnz, Hf.
Qed.

End sentinel.

Lemma square_fresh : fresh square.
Proof. apply (bool_decide_unpack _). by vm_compute. Qed.

Lemma square_finite_coords i : i < 4 → finite_coords square i.
Proof.
  intros Hi. destruct i as [|[|[|[|i]]]]; [| | |  |lia];
    (eexists; split; [by vm_compute | by split]).
Qed.

Lemma a_star_sentinel_witness :
  well_formed square ∧ fresh square ∧
  valid_node square 0 ∧ valid_node square 2 ∧
  ∃ (r : run ListQueue.t) nd v,
    a_star_run square 0 2 = Ok r ∧
    node_at (s_graph (r_final r)) 2 = Some nd ∧
    a_star square 0 2 = Ok v ∧
    v = (if (g_cost nd =? 0)%float then (-1)%float else f_cost nd) ∧
    (¬ reachable square 0 2 → v = (-1)%float ∧ (v <? 0)%float = true) ∧
    (r_exit r = FOUND → finite_coords square 2 →
     (0 <? g_cost nd)%float = true → (0 <? v)%float = true).
Proof.
  assert (valid_node square 0) as H0 by (by eexists).
  assert (valid_node square 2) as H2 by (by eexists).
  split; [exact square_well_formed|]. split; [exact square_fresh|].
  split; [done|]. split; [done|].
  exact (a_star_sentinel square 0 2 square_well_formed square_fresh H0 H2).
Defined.

Lemma twins_well_formed : well_formed twins.
Proof. apply (bool_decide_unpack _). by vm_compute. Qed.

(** C5, what the code does.  On [twins], two nodes at the same place
    joined by an edge, the goal, node 1, is relaxed as a neighbour of
    node 0 and then dequeued: the loop is left at [FOUND] with
    [f_cost (goal)] equal to [g_cost (goal)], both [0], and [a_star]
    returns [-1] instead of that value. *)
Theorem found_returns_sentinel :
  well_formed twins ∧ fresh twins ∧ finite_coords twins 1 ∧
  ∃ (r : run ListQueue.t) nd,
    a_star_run twins 0 1 = Ok r ∧ r_exit r = FOUND ∧
    node_at (s_graph (r_final r)) 1 = Some nd ∧
    parent nd = Some 0 ∧
    f_cost nd = g_cost nd ∧ g_cost nd = 0%float ∧
    a_star (Q := ListQueue.t) twins 0 1 = Ok (-1)%float ∧
    a_star (Q := ListQueue.t) twins 0 1 ≠ Ok (f_cost nd).
Proof.
  split; [exact twins_well_formed|].
  split; [apply (bool_decide_unpack _); by vm_compute|]. split.
  { eexists. split; [by vm_compute | by split]. }
  eexists _, _. split; [by vm_compute|]. split; [done|].
  split; [by vm_compute|]. do 4 (split; [done|]).
  vm_compute. intros Heq. discriminate Heq.
Qed.

(** ** Searching from a node to itself *)

Section same_node.
Context {Q : Type} `{QueueLaws Q}.

(** A search from a node to itself stops at the first extraction and, the
    path cost of the node being [0], returns [-1]. *)
Lemma a_star_self g s s0 :
  node_at g s = Some s0 → (g_cost s0 =? 0)%float = true →
  a_star (Q := Q) g s s = Ok (-1)%float.
Proof.
  intros Hs0 Hzero. pose proof (node_at_lt _ _ _ Hs0) as Hlt.
  unfold a_star, a_star_run.
  rewrite (a_star_init_eq g s s s0 s0 Hs0 Hs0). simpl.
  set (f := (g_cost s0 + node_distance s0 s0)%float).
  set (q := queue_add queue_create s f).
  set (nd1 := with_f_cost (with_h_cost s0 (node_distance s0 s0)) f).
  set (g1 := set_node g s nd1).
  assert (queue_ids q ≡ₚ [s]) as Hids.
  { unfold q. by rewrite queue_ids_add, queue_ids_create. }
  unfold a_star_fuel. replace (2 * num_nodes g + 1) with (S (2 * num_nodes g))
    by lia.
  simpl.
  destruct (queue_is_empty q) eqn:Hemp.
  { apply queue_is_empty_ids in Hemp. rewrite Hemp in Hids.
    by apply Permutation_nil_cons in Hids. }
  destruct (queue_remove_is_Some _ Hemp) as [[curr q'] Hrem].
  rewrite Hrem.
  assert (curr = s) as ->.
  { apply queue_ids_remove in Hrem. rewrite Hids in Hrem.
    assert (curr ∈ [s]) as Hin by (rewrite Hrem; by left).
    by apply list_elem_of_singleton in Hin. }
  rewrite decide_True by done. simpl.
  rewrite (a_star_result_eq g1 s nd1).
  - simpl. by rewrite Hzero.
  - unfold g1. rewrite node_at_set_node by done. by rewrite decide_True.
Qed.

(** C2, what the code does.  On a graph with the cost state [node_create]
    leaves, a search from a valid node to itself returns [-1], the value
    that stands for an unreachable goal, and not the distance [0]. *)
Theorem a_star_start_is_goal g s :
  fresh g → valid_node g s →
  a_star (Q := Q) g s s = Ok (-1)%float.
Proof.
  intros Hfresh [s0 Hs0]. apply (a_star_self g s s0 Hs0).
  by rewrite (fresh_g_cost _ _ _ Hfresh Hs0).
Qed.

End same_node.

Lemma a_star_start_is_goal_witness :
  fresh square ∧ valid_node square 1 ∧
  a_star (Q := ListQueue.t) square 1 1 = Ok (-1)%float.
Proof.
  assert (valid_node square 1) as H1 by (by eexists).
  split; [exact square_fresh|]. split; [done|].
  exact (a_star_start_is_goal square 1 square_fresh H1).
Defined.

(** C1, what the code does.  On the unit square node 0 is reachable from
    itself by the path that stays there, of length [0]; the search from
    node 0 to node 0 returns [-1], whatever queue it runs on. *)
Theorem a_star_misses_empty_path {Q : Type} `{QueueLaws Q} :
  well_formed square ∧ fresh square ∧ reachable square 0 0 ∧
  path_length square [0] = Ok 0%float ∧
  a_star (Q := Q) square 0 0 = Ok (-1)%float.
Proof.
  split; [exact square_well_formed|]. split; [exact square_fresh|].
  split; [apply rtc_refl|]. split; [done|].
  eapply a_star_self; by vm_compute.
Qed.

Lemma a_star_misses_empty_path_witness :
  well_formed square ∧ fresh square ∧ reachable square 0 0 ∧
  path_length square [0] = Ok 0%float ∧
  a_star (Q := ListQueue.t) square 0 0 = Ok (-1)%float.
Proof. exact (a_star_misses_empty_path (Q := ListQueue.t)). Defined.

(** ** Closed nodes *)

Section closed_set_facts.
Context {Q : Type} `{Queue Q}.

Lemma step_closed e (c c' : phase * search Q) :
  step e c c' →
  closed_set c.2 ⊆ closed_set c'.2 ∧
  ∀ i, i ∈ closed_set c.2 → path_fields c'.2 i = path_fields c.2 i.
Proof.
  intros Hstep. destruct Hstep as [st _|st q' _ _|st curr q' nc _ _ _ _
                                   |st curr n next st' Hrelax|st curr];
    simpl; try done.
  - destruct (relax_effect _ _ _ _ _ Hrelax) as (-> & Hother & Hn).
    split; [done|]. intros i Hi.
    destruct (decide (i = n)) as [->|Hin]; [|by apply Hother].
    by destruct Hn as [[_ Hn]|[Hn _]].
  - split; [|done]. unfold set_add. set_solver.
Qed.

(** C6.  Along the steps of a run of the loop, from any point to any later
    point, the closed set only grows, and a node that is in the closed set
    at the earlier point has the same [g_cost], [f_cost] and parent at the
    later one; a turn of the inner loop for a neighbour that is closed
    changes neither the open set nor these fields of the neighbour. *)
Theorem closed_nodes_are_final e (c c' : phase * search Q) :
  rtc (step e) c c' →
  closed_set c.2 ⊆ closed_set c'.2 ∧
  (∀ i, i ∈ closed_set c.2 → path_fields c'.2 i = path_fields c.2 i) ∧
  ∀ curr n st st',
    relax e curr st n = Ok st' → n ∈ closed_set st →
    open_set st' = open_set st ∧ path_fields st' n = path_fields st n.
Proof.
  intros Hsteps. rewrite (assoc _). split.
  - induction Hsteps as [c|c1 c2 c3 Hstep _ [IHsub IHfields]]; [done|].
    destruct (step_closed _ _ _ Hstep) as [Hsub Hfields].
    split; [set_solver|]. intros i Hi.
    rewrite IHfields by set_solver. by apply Hfields.
  - intros curr n st st' Hrelax Hn.
    by destruct (relax_effect _ _ _ _ _ Hrelax) as (_ & _ & [?|[? _]]).
Qed.

End closed_set_facts.

(** ** Entries of the open set *)

Section open_set_facts.
Context {Q : Type} `{QueueLaws Q}.



End open_set_facts.

(** The unit square after node 0 has been expanded and closed, with node 1
    alone in the open set. *)
Lemma closed_nodes_are_final_witness :
  ∃ c c' : phase * search ListQueue.t,
    rtc (step 2) c c' ∧ 0 ∈ closed_set c.2 ∧
    closed_set c.2 ⊆ closed_set c'.2 ∧
    (∀ i, i ∈ closed_set c.2 → path_fields c'.2 i = path_fields c.2 i) ∧
    ∀ curr n st st',
      relax 2 curr st n = Ok st' → n ∈ closed_set st →
      open_set st' = open_set st ∧ path_fields st' n = path_fields st n.
Proof.
  set (st := {| s_graph := square; open_set := [(1, 2%float)];
                closed_set := {[0]} |} : search ListQueue.t).
  destruct (a_star_loop 9 2 0 st) as [r| |] eqn:Hr;
    [|by vm_compute in Hr..].
  pose proof (a_star_loop_steps _ _ _ _ _ Hr) as Hsteps.
  exists (AtHead, st), (Left (r_exit r), r_final r).
  split; [done|]. split; [by apply elem_of_singleton|].
  exact (closed_nodes_are_final 2 _ _ Hsteps).
Defined.


(** ** Edge insertion at a single node *)

Lemma lone_neighbors : neighbors_of lone 0 = Some [].
Proof. by vm_compute. Qed.

(** [add_edge lone 0 0] puts the number 0 twice in the list of node 0. *)
Lemma add_edge_self_appends_twice : ¬ appends_once lone 0 0.
Proof.
  intros (la & lb & g' & Ha & _ & Hadd & Ha' & _).
  rewrite lone_neighbors in Ha. injection Ha as <-.
  vm_compute in Hadd. injection Hadd as <-. by vm_compute in Ha'.
Qed.

(** C4, as amended.  For valid [a] and [b], [add_edge graph a b] succeeds;
    when [a] and [b] differ it puts [b] once at the end of the neighbour
    list of [a] and [a] once at the end of the neighbour list of [b]; when
    they are the same node, that node gets its own number twice at the end
    of its list; the entries stored before stay in place and in order, and
    the lists of all other nodes are unchanged. *)
Theorem add_edge_appends graph a b la lb :
  neighbors_of graph a = Some la →
  neighbors_of graph b = Some lb →
  ∃ graph',
    add_edge graph a b = Ok graph' ∧
    neighbors_of graph' a
    = Some (if decide (a = b) then la ++ [a; a] else la ++ [b]) ∧
    neighbors_of graph' b
    = Some (if decide (a = b) then lb ++ [b; b] else lb ++ [a]) ∧
    ∀ c, c ≠ a → c ≠ b → neighbors_of graph' c = neighbors_of graph c.
Proof.
  intros (na & Ha & <-)%neighbors_of_Some (nb & Hb & <-)%neighbors_of_Some.
  pose proof (node_at_lt _ _ _ Ha) as Hla.
  pose proof (node_at_lt _ _ _ Hb) as Hlb.
  eexists. split; [by apply add_edge_eq|].
  repeat split.
  - rewrite !neighbors_of_set_node by (by rewrite ?set_node_length).
    repeat case_decide; subst; simplify_eq; simpl; try done.
    by rewrite <- (assoc (++)).
  - rewrite !neighbors_of_set_node by (by rewrite ?set_node_length).
    repeat case_decide; subst; simplify_eq; simpl; try done.
    by rewrite <- (assoc (++)).
  - intros c Hca Hcb.
    rewrite !neighbors_of_set_node by (by rewrite ?set_node_length).
    by rewrite !decide_False by done.
Qed.

Lemma twins_neighbors :
  neighbors_of twins 0 = Some [1] ∧ neighbors_of twins 1 = Some [0].
Proof. by vm_compute. Qed.

Lemma add_edge_appends_witness :
  neighbors_of twins 0 = Some [1] ∧ neighbors_of twins 1 = Some [0] ∧
  ∃ graph',
    add_edge twins 0 1 = Ok graph' ∧
    neighbors_of graph' 0
    = Some (if decide (0 = 1) then [1] ++ [0; 0] else [1] ++ [1]) ∧
    neighbors_of graph' 1
    = Some (if decide (0 = 1) then [0] ++ [1; 1] else [0] ++ [0]) ∧
    ∀ c, c ≠ 0 → c ≠ 1 → neighbors_of graph' c = neighbors_of twins c.
Proof.
  destruct twins_neighbors as [H0 H1].
  split; [done|]. split; [done|].
  exact (add_edge_appends twins 0 1 [1] [0] H0 H1).
Defined.

(** ** Graphs with a table of exact path costs *)

Lemma exact_costs_start g s e d s0 :
  exact_costs g s e d → node_at g s = Some s0 → g_cost s0 = d s.
Proof. intros [Hs _] Hs0. by rewrite Hs0 in Hs. Qed.

Lemma exact_costs_edge g s e d c n nc nn :
  exact_costs g s e d →
  c ≠ e → node_at g c = Some nc → n ∈ neighbors nc →
  node_at g n = Some nn →
  (d n <=? d c + node_distance nc nn)%float = true ∧
  ((n = s ∧ c ≠ s) ∨ (d c + node_distance nc nn)%float = d n).
Proof.
  intros [_ Hall] Hce Hc Hn Hnn.
  assert (c ∈ seq 0 (length (nodes g))) as Hin.
  { apply elem_of_seq. pose proof (node_at_lt _ _ _ Hc). lia. }
  pose proof (proj1 (Forall_forall _ _) Hall c Hin) as Hc'.
  simpl in Hc'. rewrite Hc in Hc'. simpl in Hc'. specialize (Hc' Hce).
  pose proof (proj1 (Forall_forall _ _) Hc' n Hn) as Hn'.
  simpl in Hn'. by rewrite Hnn in Hn'.
Qed.

Section exact.
Context {Q : Type} `{QueueLaws Q}.
Variables (g : graph_t) (s e : nat) (d : nat → float).
Hypothesis Hwf : well_formed g.
Hypothesis Hs : valid_node g s.
Hypothesis Hexact : exact_costs g s e d.

Lemma agrees_relax (st : search Q) curr n st' :
  search_inv g s e {[curr]} st → agrees d {[curr]} st →
  edge g curr n → relax e curr st n = Ok st' →
  agrees d {[curr]} st'.
Proof.
  intros Hinv Hagree (nc & Hnc & Hn) Hrelax.
  destruct (relax_Ok_nodes _ _ _ _ _ Hrelax)
    as (ndn & ndc & nde & Hndn & Hndc & Hnde).
  pose proof (node_at_lt _ _ _ Hndn) as Hlt.
  rewrite (relax_eq _ _ _ _ _ _ _ Hndn Hndc Hnde) in Hrelax.
  simpl in Hrelax.
  destruct (same_shape_node_rev _ _ _ _ (inv_shape _ _ _ _ _ Hinv) Hndn)
    as (nn & Hnn & Hshn).
  destruct (same_shape_node_rev _ _ _ _ (inv_shape _ _ _ _ _ Hinv) Hndc)
    as (nc' & Hnc' & Hshc).
  assert (nc' = nc) as -> by congruence.
  assert (curr ≠ e) as Hce.
  { destruct (inv_goal _ _ _ _ _ Hinv) as [_ Hp]. set_solver. }
  assert (g_cost ndc = d curr) as Hgc.
  { apply (Hagree curr); [|done]. right; right. set_solver. }
  rewrite Hgc, (node_distance_shape _ _ _ _ Hshc Hshn) in Hrelax.
  destruct (exact_costs_edge _ _ _ _ _ _ _ _ Hexact Hce Hnc Hn Hnn)
    as [Hle Heq].
  destruct (_ || _) eqn:Hskip; injection Hrelax as <-.
  - (* skipped *)
    intros i nd Hseen Hnd. simpl in *.
    rewrite node_at_set_node in Hnd by done. case_decide as Hin.
    + subst i. injection Hnd as <-. simpl. by apply (Hagree n).
    + by apply (Hagree i).
  - (* relaxed *)
    apply orb_false_iff in Hskip as [Hskip Hclosed].
    apply bool_decide_eq_false in Hclosed.
    intros i nd Hseen Hnd. simpl in *.
    rewrite node_at_set_node in Hnd by done. case_decide as Hin.
    + subst i. injection Hnd as <-. simpl.
      destruct Heq as [[-> Hcs]|Heq]; [|done].
      exfalso.
      destruct (inv_start _ _ _ _ _ Hinv) as [Hopen|[?|?]];
        [|done|set_solver].
      assert (g_cost ndn = d s) as Hgs by (apply (Hagree s); by left || done).
      apply queue_query_spec in Hopen. rewrite Hopen, Hgs in Hskip.
      simpl in Hskip. congruence.
    + apply (Hagree i); [|done].
      destruct Hseen as [Hi|Hi]; [|by right].
      left. unfold seen in *. simpl in *.
      destruct (queue_query (open_set st) n).
      * by rewrite queue_ids_change_priority in Hi.
      * rewrite queue_ids_add in Hi.
        by apply elem_of_cons in Hi as [?|?].
Qed.

(** The run ends at [FOUND] with the path cost of the table at the goal. *)
Lemma a_star_run_exact :
  finite_coords g e → reachable g s e →
  ∃ (r : run Q) nd,
    a_star_run g s e = Ok r ∧ r_exit r = FOUND ∧
    node_at (s_graph (r_final r)) e = Some nd ∧
    g_cost nd = d e ∧ f_cost nd = (d e + 0)%float.
Proof.
  intros Hfin Hreach.
  assert (valid_node g e) as He.
  { destruct Hfin as (e0 & ? & _). by exists e0. }
  destruct (a_star_run_inv g s e Hwf Hs He (agrees d))
    as (r & Hr & Hended & _).
  - intros st curr q' Hinv Hagree Hrem _ i nd Hseen.
    apply Hagree. apply queue_ids_remove in Hrem.
    destruct Hseen as [Hi|[Hi|Hi]].
    + left. rewrite Hrem. by right.
    + by right; left.
    + left. rewrite Hrem. apply elem_of_singleton in Hi as ->. by left.
  - intros st curr n st'. apply agrees_relax.
  - intros st curr Hinv Hagree i nd Hseen. apply Hagree.
    destruct Hseen as [Hi|[Hi|Hi]]; [by left| |set_solver].
    unfold set_add in Hi. simpl in Hi.
    apply elem_of_union in Hi as [Hi|Hi]; [by right; right | by right; left].
  - intros st0 Hinit i nd Hseen Hnd.
    destruct (a_star_init_inv (Q := Q) g s e Hwf Hs He)
      as (st0' & Hinit' & _ & Hc0 & Hids0 & Hg0).
    assert (st0' = st0) as -> by congruence.
    assert (i = s) as ->.
    { destruct Hseen as [Hi|[Hi|Hi]]; [|set_solver..].
      rewrite Hids0 in Hi. by apply list_elem_of_singleton in Hi. }
    specialize (Hg0 s). rewrite Hnd in Hg0. destruct Hs as [s0 Hs0].
    rewrite Hs0 in Hg0. injection Hg0 as ->.
    by eapply exact_costs_start.
  - assert (r_exit r = FOUND) as Hexit by by apply (ended_found _ _ _ _ _ Hended).
    pose proof Hended as (st & Hinv & Hagree & Hgraph & _ & Hopen).
    rewrite Hexit in Hopen.
    destruct (seen_reachable_valid g s e Hwf Hs ∅ st e Hinv) as [e0 He0];
      [by left|].
    destruct (same_shape_node _ _ _ _ (inv_shape _ _ _ _ _ Hinv) He0)
      as (nd & Hnd & _).
    rewrite <- Hgraph in Hnd.
    assert (g_cost nd = d e) as Hg.
    { apply (Hagree e); [by left|]. by rewrite <- Hgraph. }
    destruct (found_costs _ _ _ _ _ Hwf Hs Hfin Hr Hexit Hnd) as [_ Hf].
    exists r, nd. do 4 (split; [done|]). by rewrite Hf, Hg.
Qed.

End exact.

(** ** The unit square *)

Lemma square_exact_costs : exact_costs square 0 2 square_costs.
Proof. apply (bool_decide_unpack _). by vm_compute. Qed.

Lemma square_reachable : reachable square 0 2.
Proof.
  apply (rtc_l _ _ 1); [|apply rtc_once];
    (eexists; split; [by vm_compute|]; set_solver).
Qed.

(** C8.  On the unit square with its four sides and fresh costs, the search
    from node 0 to node 2 returns exactly [2], on every queue that meets
    the contract, whichever of two entries of equal priority it takes out
    first. *)
Theorem square_distance {Q : Type} `{QueueLaws Q} :
  a_star (Q := Q) square 0 2 = Ok 2%float.
Proof.
  destruct (a_star_run_exact square 0 2 square_costs square_well_formed)
    as (r & nd & Hr & _ & Hnd & Hg & Hf).
  - by eexists.
  - exact square_exact_costs.
  - apply square_finite_coords. lia.
  - exact square_reachable.
  - rewrite (a_star_eq _ _ _ _ _ Hr Hnd), Hg, Hf. by vm_compute.
Qed.

Lemma square_distance_witness :
  a_star (Q := ListQueue.t) square 0 2 = Ok 2%float.
Proof. exact (square_distance (Q := ListQueue.t)). Defined.

(** ** A goal found at the end of a short edge *)

Lemma nearby_well_formed : well_formed nearby.
Proof. apply (bool_decide_unpack _). by vm_compute. Qed.

Lemma nearby_exact_costs : exact_costs nearby 0 1 (λ _, 0%float).
Proof. apply (bool_decide_unpack _). by vm_compute. Qed.

Lemma nearby_edge : edge nearby 0 1.
Proof. eexists. split; [by vm_compute|]. set_solver. Qed.

(** C3, what the code does.  On [nearby], two nodes with finite
    coordinates that lie [2^-600] apart and are joined by an edge, the
    goal, node 1, is found through that edge, a path of positive length.
    The squares in [calculate_distance] underflow, so the path cost of
    the goal is [0] when the loop is left at [FOUND], and [a_star]
    returns [-1], the value for a goal that cannot be reached, and no
    positive value; this on every queue that meets the contract. *)
Theorem short_path_returns_sentinel {Q : Type} `{QueueLaws Q} :
  well_formed nearby ∧ fresh nearby ∧ all_finite nearby ∧
  edge nearby 0 1 ∧ reachable nearby 0 1 ∧
  (∃ n0 n1,
     node_at nearby 0 = Some n0 ∧ node_at nearby 1 = Some n1 ∧
     longitude n0 = longitude n1 ∧
     (latitude n0 <? latitude n1)%float = true ∧
     (0 <? latitude n1 - latitude n0)%float = true) ∧
  calculate_distance nearby 0 1 = Ok 0%float ∧
  ∃ (r : run Q) nd,
    a_star_run nearby 0 1 = Ok r ∧ r_exit r = FOUND ∧
    node_at (s_graph (r_final r)) 1 = Some nd ∧
    g_cost nd = 0%float ∧
    a_star (Q := Q) nearby 0 1 = Ok (-1)%float ∧
    (0 <? -1)%float = false.
Proof.
  split; [exact nearby_well_formed|].
  split; [apply (bool_decide_unpack _); by vm_compute|].
  split; [apply (bool_decide_unpack _); by vm_compute|].
  split; [exact nearby_edge|].
  split; [apply rtc_once; exact nearby_edge|].
  split.
  { eexists _, _. split; [by vm_compute|]. split; [by vm_compute|].
    split; [done|]. split; by vm_compute. }
  split; [by vm_compute|].
  destruct (a_star_run_exact nearby 0 1 (λ _, 0%float) nearby_well_formed)
    as (r & nd & Hr & Hexit & Hnd & Hg & _).
  - by eexists.
  - exact nearby_exact_costs.
  - eexists. split; [by vm_compute | by split].
  - apply rtc_once. exact nearby_edge.
  - exists r, nd. do 4 (split; [done|]). split; [|done].
    rewrite (a_star_eq _ _ _ _ _ Hr Hnd), Hg. by vm_compute.
Qed.

Lemma short_path_returns_sentinel_witness :
  ∃ (r : run ListQueue.t) nd,
    a_star_run nearby 0 1 = Ok r ∧ r_exit r = FOUND ∧
    node_at (s_graph (r_final r)) 1 = Some nd ∧
    g_cost nd = 0%float ∧
    a_star (Q := ListQueue.t) nearby 0 1 = Ok (-1)%float ∧
    (0 <? -1)%float = false.
Proof.
  exact (proj2 (proj2 (proj2 (proj2 (proj2 (proj2 (proj2
           (short_path_returns_sentinel (Q := ListQueue.t))))))))).
Defined.

(** ** The other scenarios of the design document, on the list queue *)

Example segment_distance :
  a_star (Q := ListQueue.t) segment 0 1 = Ok 5%float.
Proof. by vm_compute. Qed.

Example islands_unreachable_sentinel :
  a_star (Q := ListQueue.t) islands 0 2 = Ok (-1)%float.
Proof. by vm_compute. Qed.

(** A goal with an infinite coordinate is found with an infinite path
    cost; its heuristic, the distance from the goal to itself, is a NaN,
    and so is the value returned. *)
Example far_goal_returns_nan :
  ∃ (r : run ListQueue.t) nd,
    a_star_run far 0 1 = Ok r ∧ r_exit r = FOUND ∧
    node_at (s_graph (r_final r)) 1 = Some nd ∧
    g_cost nd = infinity ∧ h_cost nd = nan ∧
    a_star (Q := ListQueue.t) far 0 1 = Ok nan ∧
    (0 <? nan)%float = false.
Proof.
  eexists _, _. split; [by vm_compute|]. split; [done|].
  split; [by vm_compute|]. by repeat split.
Qed.

(** * Further properties of the code *)

(** ** Adjacency lists *)

(** X1.  [insert] puts the value in a new cell after the last one: the
    list it returns is the list it was given followed by the value, also
    when the list was empty. *)
Theorem insert_at_end l val :
  insert l val = l ++ [val] ∧
  length (insert l val) = S (length l) ∧
  insert l val !! length l = Some val ∧
  ∀ i x, l !! i = Some x → insert l val !! i = Some x.
Proof.
  rewrite insert_app. split; [done|]. split; [|split].
  - rewrite length_app. simpl. lia.
  - rewrite lookup_app_r by done. by rewrite Nat.sub_diag.
  - intros i x Hi. by apply lookup_app_l_Some.
Qed.

(** ** The construction interface *)

Lemma node_at_graph_create n i : node_at (graph_create n) i = None.
Proof.
  unfold node_at, graph_create. simpl.
  destruct (replicate n None !! i) as [o|] eqn:Hi; [|done].
  by apply lookup_replicate in Hi as [-> _].
Qed.

(** X2.  A graph that [graph_create] returns has the node count asked for
    and only [NULL] slots: until [node_create] is called, [add_edge],
    [calculate_distance] and [a_star] dereference a [NULL] node whatever
    node numbers they are given. *)
Theorem graph_create_empty {Q : Type} `{Queue Q} n a b :
  num_nodes (graph_create n) = n ∧
  length (nodes (graph_create n)) = n ∧
  (∀ i, node_at (graph_create n) i = None) ∧
  add_edge (graph_create n) a b = Fault ∧
  calculate_distance (graph_create n) a b = Fault ∧
  a_star (Q := Q) (graph_create n) a b = Fault.
Proof.
  split; [done|]. split; [apply length_replicate|].
  split; [apply node_at_graph_create|].
  unfold a_star, a_star_run, a_star_init, set_h_cost, add_edge,
    calculate_distance, get_node.
  by rewrite !node_at_graph_create.
Qed.

Lemma node_create_eq graph i name lat lon :
  i < length (nodes graph) →
  node_create graph i name lat lon
  = Ok (set_node graph i (new_node i name lat lon)).
Proof. intros Hi. unfold node_create. by rewrite decide_True. Qed.

Lemma node_create_Ok graph i name lat lon graph' :
  node_create graph i name lat lon = Ok graph' →
  i < length (nodes graph) ∧
  graph' = set_node graph i (new_node i name lat lon).
Proof.
  intros Hnode.
  assert (i < length (nodes graph)) as Hi.
  { unfold node_create in Hnode. by case_decide. }
  rewrite node_create_eq in Hnode by done. by injection Hnode as <-.
Qed.

(** X3.  For a node number from [0] on that lies within the array,
    whatever the slot holds, [node_create] returns a graph with the same
    node count in which slot [i] holds a node with the number, name and
    coordinates given, no neighbour, no parent and zero costs, and in
    which the other slots are as they were. *)
Theorem node_create_lookup graph i name lat lon :
  i < length (nodes graph) →
  ∃ graph',
    node_create graph i name lat lon = Ok graph' ∧
    num_nodes graph' = num_nodes graph ∧
    length (nodes graph') = length (nodes graph) ∧
    node_at graph' i = Some (new_node i name lat lon) ∧
    ∀ j, j ≠ i → node_at graph' j = node_at graph j.
Proof.
  intros Hi. eexists. split; [by apply node_create_eq|].
  split; [done|]. split; [by rewrite set_node_length|]. split.
  - rewrite node_at_set_node by done. by rewrite decide_True.
  - intros j Hj. rewrite node_at_set_node by done. by rewrite decide_False.
Qed.

Lemma node_create_lookup_witness :
  1 < length (nodes twins) ∧
  ∃ graph',
    node_create twins 1 "town" 1 2 = Ok graph' ∧
    num_nodes graph' = num_nodes twins ∧
    length (nodes graph') = length (nodes twins) ∧
    node_at graph' 1 = Some (new_node 1 "town" 1 2) ∧
    ∀ j, j ≠ 1 → node_at graph' j = node_at twins j.
Proof.
  assert (1 < length (nodes twins)) as Hi by (vm_compute; lia).
  split; [done|].
  exact (node_create_lookup twins 1 "town" 1 2 Hi).
Defined.

Lemma edge_set_node graph i nd x y :
  i < length (nodes graph) →
  edge (set_node graph i nd) x y
  ↔ if decide (x = i) then y ∈ neighbors nd else edge graph x y.
Proof.
  intros Hi. unfold edge. case_decide as Hx.
  - subst x. split.
    + intros (nd' & Hnd' & Hy). rewrite node_at_set_node in Hnd' by done.
      rewrite decide_True in Hnd' by done. by injection Hnd' as <-.
    + intros Hy. exists nd. split; [|done].
      rewrite node_at_set_node by done. by rewrite decide_True.
  - split; intros (nd' & Hnd' & Hy); exists nd'; (split; [|done]).
    + rewrite node_at_set_node in Hnd' by done.
      by rewrite decide_False in Hnd'.
    + rewrite node_at_set_node by done. by rewrite decide_False.
Qed.

(** The edges after [node_create graph i]: those before that do not start
    at [i]. *)
Lemma node_create_edges graph i name lat lon graph' x y :
  node_create graph i name lat lon = Ok graph' →
  edge graph' x y ↔ x ≠ i ∧ edge graph x y.
Proof.
  unfold node_create. case_decide as Hi; [|done]. intros [= <-].
  rewrite edge_set_node by done. case_decide as Hx; simpl.
  - rewrite elem_of_nil. naive_solver.
  - naive_solver.
Qed.

(** X4.  [node_create] on a slot that already holds a node replaces the
    node: its neighbour list is empty again, while the lists of its
    former neighbours still name it, so the edges that ended there now
    run in one direction only. *)
Theorem node_create_again_drops_edges graph a b name lat lon :
  edge graph b a → a ≠ b → valid_node graph a →
  ∃ graph',
    node_create graph a name lat lon = Ok graph' ∧
    neighbors_of graph' a = Some [] ∧
    edge graph' b a ∧ ¬ edge graph' a b.
Proof.
  intros Hba Hab [na Ha]. pose proof (node_at_lt _ _ _ Ha) as Hlt.
  pose proof (node_create_eq graph a name lat lon Hlt) as Hnode.
  eexists. split; [done|]. split; [|split].
  - unfold neighbors_of. rewrite node_at_set_node by done.
    by rewrite decide_True.
  - apply (node_create_edges _ _ _ _ _ _ _ _ Hnode). by split.
  - intros [? _]%(node_create_edges _ _ _ _ _ _ _ _ Hnode). done.
Qed.

Lemma node_create_again_drops_edges_witness :
  edge twins 1 0 ∧ 0 ≠ 1 ∧ valid_node twins 0 ∧
  ∃ graph',
    node_create twins 0 "city" 0 0 = Ok graph' ∧
    neighbors_of graph' 0 = Some [] ∧
    edge graph' 1 0 ∧ ¬ edge graph' 0 1.
Proof.
  assert (edge twins 1 0) as Hedge.
  { eexists. split; [by vm_compute|]. by left. }
  assert (0 ≠ 1) as Hne by lia.
  assert (valid_node twins 0) as Hvalid by (by eexists).
  do 3 (split; [done|]).
  exact (node_create_again_drops_edges twins 0 1 "city" 0 0 Hedge Hne Hvalid).
Defined.

Lemma add_edge_Fault graph a b :
  add_edge graph a b = Fault ↔ ¬ (valid_node graph a ∧ valid_node graph b).
Proof.
  unfold valid_node. split.
  - intros Hadd [[na Ha] [nb Hb]].
    by rewrite (add_edge_eq _ _ _ _ _ Ha Hb) in Hadd.
  - intros Hnot. unfold add_edge, get_node at 1.
    destruct (node_at graph a) as [na|] eqn:Ha; [|done]. simpl.
    rewrite get_node_set_node by eauto using node_at_lt.
    case_decide as Hba; [subst b; destruct Hnot; by eauto|].
    unfold get_node. destruct (node_at graph b) as [nb|] eqn:Hb; [|done].
    destruct Hnot; by eauto.
Qed.

Lemma add_edge_Ok_nodes graph a b graph' :
  add_edge graph a b = Ok graph' →
  ∃ na nb, node_at graph a = Some na ∧ node_at graph b = Some nb.
Proof.
  intros Hadd.
  destruct (node_at graph a) as [na|] eqn:Ha; cycle 1.
  { unfold add_edge, get_node in Hadd. by rewrite Ha in Hadd. }
  destruct (node_at graph b) as [nb|] eqn:Hb; [by eauto|].
  assert (add_edge graph a b = Fault) as Hf; [|congruence].
  apply add_edge_Fault. intros [_ [? ?]]. congruence.
Qed.

(** X5.  [add_edge] is undefined exactly when one of the two node numbers
    does not designate a created node.  Otherwise it changes neighbour
    lists only: the node count, and the number, name, coordinates, costs
    and parent of every node stay as they were. *)
Theorem add_edge_defined graph a b :
  (add_edge graph a b = Fault ↔ ¬ (valid_node graph a ∧ valid_node graph b)) ∧
  add_edge graph a b ≠ Timeout ∧
  ∀ graph', add_edge graph a b = Ok graph' →
    num_nodes graph' = num_nodes graph ∧
    length (nodes graph') = length (nodes graph) ∧
    ∀ i, node_payload <$> node_at graph' i = node_payload <$> node_at graph i.
Proof.
  split; [apply add_edge_Fault|]. split.
  - unfold add_edge, get_node at 1.
    destruct (node_at graph a) as [na|] eqn:Ha; [|done]. simpl.
    unfold get_node. by destruct (node_at _ b).
  - intros graph' Hadd.
    destruct (add_edge_Ok_nodes _ _ _ _ Hadd) as (na & nb & Ha & Hb).
    pose proof (node_at_lt _ _ _ Ha). pose proof (node_at_lt _ _ _ Hb).
    rewrite (add_edge_eq _ _ _ _ _ Ha Hb) in Hadd. injection Hadd as <-.
    split; [done|]. split; [by rewrite !set_node_length|].
    intros i. rewrite !node_at_set_node by (by rewrite ?set_node_length).
    repeat case_decide; simplify_eq; by rewrite ?Ha, ?Hb.
Qed.

(** X6.  The order of the two node numbers given to [add_edge] does not
    matter: [add_edge graph a b] and [add_edge graph b a] return the same
    graph, or are both undefined. *)
Theorem add_edge_comm graph a b :
  add_edge graph a b = add_edge graph b a.
Proof.
  destruct (decide (a = b)) as [->|Hab]; [done|].
  destruct (node_at graph a) as [na|] eqn:Ha;
    destruct (node_at graph b) as [nb|] eqn:Hb.
  - pose proof (node_at_lt _ _ _ Ha). pose proof (node_at_lt _ _ _ Hb).
    rewrite (add_edge_eq _ _ _ _ _ Ha Hb), (add_edge_eq _ _ _ _ _ Hb Ha).
    rewrite !decide_False by done. f_equal. unfold set_node. simpl.
    f_equal. by apply list_insert_insert_ne.
  - transitivity (@Fault graph_t); [|symmetry]; apply add_edge_Fault;
      intros [[? ?] [? ?]]; congruence.
  - transitivity (@Fault graph_t); [|symmetry]; apply add_edge_Fault;
      intros [[? ?] [? ?]]; congruence.
  - transitivity (@Fault graph_t); [|symmetry]; apply add_edge_Fault;
      intros [[? ?] [? ?]]; congruence.
Qed.

(** The edges after [add_edge graph a b]: those before, and the new one in
    both directions. *)
Lemma add_edge_edges graph a b graph' x y :
  add_edge graph a b = Ok graph' →
  edge graph' x y ↔ edge graph x y ∨ (x = a ∧ y = b) ∨ (x = b ∧ y = a).
Proof.
  intros Hadd.
  destruct (add_edge_Ok_nodes _ _ _ _ Hadd) as (na & nb & Ha & Hb).
  pose proof (node_at_lt _ _ _ Ha). pose proof (node_at_lt _ _ _ Hb).
  rewrite (add_edge_eq _ _ _ _ _ Ha Hb) in Hadd. injection Hadd as <-.
  rewrite edge_set_node by (by rewrite set_node_length).
  assert (∀ nd, node_at graph x = Some nd → y ∈ neighbors nd → edge graph x y)
    as Hedge by (intros nd ??; by exists nd).
  assert (∀ nd, node_at graph x = Some nd → edge graph x y → y ∈ neighbors nd)
    as Hedge'.
  { intros nd Hnd (nd' & Hnd' & Hy). congruence. }
  destruct (decide (x = b)) as [->|Hxb]; simpl.
  - destruct (decide (b = a)) as [->|Hba]; simpl;
      rewrite !elem_of_app, !list_elem_of_singleton; naive_solver.
  - rewrite edge_set_node by done.
    destruct (decide (x = a)) as [->|Hxa]; simpl;
      rewrite ?elem_of_app, ?list_elem_of_singleton; naive_solver.
Qed.

Lemma add_edge_keeps_symmetry graph a b graph' :
  symmetric graph → add_edge graph a b = Ok graph' → symmetric graph'.
Proof.
  intros Hsym Hadd x y.
  rewrite !(add_edge_edges _ _ _ _ _ _ Hadd). specialize (Hsym x y).
  naive_solver.
Qed.

(** X7.  In a graph put together with [graph_create], [node_create] on
    empty slots and [add_edge], the neighbour relation is symmetric:
    whenever [b] is in the list of [a], [a] is in the list of [b]. *)
Theorem assembled_symmetric graph :
  assembled graph → symmetric graph.
Proof.
  induction 1 as [n|g i name lat lon g' _ IH Hempty Hnode|g a b g' _ IH Hedge].
  - intros a b (nd & Hnd & _). by rewrite node_at_graph_create in Hnd.
  - intros x y. rewrite !(node_create_edges _ _ _ _ _ _ _ _ Hnode).
    intros [Hx Hxy]. split; [|by apply IH].
    intros ->. apply IH in Hxy as (nd & Hnd & _). congruence.
  - by eapply add_edge_keeps_symmetry.
Qed.

Lemma create_nodes_assembled coords graph i graph' :
  assembled graph → (∀ j, i ≤ j → node_at graph j = None) →
  create_nodes graph i coords = Ok graph' → assembled graph'.
Proof.
  revert graph i. induction coords as [|[lat lon] coords IH];
    intros graph i Hg Hempty; simpl.
  - by intros [= <-].
  - intros (g1 & Hnode & Hrest)%obind_Ok.
    eapply (IH g1 (S i)); [| |done].
    + eapply assembled_node; [done| |done]. by apply Hempty.
    + intros j Hj. apply node_create_Ok in Hnode as [Hi ->].
      rewrite node_at_set_node by done. rewrite decide_False by lia.
      apply Hempty. lia.
Qed.

Lemma add_edges_assembled edges graph graph' :
  assembled graph → add_edges graph edges = Ok graph' → assembled graph'.
Proof.
  revert graph. induction edges as [|[a b] edges IH]; intros graph Hg; simpl.
  - by intros [= <-].
  - intros (g1 & Hedge & Hrest)%obind_Ok.
    eapply IH; [|done]. by eapply assembled_edge.
Qed.

Lemma build_assembled coords edges graph :
  build coords edges = Ok graph → assembled graph.
Proof.
  intros (g1 & Hnodes & Hedges)%obind_Ok.
  eapply add_edges_assembled; [|done].
  eapply create_nodes_assembled; [| |done]; [constructor|].
  intros j _. apply node_at_graph_create.
Qed.

Lemma assembled_symmetric_witness :
  assembled square ∧ symmetric square.
Proof.
  assert (assembled square) as Hsq.
  { apply (build_assembled square_coords square_edges). by vm_compute. }
  split; [done|]. exact (assembled_symmetric square Hsq).
Defined.

Lemma constructed_well_formed_witness :
  constructed square ∧ well_formed square ∧ fresh square.
Proof.
  assert (constructed square) as Hsq.
  { apply (build_constructed square_coords square_edges). by vm_compute. }
  split; [done|]. exact (constructed_well_formed square Hsq).
Defined.

(** ** Binary64 signs *)

Module FloatSigns.

Section rounding.
Variables prec emax : Z.

Lemma shr_1_nonneg mrs : (0 ≤ shr_m mrs)%Z → (0 ≤ shr_m (shr_1 mrs))%Z.
Proof. destruct mrs as [[|[p|p|]|p] r s]; simpl; lia. Qed.

Lemma iter_shr_1_nonneg p mrs :
  (0 ≤ shr_m mrs)%Z → (0 ≤ shr_m (SpecFloat.iter_pos shr_1 p mrs))%Z.
Proof.
  revert mrs. induction p as [p IH|p IH|]; intros mrs Hm; simpl.
  - by apply IH, IH, shr_1_nonneg.
  - by apply IH, IH.
  - by apply shr_1_nonneg.
Qed.

Lemma shr_fexp_nonneg m e l :
  (0 ≤ m)%Z → (0 ≤ shr_m (shr_fexp prec emax m e l).1)%Z.
Proof.
  intros Hm. unfold shr_fexp, shr.
  assert (0 ≤ shr_m (shr_record_of_loc m l))%Z as Hrec.
  { by destruct l as [|[]]. }
  destruct (_ - _)%Z; simpl; [done| |done].
  by apply iter_shr_1_nonneg.
Qed.

Lemma round_nearest_even_nonneg m l :
  (0 ≤ m)%Z → (0 ≤ round_nearest_even m l)%Z.
Proof.
  intros Hm. destruct l as [|[]]; simpl; try lia.
  destruct (Z.even m); lia.
Qed.

(** Rounding a magnitude gives a zero, a finite number or an infinity, of
    the sign asked for. *)
Lemma binary_round_aux_sign sx m e l :
  (0 ≤ m)%Z →
  ∃ y, binary_round_aux prec emax false m e l = y ∧ SFnonneg y = true ∧
       binary_round_aux prec emax sx m e l = (if sx then SFopp y else y).
Proof.
  intros Hm. unfold binary_round_aux.
  pose proof (shr_fexp_nonneg m e l Hm) as H1.
  destruct (shr_fexp prec emax m e l) as [mrs' e']. simpl in H1.
  pose proof (shr_fexp_nonneg _ e' loc_Exact
                (round_nearest_even_nonneg _ (loc_of_shr_record mrs') H1)) as H2.
  destruct (shr_fexp prec emax _ e' loc_Exact) as [mrs'' e'']. simpl in H2.
  destruct (shr_m mrs'') as [|p|p]; [| |lia].
  - eexists. split; [done|]. split; [done|]. by destruct sx.
  - destruct (e'' <=? emax - prec)%Z;
      (eexists; split; [done|]; split; [done|]; by destruct sx).
Qed.

Lemma binary_round_sign sx m e :
  ∃ y, binary_round prec emax false m e = y ∧ SFnonneg y = true ∧
       binary_round prec emax sx m e = (if sx then SFopp y else y).
Proof.
  unfold binary_round. destruct (shl_align _ _ _) as [mz ez].
  by apply binary_round_aux_sign.
Qed.

Lemma binary_normalize_number m e :
  SFnumber (binary_normalize prec emax m e false) = true.
Proof.
  destruct m as [|p|p]; simpl; [done|..].
  - destruct (binary_round_sign false p e) as (y & -> & Hy & _).
    by destruct y as [[]|[]| |[]].
  - destruct (binary_round_sign true p e) as (y & _ & Hy & ->).
    by destruct y as [[]|[]| |[]].
Qed.

Lemma binary_normalize_pos p e :
  SFnonneg (binary_normalize prec emax (Zpos p) e false) = true.
Proof.
  simpl. by destruct (binary_round_sign false p e) as (y & -> & Hy & _).
Qed.

Lemma binary_normalize_opp m e :
  SFsame_abs (binary_normalize prec emax (- m) e false)
    (binary_normalize prec emax m e false).
Proof.
  destruct m as [|p|p]; simpl.
  - by left.
  - right.
    destruct (binary_round_sign true p e) as (y & -> & _ & ->). done.
  - right.
    destruct (binary_round_sign true p e) as (y & -> & _ & ->).
    by destruct y as [[]|[]| |[]].
Qed.

(** [x - y] and [y - x] have the same magnitude. *)
Lemma SFsub_swap x y :
  SFsame_abs (SFsub prec emax x y) (SFsub prec emax y x).
Proof.
  destruct x as [[]|[]| |sx mx ex], y as [[]|[]| |sy my ey];
    try (by left); try (by right).
  - right. simpl. by destruct sx.
  - right. simpl. by destruct sx.
  - unfold SFsub. rewrite (Z.min_comm ey ex).
    set (a := cond_Zopp sx _). set (b := cond_Zopp sy _).
    replace (a - b)%Z with (- (b - a))%Z by lia.
    apply binary_normalize_opp.
Qed.

Lemma SFmul_same_abs x y :
  SFsame_abs x y → SFmul prec emax x x = SFmul prec emax y y.
Proof.
  intros [->| ->]; [done|].
  destruct y as [[]|[]| |[] m e]; done.
Qed.

Lemma SFsub_number x y :
  SFnumber x = true → SFnumber y = true →
  (∀ s, x ≠ S754_infinity s) ∨ (∀ s, y ≠ S754_infinity s) →
  SFnumber (SFsub prec emax x y) = true.
Proof.
  destruct x as [[]|[]| |sx mx ex], y as [[]|[]| |sy my ey]; try done;
    try (intros _ _ [Hinf|Hinf]; by edestruct Hinf).
  intros _ _ _. apply binary_normalize_number.
Qed.

Lemma SFmul_square_nonneg x :
  SFnumber x = true → SFnonneg (SFmul prec emax x x) = true.
Proof.
  destruct x as [[]|[]| |sx m e]; try done. intros _. simpl.
  destruct (binary_round_aux_sign false (Z.pos (m * m)) (e + e) loc_Exact)
    as (y & Hy & Hnn & _); [lia|].
  replace (xorb sx sx) with false by by destruct sx.
  by rewrite Hy.
Qed.

Lemma SFadd_nonneg x y :
  SFnonneg x = true → SFnonneg y = true →
  SFnonneg (SFadd prec emax x y) = true.
Proof.
  destruct x as [[]|[]| |[] mx ex], y as [[]|[]| |[] my ey]; try done.
  intros _ _. unfold SFadd. simpl.
  destruct (shl_align mx ex _) as [a ?], (shl_align my ey _) as [b ?].
  simpl. apply (binary_normalize_pos (a + b)).
Qed.

Lemma SFsqrt_nonneg x :
  SFnonneg x = true → SFnonneg (SFsqrt prec emax x) = true.
Proof.
  destruct x as [[]|[]| |[] m e]; try done. intros _. simpl.
  destruct (SFsqrt_core_binary prec emax (Z.pos m) e) as [[mz ez] lz] eqn:Hcore.
  destruct (binary_round_aux_sign false mz ez lz) as (y & -> & Hy & _);
    [|done].
  unfold SFsqrt_core_binary in Hcore.
  destruct (Z.sqrtrem _) as [q r] eqn:Hq. injection Hcore as <- _ _.
  change q with (q, r).1. rewrite <- Hq, Z.sqrtrem_sqrt.
  apply Z.sqrt_nonneg.
Qed.

(** A square root is never less than zero. *)
Lemma SFsqrt_not_neg x : SFltb (SFsqrt prec emax x) (S754_zero false) = false.
Proof.
  destruct x as [[]|[]| |[] m e]; try done. simpl.
  destruct (SFsqrt_core_binary prec emax (Z.pos m) e) as [[mz ez] lz].
  unfold binary_round_aux.
  destruct (shr_fexp _ _ _ _ _) as [mrs' e'].
  destruct (shr_fexp _ _ _ _ _) as [mrs'' e''].
  destruct (shr_m mrs''); [done| |done].
  by destruct (_ <=? _)%Z.
Qed.

End rounding.

Lemma nonneg_leb x : nonneg x = true → (0 <=? x)%float = true.
Proof.
  unfold nonneg. rewrite leb_spec.
  change (Prim2SF 0) with (S754_zero false).
  by destruct (Prim2SF x) as [[]|[]| |[] m e].
Qed.

Lemma nonneg_not_nan x : nonneg x = true → is_nan x = false.
Proof.
  unfold nonneg. rewrite FloatFacts.is_nan_SF.
  by destruct (Prim2SF x) as [[]|[]| |[] m e].
Qed.

Lemma nonneg_pos x :
  nonneg x = true → (x =? 0)%float = false → (0 <? x)%float = true.
Proof.
  unfold nonneg. rewrite FloatAxioms.eqb_spec, ltb_spec.
  change (Prim2SF 0) with (S754_zero false).
  by destruct (Prim2SF x) as [[]|[]| |[] m e].
Qed.

Lemma nonneg_add x y :
  nonneg x = true → nonneg y = true → nonneg (x + y)%float = true.
Proof. unfold nonneg. rewrite add_spec. apply SFadd_nonneg. Qed.

Lemma is_finite_number x :
  is_finite x = true →
  SFnumber (Prim2SF x) = true ∧ ∀ s, Prim2SF x ≠ S754_infinity s.
Proof.
  intros [[s ->]|(s & m & e & ->)]%FloatFacts.is_finite_SF; by split.
Qed.

Lemma pow2_sub_swap x y : pow2 (x - y) = pow2 (y - x).
Proof.
  unfold pow2. apply Prim2SF_inj. rewrite !mul_spec, !sub_spec.
  apply SFmul_same_abs, SFsub_swap.
Qed.

Lemma pow2_sub_nonneg x y :
  is_finite x = true → is_finite y = true → nonneg (pow2 (x - y)) = true.
Proof.
  intros [Hx Hxi]%is_finite_number [Hy Hyi]%is_finite_number.
  unfold nonneg, pow2. rewrite mul_spec, sub_spec.
  apply SFmul_square_nonneg, SFsub_number; by auto.
Qed.

End FloatSigns.

(** ** Distances *)

Lemma node_distance_comm n1 n2 : node_distance n1 n2 = node_distance n2 n1.
Proof.
  unfold node_distance.
  by rewrite (FloatSigns.pow2_sub_swap (longitude n1)),
    (FloatSigns.pow2_sub_swap (latitude n1)).
Qed.

Lemma node_distance_nonneg n1 n2 :
  is_finite (latitude n1) = true → is_finite (longitude n1) = true →
  is_finite (latitude n2) = true → is_finite (longitude n2) = true →
  nonneg (node_distance n1 n2) = true.
Proof.
  intros Hlat1 Hlon1 Hlat2 Hlon2. unfold node_distance, nonneg.
  rewrite sqrt_spec. apply FloatSigns.SFsqrt_nonneg.
  rewrite add_spec. apply FloatSigns.SFadd_nonneg;
    by apply FloatSigns.pow2_sub_nonneg.
Qed.

Lemma node_distance_not_neg n1 n2 : (node_distance n1 n2 <? 0)%float = false.
Proof.
  unfold node_distance. rewrite ltb_spec, sqrt_spec.
  apply FloatSigns.SFsqrt_not_neg.
Qed.

(** X9.  The distance does not depend on the order of the two nodes:
    [calculate_distance graph a b] and [calculate_distance graph b a]
    return the same binary64 value, or are both undefined. *)
Theorem calculate_distance_symmetric graph a b :
  calculate_distance graph a b = calculate_distance graph b a.
Proof.
  unfold calculate_distance, get_node.
  destruct (node_at graph a) as [na|], (node_at graph b) as [nb|];
    simpl; try done.
  f_equal. apply node_distance_comm.
Qed.

(** X10.  A distance that [calculate_distance] returns is never less than
    zero; when the coordinates of both nodes are finite it is not a NaN
    either, so it is a number that is at least zero (possibly
    [+infinity], when the squares overflow). *)
Theorem calculate_distance_sign graph a b d :
  calculate_distance graph a b = Ok d →
  (d <? 0)%float = false ∧
  (finite_coords graph a → finite_coords graph b →
   is_nan d = false ∧ (0 <=? d)%float = true).
Proof.
  unfold calculate_distance, get_node.
  destruct (node_at graph a) as [na|] eqn:Ha; [|done].
  destruct (node_at graph b) as [nb|] eqn:Hb; [|done]. simpl.
  intros [= <-]. split; [apply node_distance_not_neg|].
  intros (na' & Ha' & Hlat1 & Hlon1) (nb' & Hb' & Hlat2 & Hlon2).
  simplify_eq.
  pose proof (node_distance_nonneg _ _ Hlat1 Hlon1 Hlat2 Hlon2) as Hnn.
  split; [by apply FloatSigns.nonneg_not_nan | by apply FloatSigns.nonneg_leb].
Qed.

Lemma calculate_distance_sign_witness :
  calculate_distance segment 0 1 = Ok 5%float ∧
  finite_coords segment 0 ∧ finite_coords segment 1 ∧
  (5 <? 0)%float = false ∧ is_nan 5 = false ∧ (0 <=? 5)%float = true.
Proof.
  assert (calculate_distance segment 0 1 = Ok 5%float) as Hd by by vm_compute.
  assert (finite_coords segment 0) as H0.
  { eexists. split; [by vm_compute | by split]. }
  assert (finite_coords segment 1) as H1.
  { eexists. split; [by vm_compute | by split]. }
  do 3 (split; [done|]).
  destruct (calculate_distance_sign segment 0 1 5 Hd) as [Hneg Hfin].
  split; [exact Hneg | exact (Hfin H0 H1)].
Defined.

(** ** Walks *)

Lemma walk_app graph a p b q c :
  walk graph a p b → walk graph b q c → walk graph a (p ++ q) c.
Proof.
  revert a. induction p as [|x p IH]; intros a; simpl.
  - by intros ->.
  - intros [Hax Hp] Hq. split; [done|]. by apply IH.
Qed.

Lemma walk_snoc graph a p b c :
  walk graph a p b → edge graph b c → walk graph a (p ++ [c]) c.
Proof. intros Hp Hbc. eapply walk_app; [done|]. by split. Qed.

Lemma walk_nodes graph a p b j :
  walk graph a p b → j ∈ a :: p → j ∈ removelast (a :: p) ∨ j = b.
Proof.
  revert a. induction p as [|x p IH]; intros a.
  - simpl. intros -> Hj%list_elem_of_singleton. by right.
  - intros [_ Hp] [->|Hj]%elem_of_cons.
    + left. simpl. by left.
    + destruct (IH x Hp Hj) as [Hj'|Hj']; [|by right].
      left. change (j ∈ a :: removelast (x :: p)). by right.
Qed.

Lemma cost_from_snoc graph acc a p b c nb nc :
  walk graph a p b →
  node_at graph b = Some nb → node_at graph c = Some nc →
  ∀ v, cost_from graph acc a p = Ok v →
  cost_from graph acc a (p ++ [c]) = Ok (v + node_distance nb nc)%float.
Proof.
  intros Hp Hb Hc. revert acc a Hp.
  induction p as [|x p IH]; intros acc a; simpl.
  - intros -> v [= <-]. by rewrite (calculate_distance_eq _ _ _ _ _ Hb Hc).
  - intros [_ Hp] v (d & Hd & Hv)%obind_Ok. rewrite Hd. simpl.
    by apply IH.
Qed.

Lemma parent_chain_ext g g' a p :
  (∀ b, b ∈ p → (parent <$> node_at g' b) = (parent <$> node_at g b)) →
  parent_chain g a p → parent_chain g' a p.
Proof.
  revert a. induction p as [|x p IH]; intros a Hext; simpl; [done|].
  intros [Hx Hp]. split.
  - rewrite Hext; [done | by left].
  - apply IH; [|done]. intros b Hb. apply Hext. by right.
Qed.

Lemma parent_chain_snoc g0 g a p b c :
  walk g0 a p b → parent_chain g a p →
  (parent <$> node_at g c) = Some (Some b) →
  parent_chain g a (p ++ [c]).
Proof.
  revert a. induction p as [|x p IH]; intros a; simpl.
  - by intros ->.
  - intros [_ Hp] [Hx Hchain] Hc. split; [done|]. by apply IH.
Qed.

(** ** What a relaxation writes *)

Lemma relax_graph {Q : Type} `{QueueLaws Q} e curr n (st st' : search Q) :
  relax e curr st n = Ok st' →
  ∃ ndn ndc nde nd',
    node_at (s_graph st) n = Some ndn ∧
    node_at (s_graph st) curr = Some ndc ∧
    node_at (s_graph st) e = Some nde ∧
    s_graph st' = set_node (s_graph st) n nd' ∧
    closed_set st' = closed_set st ∧
    node_static nd' = node_static ndn ∧
    (nd' = with_h_cost ndn (node_distance ndn nde) ∧
     open_set st' = open_set st
     ∨ nd' = relaxed ndn (g_cost ndc + node_distance ndc ndn)%float
               (node_distance ndn nde) curr ∧
       (n ∉ closed_set st) ∧
       (∀ i, i ∈ queue_ids (open_set st') ↔
             i ∈ queue_ids (open_set st) ∨ i = n)).
Proof.
  intros Hrelax.
  destruct (relax_Ok_nodes _ _ _ _ _ Hrelax)
    as (ndn & ndc & nde & Hndn & Hndc & Hnde).
  rewrite (relax_eq _ _ _ _ _ _ _ Hndn Hndc Hnde) in Hrelax.
  simpl in Hrelax. exists ndn, ndc, nde.
  destruct (_ || _) eqn:Hskip; injection Hrelax as <-; simpl;
    eexists; (do 4 (split; [done|])); (split; [done|]); (split; [done|]).
  - by left.
  - right. apply orb_false_iff in Hskip as [_ Hclosed].
    apply bool_decide_eq_false in Hclosed.
    split; [done|]. split; [done|]. intros i.
    destruct (queue_query (open_set st) n) eqn:Hq.
    + rewrite queue_ids_change_priority.
      apply queue_query_spec in Hq. naive_solver.
    + rewrite queue_ids_add. set_solver.
Qed.

(** [seen] before and after an extraction and a [set_add]. *)
Lemma seen_remove {Q : Type} `{QueueLaws Q} (st : search Q) curr q' i :
  queue_remove (open_set st) = Some (curr, q') →
  seen {[curr]} (with_open st q') i → seen ∅ st i.
Proof.
  intros Hrem%queue_ids_remove [Hi|[Hi|Hi]].
  - left. rewrite Hrem. by right.
  - by right; left.
  - left. rewrite Hrem. apply elem_of_singleton in Hi as ->. by left.
Qed.

Lemma seen_close {Q : Type} `{Queue Q} (st : search Q) curr i :
  seen ∅ (with_closed st (set_add (closed_set st) curr)) i →
  seen {[curr]} st i.
Proof.
  intros [Hi|[Hi|Hi]]; [by left| |set_solver].
  unfold set_add in Hi. simpl in Hi.
  apply elem_of_union in Hi as [Hi|Hi]; [by right; right | by right; left].
Qed.

(** ** The further invariants are kept *)

Section more_search_facts.
Context {Q : Type} `{QueueLaws Q}.
Variables (g0 : graph_t) (s e : nat).
Hypothesis Hwf : well_formed g0.
Hypothesis Hs : valid_node g0 s.
Hypothesis He : valid_node g0 e.

Lemma untouched_run :
  ∃ r : run Q,
    a_star_run g0 s e = Ok r ∧
    ended g0 s e (λ _, untouched g0 s) r.
Proof.
  destruct (a_star_run_inv g0 s e Hwf Hs He (λ _, untouched g0 s))
    as (r & Hr & Hended & _); [done| | done | | by exists r].
  - intros st curr n st' Hinv [Hstatic Hun] Hedge Hrelax.
    destruct (relax_graph _ _ _ _ _ Hrelax)
      as (ndn & ndc & nde & nd' & Hndn & _ & _ & Hg & _ & Hst & _).
    pose proof (node_at_lt _ _ _ Hndn) as Hlt.
    unfold untouched. rewrite Hg.
    split; intros i; rewrite node_at_set_node by done; case_decide as Hi.
    + subst i. rewrite <- Hstatic, Hndn. simpl. by rewrite Hst.
    + apply Hstatic.
    + intros Hunreach. destruct Hunreach. subst i.
      eapply reachable_edge; [|done].
      apply (inv_reach _ _ _ _ _ Hinv). right; right. set_solver.
    + apply Hun.
  - intros st0 Hinit. destruct Hs as [s0 Hs0]. destruct He as [e0 He0].
    pose proof (node_at_lt _ _ _ Hs0) as Hlt.
    rewrite (a_star_init_eq g0 s e s0 e0 Hs0 He0) in Hinit.
    injection Hinit as <-. unfold untouched. simpl.
    split; intros i; rewrite node_at_set_node by done; case_decide as Hi.
    + subst i. by rewrite Hs0.
    + done.
    + intros Hunreach. destruct Hunreach. subst i. apply rtc_refl.
    + done.
Qed.

Lemma costs_of_walks_run s0 :
  node_at g0 s = Some s0 →
  ∃ r : run Q,
    a_star_run g0 s e = Ok r ∧
    ended g0 s e (costs_of_walks g0 s (g_cost s0)) r.
Proof.
  intros Hs0.
  destruct (a_star_run_inv g0 s e Hwf Hs He (costs_of_walks g0 s (g_cost s0)))
    as (r & Hr & Hended & _); [| | | | by exists r].
  - intros st curr q' _ HI Hrem _ i nd Hseen. apply HI.
    by eapply seen_remove.
  - intros st curr n st' Hinv HI Hedge Hrelax.
    destruct (relax_graph _ _ _ _ _ Hrelax)
      as (ndn & ndc & nde & nd' & Hndn & Hndc & _ & Hg & Hc & _ & Hcase).
    pose proof (node_at_lt _ _ _ Hndn) as Hlt.
    intros i nd Hseen. rewrite Hg, node_at_set_node by done.
    case_decide as Hi.
    + subst i. intros [= <-].
      destruct Hcase as [[-> Hopen]|(-> & Hclosed & Hopen)]; simpl.
      * apply (HI n); [|done]. unfold seen in *. by rewrite <- Hopen, <- Hc.
      * destruct (HI curr ndc) as (p & Hp & Hcost); [|done|].
        { right; right. set_solver. }
        destruct (same_shape_node_rev _ _ _ _ (inv_shape _ _ _ _ _ Hinv) Hndc)
          as (c0 & Hc0 & Hshc).
        destruct (same_shape_node_rev _ _ _ _ (inv_shape _ _ _ _ _ Hinv) Hndn)
          as (n0 & Hn0 & Hshn).
        exists (p ++ [n]). split; [by eapply walk_snoc|].
        rewrite (node_distance_shape _ _ _ _ Hshc Hshn).
        by eapply cost_from_snoc.
    + intros Hnd. apply (HI i); [|done].
      destruct Hcase as [[_ Hopen]|(_ & _ & Hopen)]; unfold seen in *.
      * by rewrite <- Hopen, <- Hc.
      * rewrite Hc in Hseen.
        destruct Hseen as [[Hseen|Hseen]%Hopen|Hseen];
          [by left | done | by right].
  - intros st curr _ HI i nd Hseen. apply HI. by apply seen_close.
  - intros st0 Hinit. destruct He as [e0 He0].
    pose proof (node_at_lt _ _ _ Hs0) as Hlt.
    rewrite (a_star_init_eq g0 s e s0 e0 Hs0 He0) in Hinit.
    injection Hinit as <-. intros i nd Hseen. simpl.
    assert (i = s) as ->.
    { destruct Hseen as [Hi|[Hi|Hi]]; [|set_solver..]. simpl in Hi.
      rewrite queue_ids_add, queue_ids_create in Hi.
      by apply list_elem_of_singleton in Hi. }
    rewrite node_at_set_node by done. rewrite decide_True by done.
    intros [= <-]. by exists [].
Qed.

Lemma parents_lead_back_run :
  no_self_loop g0 → fresh g0 →
  ∃ r : run Q,
    a_star_run g0 s e = Ok r ∧
    ended g0 s e (parents_lead_back g0 s) r.
Proof.
  intros Hno Hfresh.
  destruct (a_star_run_inv g0 s e Hwf Hs He (parents_lead_back g0 s))
    as (r & Hr & Hended & _); [| | | | by exists r].
  - intros st curr q' Hinv (Hstart & Hpar & HI) Hrem _.
    split; [|split; [done|]].
    + left. simpl. destruct Hstart as [Hstart|(_ & _ & Hopen)]; [set_solver|].
      assert (curr = s) as ->; [|set_solver].
      apply Hopen. rewrite (queue_ids_remove _ _ _ Hrem). by left.
    + intros i nd Hseen Hnd.
      destruct (HI i nd) as (p & Hp & Hchain & Hcost & Hin);
        [by eapply seen_remove | done |].
      exists p. do 3 (split; [done|]). intros j Hj. simpl.
      specialize (Hin j Hj). set_solver.
  - intros st curr n st' Hinv (Hstart & Hpar & HI) Hedge Hrelax.
    assert (n ≠ curr) as Hncurr.
    { destruct Hedge as (nc & Hnc & Hn). intros ->. by apply (Hno _ _ Hnc). }
    destruct Hstart as [Hstart|(_ & Hpend & _)]; [|set_solver].
    destruct (relax_graph _ _ _ _ _ Hrelax)
      as (ndn & ndc & nde & nd' & Hndn & Hndc & _ & Hg & Hc & _ & Hcase).
    pose proof (node_at_lt _ _ _ Hndn) as Hlt.
    unfold parents_lead_back. rewrite Hg, Hc.
    split; [by left|].
    destruct Hcase as [[-> Hopen]|(-> & Hclosed & Hopen)].
    + (* skipped: only the heuristic is written *)
      assert (∀ b, (parent <$> node_at
                      (set_node (s_graph st) n
                         (with_h_cost ndn (node_distance ndn nde))) b)
                   = (parent <$> node_at (s_graph st) b)) as Hsame.
      { intros b. rewrite node_at_set_node by done. case_decide; [|done].
        subst b. by rewrite Hndn. }
      split; [by rewrite Hsame|].
      intros i nd Hseen Hnd.
      assert (∃ nd0, node_at (s_graph st) i = Some nd0 ∧
                     g_cost nd0 = g_cost nd) as (nd0 & Hnd0 & Hgc).
      { rewrite node_at_set_node in Hnd by done. case_decide.
        - subst i. injection Hnd as <-. by exists ndn.
        - by exists nd. }
      destruct (HI i nd0) as (p & Hp & Hchain & Hcost & Hin); [|done|].
      { unfold seen in *. by rewrite <- Hopen, <- Hc. }
      exists p. split; [done|]. split.
      { eapply parent_chain_ext; [|done]. intros b _. apply Hsame. }
      by rewrite <- Hgc.
    + (* relaxed: the neighbour is neither closed nor being expanded *)
      assert (n ∉ closed_set st ∪ {[curr]}) as HnC by set_solver.
      assert (n ≠ s) as Hns by (by intros ->).
      split.
      { rewrite node_at_set_node by done. by rewrite decide_False. }
      intros i nd Hseen. rewrite node_at_set_node by done.
      case_decide as Hi.
      * subst i. intros [= <-]. simpl.
        destruct (HI curr ndc) as (p & Hp & Hchain & Hcost & Hin); [|done|].
        { right; right. set_solver. }
        destruct (same_shape_node_rev _ _ _ _ (inv_shape _ _ _ _ _ Hinv) Hndc)
          as (c0 & Hc0 & Hshc).
        destruct (same_shape_node_rev _ _ _ _ (inv_shape _ _ _ _ _ Hinv) Hndn)
          as (n0 & Hn0 & Hshn).
        assert (∀ j, j ∈ s :: p → j ∈ closed_set st ∪ {[curr]}) as HinC.
        { intros j Hj. destruct (walk_nodes _ _ _ _ _ Hp Hj) as [Hj'| ->];
            [by apply Hin | set_solver]. }
        exists (p ++ [n]). split; [by eapply walk_snoc|]. split; [|split].
        -- eapply parent_chain_snoc; [done| |].
           ++ eapply parent_chain_ext; [|done]. intros b Hb.
              rewrite node_at_set_node by done. rewrite decide_False; [done|].
              intros ->. apply HnC, HinC. by right.
           ++ rewrite node_at_set_node by done. by rewrite decide_True.
        -- rewrite (node_distance_shape _ _ _ _ Hshc Hshn).
           by eapply cost_from_snoc.
        -- intros j Hj. apply HinC.
           change (j ∈ removelast ((s :: p) ++ [n])) in Hj.
           by rewrite removelast_last in Hj.
      * intros Hnd.
        destruct (HI i nd) as (p & Hp & Hchain & Hcost & Hin); [|done|].
        { unfold seen in *. rewrite Hc in Hseen.
          destruct Hseen as [[Hseen|Hseen]%Hopen|Hseen];
            [by left | done | by right]. }
        exists p. split; [done|]. split; [|done].
        eapply parent_chain_ext; [|done]. intros b Hb.
        rewrite node_at_set_node by done. rewrite decide_False; [done|].
        intros ->.
        destruct (walk_nodes _ _ _ _ n Hp) as [Hj'|Hj']; [by right| |done].
        by apply HnC, Hin.
  - intros st curr _ (Hstart & Hpar & HI).
    split; [|split; [done|]].
    + left. unfold set_add. simpl.
      destruct Hstart as [Hstart|(_ & Hpend & _)]; set_solver.
    + intros i nd Hseen Hnd.
      destruct (HI i nd) as (p & Hp & Hchain & Hcost & Hin);
        [by apply seen_close | done |].
      exists p. do 3 (split; [done|]). intros j Hj.
      unfold set_add. simpl. specialize (Hin j Hj). set_solver.
  - intros st0 Hinit. destruct Hs as [s0 Hs0]. destruct He as [e0 He0].
    pose proof (node_at_lt _ _ _ Hs0) as Hlt.
    destruct (all_nodes_at _ _ _ _ Hfresh Hs0) as (Hg0 & _ & _ & Hp0).
    rewrite (a_star_init_eq g0 s e s0 e0 Hs0 He0) in Hinit.
    injection Hinit as <-. unfold parents_lead_back. simpl.
    assert (∀ i, i ∈ queue_ids (queue_add (queue_create (Q := Q)) s
                                  (g_cost s0 + node_distance s0 e0)%float)
                 → i = s) as Hopen.
    { intros i. rewrite queue_ids_add, queue_ids_create.
      apply list_elem_of_singleton. }
    split; [by right|]. split.
    + rewrite node_at_set_node by done. rewrite decide_True by done.
      simpl. by rewrite Hp0.
    + intros i nd Hseen.
      assert (i = s) as ->.
      { destruct Hseen as [Hi|[Hi|Hi]]; [by apply Hopen | set_solver..]. }
      rewrite node_at_set_node by done. rewrite decide_True by done.
      intros [= <-]. exists []. simpl. rewrite Hg0.
      do 3 (split; [done|]). by intros j ?%elem_of_nil.
Qed.

Lemma costs_nonneg_run :
  all_finite g0 → fresh g0 →
  ∃ r : run Q,
    a_star_run g0 s e = Ok r ∧ ended g0 s e costs_nonneg r.
Proof.
  intros Hfin Hfresh.
  destruct (a_star_run_inv g0 s e Hwf Hs He costs_nonneg)
    as (r & Hr & Hended & _); [| | | | by exists r].
  - intros st curr q' _ HI Hrem _ i nd Hseen. apply HI.
    by eapply seen_remove.
  - intros st curr n st' Hinv HI Hedge Hrelax.
    destruct (relax_graph _ _ _ _ _ Hrelax)
      as (ndn & ndc & nde & nd' & Hndn & Hndc & _ & Hg & Hc & _ & Hcase).
    pose proof (node_at_lt _ _ _ Hndn) as Hlt.
    intros i nd Hseen. rewrite Hg, node_at_set_node by done.
    case_decide as Hi.
    + subst i. intros [= <-].
      destruct Hcase as [[-> Hopen]|(-> & Hclosed & Hopen)]; simpl.
      * apply (HI n); [|done]. unfold seen in *. by rewrite <- Hopen, <- Hc.
      * destruct (same_shape_node_rev _ _ _ _ (inv_shape _ _ _ _ _ Hinv) Hndc)
          as (c0 & Hc0 & Hshc).
        destruct (same_shape_node_rev _ _ _ _ (inv_shape _ _ _ _ _ Hinv) Hndn)
          as (n0 & Hn0 & Hshn).
        destruct (all_nodes_at _ _ _ _ Hfin Hc0) as [Hlatc Hlonc].
        destruct (all_nodes_at _ _ _ _ Hfin Hn0) as [Hlatn Hlonn].
        apply FloatSigns.nonneg_add.
        -- apply (HI curr); [|done]. right; right. set_solver.
        -- rewrite (node_distance_shape _ _ _ _ Hshc Hshn).
           by apply node_distance_nonneg.
    + intros Hnd. apply (HI i); [|done].
      destruct Hcase as [[_ Hopen]|(_ & _ & Hopen)]; unfold seen in *.
      * by rewrite <- Hopen, <- Hc.
      * rewrite Hc in Hseen.
        destruct Hseen as [[Hseen|Hseen]%Hopen|Hseen];
          [by left | done | by right].
  - intros st curr _ HI i nd Hseen. apply HI. by apply seen_close.
  - intros st0 Hinit. destruct Hs as [s0 Hs0]. destruct He as [e0 He0].
    pose proof (node_at_lt _ _ _ Hs0) as Hlt.
    rewrite (a_star_init_eq g0 s e s0 e0 Hs0 He0) in Hinit.
    injection Hinit as <-. intros i nd Hseen. simpl.
    assert (i = s) as ->.
    { destruct Hseen as [Hi|[Hi|Hi]]; [|set_solver..]. simpl in Hi.
      rewrite queue_ids_add, queue_ids_create in Hi.
      by apply list_elem_of_singleton in Hi. }
    rewrite node_at_set_node by done. rewrite decide_True by done.
    intros [= <-]. simpl.
    by destruct (all_nodes_at _ _ _ _ Hfresh Hs0) as [-> _].
Qed.

End more_search_facts.

(** ** What a search needs, what it finds, what it leaves *)

(** X11.  When the start or the goal is not a created node, [a_star]
    dereferences a [NULL] or out-of-range slot in its first statement:
    it has no defined result, whatever the queue. *)
Theorem a_star_invalid_endpoint {Q : Type} `{Queue Q} g s e :
  ¬ (valid_node g s ∧ valid_node g e) → a_star (Q := Q) g s e = Fault.
Proof.
  intros Hnot.
  unfold a_star, a_star_run, a_star_init, set_h_cost, calculate_distance,
    get_node, valid_node in *.
  destruct (node_at g s) as [s0|]; [|done].
  destruct (node_at g e) as [e0|]; [|done].
  destruct Hnot. by eauto.
Qed.

Lemma a_star_invalid_endpoint_witness :
  ¬ (valid_node islands 0 ∧ valid_node islands 3) ∧
  a_star (Q := ListQueue.t) islands 0 3 = Fault.
Proof.
  assert (¬ (valid_node islands 0 ∧ valid_node islands 3)) as Hnot.
  { intros [_ [nd Hnd]]. vm_compute in Hnd. discriminate Hnd. }
  split; [done|].
  exact (a_star_invalid_endpoint (Q := ListQueue.t) islands 0 3 Hnot).
Defined.

Section more_results.
Context {Q : Type} `{QueueLaws Q}.

(** X12.  On a well-formed graph, between two created nodes, [a_star]
    returns a value, and its loop is left by the [break] at the goal
    exactly when the goal can be reached from the start; otherwise it is
    left with the open set empty. *)
Theorem a_star_finds_reachable_goal g s e :
  well_formed g → valid_node g s → valid_node g e →
  ∃ (r : run Q) v,
    a_star_run g s e = Ok r ∧ a_star g s e = Ok v ∧
    (r_exit r = FOUND ↔ reachable g s e).
Proof.
  intros Hwf Hs He.
  destruct (a_star_run_plain g s e Hwf Hs He) as (r & Hr & Hended & _).
  destruct He as [e0 He0].
  destruct (same_shape_node _ _ _ _ (ended_shape _ _ _ _ _ Hended) He0)
    as (nd & Hnd & _).
  exists r. eexists. split; [done|].
  split; [by apply (a_star_eq _ _ _ r)|].
  by eapply ended_found.
Qed.

(** X13.  A search writes cost fields and parents only: the node count,
    and the number, name, coordinates and neighbour list of every node
    are after the search what they were before, and a node that cannot
    be reached from the start is not written at all. *)
Theorem a_star_leaves_graph g s e :
  well_formed g → valid_node g s → valid_node g e →
  ∃ r : run Q,
    a_star_run g s e = Ok r ∧
    num_nodes (s_graph (r_final r)) = num_nodes g ∧
    length (nodes (s_graph (r_final r))) = length (nodes g) ∧
    (∀ i, node_static <$> node_at (s_graph (r_final r)) i
          = node_static <$> node_at g i) ∧
    (∀ i, ¬ reachable g s i → node_at (s_graph (r_final r)) i = node_at g i).
Proof.
  intros Hwf Hs He.
  destruct (untouched_run g s e Hwf Hs He) as (r & Hr & Hended).
  exists r. split; [done|].
  destruct (ended_shape _ _ _ _ _ Hended) as (Hnum & Hlen & _).
  destruct Hended as (st & _ & [Hstatic Hun] & Hg & _).
  rewrite Hg in *. by repeat split.
Qed.

(** X14.  The cost fields are not reset when a search starts.  When the
    goal cannot be reached from the start, [a_star] returns what its last
    statements compute from the cost fields the goal had before the call:
    [-1] only if its [g_cost] was [0], and otherwise the [f_cost] an
    earlier search left there. *)
Theorem a_star_unreachable_stale g s e :
  well_formed g → valid_node g s → valid_node g e →
  ¬ reachable g s e →
  a_star (Q := Q) g s e = a_star_result g e.
Proof.
  intros Hwf Hs He Hunreach.
  destruct (untouched_run g s e Hwf Hs He) as (r & Hr & Hended).
  destruct Hended as (st & _ & [_ Hun] & Hg & _).
  destruct He as [e0 He0].
  assert (node_at (s_graph (r_final r)) e = Some e0) as Hnd.
  { rewrite Hg, <- He0. by apply Hun. }
  rewrite (a_star_eq _ _ _ _ _ Hr Hnd). symmetry.
  by apply a_star_result_eq.
Qed.

(** X15.  On a well-formed graph with fresh costs and a goal with finite
    coordinates, the value [a_star] returns is either [-1] or the cost of
    a walk from the start to the goal along edges of the graph: the
    distances of its edges added up in binary64 in the order of the
    walk. *)
Theorem a_star_returns_walk_cost g s e :
  well_formed g → fresh g → valid_node g s → finite_coords g e →
  ∃ v,
    a_star (Q := Q) g s e = Ok v ∧
    (v = (-1)%float ∨
     ∃ path, walk g s path e ∧ cost_from g 0 s path = Ok v).
Proof.
  intros Hwf Hfresh Hs Hfin.
  assert (valid_node g e) as He.
  { destruct Hfin as (e0 & ? & _). by exists e0. }
  pose proof Hs as [s0 Hs0].
  destruct (costs_of_walks_run g s e Hwf Hs He s0 Hs0) as (r & Hr & Hended).
  rewrite (fresh_g_cost _ _ _ Hfresh Hs0) in Hended.
  pose proof He as [e0 He0].
  destruct (same_shape_node _ _ _ _ (ended_shape _ _ _ _ _ Hended) He0)
    as (nd & Hnd & _).
  eexists. split; [by apply (a_star_eq _ _ _ r)|].
  destruct (g_cost nd =? 0)%float eqn:Hzero; [by left|]. right.
  assert (r_exit r = FOUND) as Hexit.
  { destruct (r_exit r) eqn:Hexit; [done|]. exfalso.
    assert (¬ reachable g s e) as Hunreach.
    { intros Hreach%(ended_found _ _ _ _ _ Hended). congruence. }
    pose proof (ended_untouched _ _ _ _ r e Hended Hunreach) as Hg.
    rewrite He0, Hnd in Hg. injection Hg as Hg.
    rewrite Hg, (fresh_g_cost _ _ _ Hfresh He0) in Hzero. done. }
  destruct (found_costs _ _ _ _ _ Hwf Hs Hfin Hr Hexit Hnd) as [_ Hf].
  rewrite (FloatFacts.float_add_zero_r _ Hzero) in Hf. rewrite Hf.
  destruct Hended as (st & Hinv & HI & Hg & _ & Hopen).
  rewrite Hexit in Hopen. rewrite Hg in Hnd.
  apply (HI e); [by left | done].
Qed.

(** X16.  On a well-formed graph with fresh costs in which no node is its
    own neighbour, a search for a reachable goal leaves parents that lead
    from the goal back to the start: there is a walk from the start to
    the goal on which every node has the node before it for parent, the
    start has no parent, and the [g_cost] of the goal is the cost of that
    walk. *)
Theorem a_star_parents_lead_back g s e :
  well_formed g → fresh g → no_self_loop g →
  valid_node g s → reachable g s e →
  ∃ (r : run Q) nd path,
    a_star_run g s e = Ok r ∧ r_exit r = FOUND ∧
    node_at (s_graph (r_final r)) e = Some nd ∧
    walk g s path e ∧
    (parent <$> node_at (s_graph (r_final r)) s) = Some None ∧
    parent_chain (s_graph (r_final r)) s path ∧
    cost_from g 0 s path = Ok (g_cost nd).
Proof.
  intros Hwf Hfresh Hno Hs Hreach.
  assert (valid_node g e) as He by by eapply reachable_valid.
  destruct (parents_lead_back_run g s e Hwf Hs He Hno Hfresh)
    as (r & Hr & Hended).
  pose proof He as [e0 He0].
  destruct (same_shape_node _ _ _ _ (ended_shape _ _ _ _ _ Hended) He0)
    as (nd & Hnd & _).
  assert (r_exit r = FOUND) as Hexit by by apply (ended_found _ _ _ _ _ Hended).
  destruct Hended as (st & Hinv & (_ & Hpar & HI) & Hg & _ & Hopen).
  rewrite Hexit in Hopen. rewrite Hg in *.
  destruct (HI e nd) as (p & Hp & Hchain & Hcost & _); [by left | done |].
  exists r, nd, p. rewrite Hg. by do 6 (split; [done|]).
Qed.

(** X17.  On a well-formed graph with fresh costs and finite coordinates
    everywhere, the value [a_star] returns is [-1] or a number greater
    than zero: it is never [0], never a NaN and never another negative
    number. *)
Theorem a_star_sentinel_or_positive g s e :
  well_formed g → fresh g → all_finite g →
  valid_node g s → valid_node g e →
  ∃ v,
    a_star (Q := Q) g s e = Ok v ∧
    (v = (-1)%float ∨ (0 <? v)%float = true).
Proof.
  intros Hwf Hfresh Hfin Hs He.
  destruct (costs_nonneg_run g s e Hwf Hs He Hfin Hfresh) as (r & Hr & Hended).
  pose proof He as [e0 He0].
  destruct (same_shape_node _ _ _ _ (ended_shape _ _ _ _ _ Hended) He0)
    as (nd & Hnd & _).
  eexists. split; [by apply (a_star_eq _ _ _ r)|].
  destruct (g_cost nd =? 0)%float eqn:Hzero; [by left|]. right.
  assert (r_exit r = FOUND) as Hexit.
  { destruct (r_exit r) eqn:Hexit; [done|]. exfalso.
    assert (¬ reachable g s e) as Hunreach.
    { intros Hreach%(ended_found _ _ _ _ _ Hended). congruence. }
    pose proof (ended_untouched _ _ _ _ r e Hended Hunreach) as Hg.
    rewrite He0, Hnd in Hg. injection Hg as Hg.
    rewrite Hg, (fresh_g_cost _ _ _ Hfresh He0) in Hzero. done. }
  assert (finite_coords g e) as Hfe.
  { exists e0. split; [done|]. apply (all_nodes_at _ _ _ _ Hfin He0). }
  destruct (found_costs _ _ _ _ _ Hwf Hs Hfe Hr Hexit Hnd) as [_ Hf].
  rewrite (FloatFacts.float_add_zero_r _ Hzero) in Hf. rewrite Hf.
  apply FloatSigns.nonneg_pos; [|done].
  destruct Hended as (st & Hinv & HI & Hg & _ & Hopen).
  rewrite Hexit in Hopen. rewrite Hg in Hnd.
  apply (HI e); [by left | done].
Qed.

End more_results.

(** ** The further properties on the scenario graphs *)

Lemma square_valid i : i < 4 → valid_node square i.
Proof. intros Hi. destruct i as [|[|[|[|i]]]]; [by eexists..|lia]. Qed.

Lemma square_no_self_loop : no_self_loop square.
Proof.
  intros i nd Hnd. pose proof (node_at_lt _ _ _ Hnd) as Hlt.
  destruct i as [|[|[|[|i]]]]; [| | | |vm_compute in Hlt; lia];
    vm_compute in Hnd; injection Hnd as <-; simpl;
    rewrite !elem_of_cons, elem_of_nil; lia.
Qed.

Lemma square_all_finite : all_finite square.
Proof. apply (bool_decide_unpack _). by vm_compute. Qed.

Lemma a_star_finds_reachable_goal_witness :
  well_formed square ∧ valid_node square 0 ∧ valid_node square 2 ∧
  ∃ (r : run ListQueue.t) v,
    a_star_run square 0 2 = Ok r ∧ a_star square 0 2 = Ok v ∧
    (r_exit r = FOUND ↔ reachable square 0 2).
Proof.
  assert (valid_node square 0) as H0 by (apply square_valid; lia).
  assert (valid_node square 2) as H2 by (apply square_valid; lia).
  split; [exact square_well_formed|]. do 2 (split; [done|]).
  exact (a_star_finds_reachable_goal square 0 2 square_well_formed H0 H2).
Defined.

Lemma a_star_leaves_graph_witness :
  well_formed square ∧ valid_node square 0 ∧ valid_node square 2 ∧
  ∃ r : run ListQueue.t,
    a_star_run square 0 2 = Ok r ∧
    num_nodes (s_graph (r_final r)) = num_nodes square ∧
    length (nodes (s_graph (r_final r))) = length (nodes square) ∧
    (∀ i, node_static <$> node_at (s_graph (r_final r)) i
          = node_static <$> node_at square i) ∧
    (∀ i, ¬ reachable square 0 i →
          node_at (s_graph (r_final r)) i = node_at square i).
Proof.
  assert (valid_node square 0) as H0 by (apply square_valid; lia).
  assert (valid_node square 2) as H2 by (apply square_valid; lia).
  split; [exact square_well_formed|]. do 2 (split; [done|]).
  exact (a_star_leaves_graph square 0 2 square_well_formed H0 H2).
Defined.

Lemma searched_well_formed : well_formed searched.
Proof. apply (bool_decide_unpack _). by vm_compute. Qed.

Lemma searched_unreachable : ¬ reachable searched 2 1.
Proof.
  intros Hreach. apply rtc_inv in Hreach as [[=]|(c & Hedge & _)].
  destruct Hedge as (nd & Hnd & Hc). vm_compute in Hnd.
  injection Hnd as <-. by apply elem_of_nil in Hc.
Qed.

(** On [searched], node 1 carries the cost 5 of the earlier search; a
    search for it from node 2, from which it cannot be reached, returns
    that cost and not [-1]. *)
Lemma a_star_unreachable_stale_witness :
  well_formed searched ∧ valid_node searched 2 ∧ valid_node searched 1 ∧
  (¬ reachable searched 2 1) ∧
  a_star_result searched 1 = Ok 5%float ∧
  a_star (Q := ListQueue.t) searched 2 1 = a_star_result searched 1.
Proof.
  assert (valid_node searched 2) as H2 by (by eexists).
  assert (valid_node searched 1) as H1 by (by eexists).
  split; [exact searched_well_formed|]. do 2 (split; [done|]).
  split; [exact searched_unreachable|]. split; [by vm_compute|].
  exact (a_star_unreachable_stale searched 2 1 searched_well_formed H2 H1
           searched_unreachable).
Defined.

Lemma a_star_returns_walk_cost_witness :
  well_formed square ∧ fresh square ∧ valid_node square 0 ∧
  finite_coords square 2 ∧
  ∃ v,
    a_star (Q := ListQueue.t) square 0 2 = Ok v ∧
    (v = (-1)%float ∨
     ∃ path, walk square 0 path 2 ∧ cost_from square 0 0 path = Ok v).
Proof.
  assert (valid_node square 0) as H0 by (apply square_valid; lia).
  assert (finite_coords square 2) as H2 by (apply square_finite_coords; lia).
  split; [exact square_well_formed|]. split; [exact square_fresh|].
  do 2 (split; [done|]).
  exact (a_star_returns_walk_cost square 0 2 square_well_formed square_fresh
           H0 H2).
Defined.

Lemma a_star_parents_lead_back_witness :
  well_formed square ∧ fresh square ∧ no_self_loop square ∧
  valid_node square 0 ∧ reachable square 0 2 ∧
  ∃ (r : run ListQueue.t) nd path,
    a_star_run square 0 2 = Ok r ∧ r_exit r = FOUND ∧
    node_at (s_graph (r_final r)) 2 = Some nd ∧
    walk square 0 path 2 ∧
    (parent <$> node_at (s_graph (r_final r)) 0) = Some None ∧
    parent_chain (s_graph (r_final r)) 0 path ∧
    cost_from square 0 0 path = Ok (g_cost nd).
Proof.
  assert (valid_node square 0) as H0 by (apply square_valid; lia).
  split; [exact square_well_formed|]. split; [exact square_fresh|].
  split; [exact square_no_self_loop|]. split; [done|].
  split; [exact square_reachable|].
  exact (a_star_parents_lead_back square 0 2 square_well_formed square_fresh
           square_no_self_loop H0 square_reachable).
Defined.

Lemma a_star_sentinel_or_positive_witness :
  well_formed square ∧ fresh square ∧ all_finite square ∧
  valid_node square 0 ∧ valid_node square 2 ∧
  ∃ v,
    a_star (Q := ListQueue.t) square 0 2 = Ok v ∧
    (v = (-1)%float ∨ (0 <? v)%float = true).
Proof.
  assert (valid_node square 0) as H0 by (apply square_valid; lia).
  assert (valid_node square 2) as H2 by (apply square_valid; lia).
  split; [exact square_well_formed|]. split; [exact square_fresh|].
  split; [exact square_all_finite|]. do 2 (split; [done|]).
  exact (a_star_sentinel_or_positive square 0 2 square_well_formed
           square_fresh square_all_finite H0 H2).
Defined.

(** ** The order of extractions *)

Section order_facts.
Context {Q : Type} `{QueueLaws Q}.

Lemma a_star_init_Ok_nodes g s e (st0 : search Q) :
  a_star_init g s e = Ok st0 →
  ∃ s0 e0, node_at g s = Some s0 ∧ node_at g e = Some e0.
Proof.
  intros Hinit.
  destruct (node_at g s) as [s0|] eqn:Hs0; cycle 1.
  { unfold a_star_init, set_h_cost, calculate_distance, get_node in Hinit.
    by rewrite Hs0 in Hinit. }
  destruct (node_at g e) as [e0|] eqn:He0; [by eauto|].
  unfold a_star_init, set_h_cost, calculate_distance, get_node in Hinit.
  by rewrite Hs0, He0 in Hinit.
Qed.

Lemma priorities_ok_init g s e (st0 : search Q) :
  all_finite g → fresh g → a_star_init g s e = Ok st0 →
  priorities_ok g (AtHead, st0).
Proof.
  intros Hfin Hfresh Hinit.
  destruct (a_star_init_Ok_nodes _ _ _ _ Hinit) as (s0 & e0 & Hs0 & He0).
  pose proof (node_at_lt _ _ _ Hs0) as Hlt.
  rewrite (a_star_init_eq g s e s0 e0 Hs0 He0) in Hinit.
  injection Hinit as <-.
  destruct (all_nodes_at _ _ _ _ Hfin Hs0) as [Hlats Hlons].
  destruct (all_nodes_at _ _ _ _ Hfin He0) as [Hlate Hlone].
  pose proof (fresh_g_cost _ _ _ Hfresh Hs0) as Hg0.
  split; [|split; [|done]]; simpl.
  - intros i. rewrite node_at_set_node by done. case_decide; [|done].
    subst i. by rewrite Hs0.
  - intros i p. rewrite queue_add_entries, queue_create_entries.
    intros [= -> ->]%list_elem_of_singleton.
    eexists. rewrite node_at_set_node by done. rewrite decide_True by done.
    split; [done|]. simpl. split; [done|]. rewrite Hg0. split; [|done].
    apply FloatSigns.nonneg_add; [done|]. by apply node_distance_nonneg.
Qed.

Lemma priorities_ok_step g e (c c' : phase * search Q) :
  all_finite g → step e c c' → priorities_ok g c → priorities_ok g c'.
Proof.
  intros Hfin Hstep (Hstatic & Hentries & Hcurr).
  destruct Hstep as [st Hemp|st q' Hemp Hrem|st curr q' nc Hemp Hrem Hne Hnc
                      |st curr n next st' Hrelax|st curr];
    unfold priorities_ok; simpl in *.
  - done.
  - split; [done|]. split; [|done]. intros i p Hip.
    apply queue_remove_Some in Hrem as (p0 & Hperm & _).
    apply Hentries. rewrite Hperm. by right.
  - apply queue_remove_Some in Hrem as (p0 & Hperm & _).
    split; [done|]. split.
    + intros i p Hip. apply Hentries. rewrite Hperm. by right.
    + destruct (Hentries curr p0) as (nd & Hnd & _ & _ & Hg).
      { rewrite Hperm. by left. }
      by exists nd.
  - destruct Hcurr as (ndc0 & Hndc0 & Hgc).
    destruct (relax_Ok_nodes _ _ _ _ _ Hrelax)
      as (ndn & ndc & nde & Hndn & Hndc & Hnde).
    assert (ndc0 = ndc) as -> by congruence.
    pose proof (node_at_lt _ _ _ Hndn) as Hlt.
    assert (∀ i nd, node_at (s_graph st) i = Some nd →
              is_finite (latitude nd) = true ∧ is_finite (longitude nd) = true)
      as Hfinite.
    { intros i nd Hnd. specialize (Hstatic i). rewrite Hnd in Hstatic.
      destruct (node_at g i) as [nd0|] eqn:Hnd0; [|done].
      destruct (all_nodes_at _ _ _ _ Hfin Hnd0) as [Hlat Hlon].
      injection Hstatic as _ _ -> -> _. done. }
    destruct (Hfinite _ _ Hndn) as [Hlatn Hlonn].
    destruct (Hfinite _ _ Hndc) as [Hlatc Hlonc].
    destruct (Hfinite _ _ Hnde) as [Hlate Hlone].
    rewrite (relax_eq _ _ _ _ _ _ _ Hndn Hndc Hnde) in Hrelax.
    simpl in Hrelax.
    set (pot := (g_cost ndc + node_distance ndc ndn)%float) in *.
    set (h := node_distance ndn nde) in *.
    assert (nonneg pot = true) as Hpot.
    { apply FloatSigns.nonneg_add; [done|]. by apply node_distance_nonneg. }
    assert (nonneg (pot + h) = true) as Hf.
    { apply FloatSigns.nonneg_add; [done|]. by apply node_distance_nonneg. }
    destruct (_ || _) eqn:Hskip; injection Hrelax as <-; simpl.
    + (* skipped *)
      split; [|split].
      * intros i. rewrite node_at_set_node by done. case_decide; [|done].
        subst i. by rewrite <- Hstatic, Hndn.
      * intros i p Hip.
        destruct (Hentries i p Hip) as (nd & Hnd & Hfi & Hp & Hgn).
        rewrite node_at_set_node by done. case_decide; [|by exists nd].
        subst i. eexists. split; [done|]. simpl.
        assert (nd = ndn) as -> by congruence. done.
      * rewrite node_at_set_node by done. case_decide; [|by exists ndc].
        subst n. eexists. split; [done|]. simpl.
        assert (ndn = ndc) as -> by congruence. done.
    + (* relaxed *)
      split; [|split].
      * intros i. rewrite node_at_set_node by done. case_decide; [|done].
        subst i. by rewrite <- Hstatic, Hndn.
      * intros i p Hip.
        assert ((i = n ∧ p = (pot + h)%float) ∨
                (i ≠ n ∧ (i, p) ∈ queue_entries (open_set st))) as Hcases.
        { destruct (queue_query (open_set st) n) eqn:Hq.
          - rewrite queue_change_priority_entries in Hip.
            apply list_elem_of_fmap in Hip as ([j pj] & Hjp & Hin).
            simpl in Hjp. case_decide; simplify_eq; by auto.
          - rewrite queue_add_entries in Hip.
            apply elem_of_cons in Hip as [[= -> ->]|Hip]; [by left|].
            right. split; [|done]. intros ->.
            apply queue_query_false in Hq. apply Hq.
            by apply (list_elem_of_fmap_2 fst) in Hip. }
        rewrite node_at_set_node by done.
        destruct Hcases as [[-> ->]|[Hin Hip']].
        -- rewrite decide_True by done. eexists. split; [done|]. by simpl.
        -- rewrite decide_False by done. by apply Hentries.
      * rewrite node_at_set_node by done. case_decide; [|by exists ndc].
        subst n. eexists. split; [done|]. by simpl.
  - done.
Qed.

Lemma priorities_ok_least g (st : search Q) curr q' i :
  priorities_ok g (AtHead, st) →
  queue_remove (open_set st) = Some (curr, q') →
  i ∈ queue_ids (open_set st) →
  ∃ ndc nd,
    node_at (s_graph st) curr = Some ndc ∧ node_at (s_graph st) i = Some nd ∧
    (f_cost ndc <=? f_cost nd)%float = true.
Proof.
  intros (_ & Hentries & _) Hrem Hi. simpl in *.
  apply queue_remove_Some in Hrem as (p & Hperm & Hleast).
  destruct (Hentries curr p) as (ndc & Hndc & Hfc & _).
  { rewrite Hperm. by left. }
  apply list_elem_of_fmap in Hi as ([j pi] & -> & Hin). simpl.
  destruct (Hentries j pi Hin) as (nd & Hnd & Hfi & _).
  exists ndc, nd. do 2 (split; [done|]). rewrite Hfc, Hfi.
  assert (Forall (λ e, is_nan e.2 = false) (queue_entries (open_set st)))
    as Hnan.
  { apply Forall_forall. intros [k pk] Hk. simpl.
    destruct (Hentries k pk Hk) as (_ & _ & _ & Hp & _).
    by apply FloatSigns.nonneg_not_nan. }
  by apply (proj1 (Forall_forall _ _) (Hleast Hnan) (j, pi)).
Qed.

(** X18.  A search on a graph with fresh costs and finite coordinates
    expands best first: whenever the loop takes a node out of the open
    set, the [f_cost] of that node is at most the [f_cost] of every node
    in the open set, on every queue that meets the contract. *)
Theorem a_star_expands_least g s e (st0 st : search Q) curr q' i :
  all_finite g → fresh g →
  a_star_init g s e = Ok st0 →
  rtc (step e) (AtHead, st0) (AtHead, st) →
  queue_remove (open_set st) = Some (curr, q') →
  i ∈ queue_ids (open_set st) →
  ∃ ndc nd,
    node_at (s_graph st) curr = Some ndc ∧ node_at (s_graph st) i = Some nd ∧
    (f_cost ndc <=? f_cost nd)%float = true.
Proof.
  intros Hfin Hfresh Hinit Hsteps.
  apply priorities_ok_least with (g := g).
  eapply (rtc_ind_r (λ c, priorities_ok g c)); [|  |exact Hsteps].
  - by eapply priorities_ok_init.
  - intros c c' _ Hstep Hok. by eapply priorities_ok_step.
Qed.

End order_facts.

Lemma after_first_steps :
  rtc (step 2) (AtHead, started square 0 2) (AtHead, after_first square 0 2).
Proof.
  eapply rtc_l.
  { eapply (step_extract 2 (started square 0 2) 0 []); by vm_compute. }
  eapply rtc_trans.
  { apply expand_steps. by vm_compute. }
  eapply rtc_l; [apply step_close|].
  apply rtc_refl.
Qed.

Lemma a_star_expands_least_witness :
  all_finite square ∧ fresh square ∧
  a_star_init square 0 2 = Ok (started square 0 2) ∧
  rtc (step 2) (AtHead, started square 0 2) (AtHead, after_first square 0 2) ∧
  queue_remove (open_set (after_first square 0 2))
  = Some (1, [(3, 2%float)]) ∧
  3 ∈ queue_ids (open_set (after_first square 0 2)) ∧
  ∃ ndc nd,
    node_at (s_graph (after_first square 0 2)) 1 = Some ndc ∧
    node_at (s_graph (after_first square 0 2)) 3 = Some nd ∧
    (f_cost ndc <=? f_cost nd)%float = true.
Proof.
  assert (a_star_init square 0 2 = Ok (started square 0 2)) as Hinit
    by by vm_compute.
  assert (queue_remove (open_set (after_first square 0 2))
          = Some (1, [(3, 2%float)])) as Hrem by by vm_compute.
  assert (3 ∈ queue_ids (open_set (after_first square 0 2))) as Hin.
  { vm_compute. right. left. }
  split; [exact square_all_finite|]. split; [exact square_fresh|].
  split; [done|]. split; [exact after_first_steps|]. do 2 (split; [done|]).
  exact (a_star_expands_least square 0 2 _ _ 1 _ 3 square_all_finite
           square_fresh Hinit after_first_steps Hrem Hin).
Defined.

(** * The construction interface in memory *)

(** ** Lists in memory *)

Lemma cells_length h p l addrs : Mem.cells h p l addrs → length l = length addrs.
Proof.
  revert p addrs. induction l as [|v l IH]; intros p [|a addrs]; simpl;
    try done.
  intros (_ & nx & _ & Hrest). f_equal. by eapply IH.
Qed.

Lemma cells_frame h h' p l addrs :
  (∀ a, a ∈ addrs → h' !! a = h !! a) →
  Mem.cells h p l addrs → Mem.cells h' p l addrs.
Proof.
  revert p addrs. induction l as [|v l IH]; intros p [|a addrs] Hsame; simpl;
    try done.
  intros (-> & nx & Ha & Hrest). split; [done|]. exists nx. split.
  - rewrite Hsame; [done | by left].
  - apply IH; [|done]. intros b Hb. apply Hsame. by right.
Qed.

Lemma cells_allocated h p l addrs a :
  Mem.cells h p l addrs → a ∈ addrs → is_Some (h !! a).
Proof.
  revert p addrs. induction l as [|v l IH]; intros p [|b addrs]; simpl;
    try done.
  - by intros _ ?%elem_of_nil.
  - intros (_ & nx & Hb & Hrest) [->|Ha]%elem_of_cons; [by eexists|].
    by eapply IH.
Qed.

Lemma cells_nil h p addrs : Mem.cells h p [] addrs ↔ p = None ∧ addrs = [].
Proof. destruct addrs; simpl; naive_solver. Qed.

Lemma NoDup_allocated_length (h : gmap nat Mem.block) (addrs : list nat) :
  NoDup addrs → (∀ a, a ∈ addrs → is_Some (h !! a)) →
  length addrs ≤ size h.
Proof.
  intros Hnd Hin. rewrite <- (size_list_to_set (C := gset nat)) by done.
  rewrite <- size_dom. apply subseteq_size. intros a Ha.
  apply elem_of_dom, Hin. by apply elem_of_list_to_set in Ha.
Qed.

(** The loop of [insert] stops at the last cell. *)
Lemma last_cell_spec fuel m a v l addrs :
  Mem.cells (Mem.blocks m) (Some a) (v :: l) addrs →
  length l < fuel →
  ∃ la lv,
    Mem.last_cell fuel (Some a) m = Mem.Ret (Some la) m ∧
    last addrs = Some la ∧ last (v :: l) = Some lv ∧
    Mem.blocks m !! la = Some (Mem.Cell lv None).
Proof.
  revert a v l addrs. induction fuel as [|fuel IH]; intros a v l addrs;
    [lia|].
  destruct addrs as [|a' addrs]; [done|].
  intros ([= <-] & nx & Ha & Hrest) Hfuel. simpl.
  unfold Mem.bind, Mem.load_cell, Mem.bind, Mem.load. rewrite Ha. simpl.
  destruct l as [|v' l].
  - apply cells_nil in Hrest as [-> ->]. by exists a, v.
  - destruct addrs as [|a'' addrs]; [done|].
    pose proof Hrest as ([= ->] & _). simpl.
    destruct (IH a'' v' l (a'' :: addrs) Hrest) as (la & lv & Hlast & ? & ? & ?).
    { simpl in Hfuel. lia. }
    by exists la, lv.
Qed.

(** Linking a new cell after the last one. *)
Lemma cells_snoc h p l addrs la lv new val :
  Mem.cells h p l addrs → NoDup addrs →
  last addrs = Some la → last l = Some lv → new ∉ addrs →
  Mem.cells (<[la := Mem.Cell lv (Some new)]> (<[new := Mem.Cell val None]> h))
    p (l ++ [val]) (addrs ++ [new]).
Proof.
  revert p addrs. induction l as [|v l IH]; intros p [|a addrs]; simpl;
    try done.
  intros (-> & nx & Ha & Hrest) [Hna Hnd]%NoDup_cons Hla Hlv Hnew.
  apply not_elem_of_cons in Hnew as [Hnew_a Hnew].
  split; [done|]. destruct l as [|v' l].
  - apply cells_nil in Hrest as [-> ->]. simpl in *. simplify_eq.
    exists (Some new). split; [by rewrite lookup_insert_eq|].
    split; [done|]. exists None. split; [|done].
    rewrite lookup_insert_ne by done. by rewrite lookup_insert_eq.
  - destruct addrs as [|a' addrs]; [done|].
    rewrite last_cons_cons in Hla, Hlv.
    exists nx. split.
    + rewrite !lookup_insert_ne; [done..|by intros ->|].
      intros <-. apply Hna. by eapply last_Some_elem_of.
    + by apply IH.
Qed.

(** A pointer is the head of at most one list. *)
Lemma cells_inj h p l1 addrs1 l2 addrs2 :
  Mem.cells h p l1 addrs1 → Mem.cells h p l2 addrs2 →
  l1 = l2 ∧ addrs1 = addrs2.
Proof.
  revert p l2 addrs1 addrs2.
  induction l1 as [|v1 l1 IH]; intros p [|v2 l2] [|a1 addrs1] [|a2 addrs2];
    simpl; try done; try (by intros -> [? _]); try (by intros [-> _] ?).
  intros (-> & nx1 & H1 & Hrest1) ([= <-] & nx2 & H2 & Hrest2).
  simplify_eq. destruct (IH _ _ _ _ Hrest1 Hrest2) as [-> ->]. done.
Qed.

Lemma cells_suffix h p l addrs a :
  Mem.cells h p l addrs → a ∈ addrs →
  ∃ l' addrs',
    Mem.cells h (Some a) l' (a :: addrs') ∧ length addrs' < length addrs.
Proof.
  revert p addrs. induction l as [|v l IH]; intros p [|b addrs]; simpl;
    try done.
  - by intros _ ?%elem_of_nil.
  - intros (-> & nx & Hb & Hrest) [->|Ha]%elem_of_cons.
    + exists (v :: l), addrs. split; [|lia]. split; [done|]. by exists nx.
    + destruct (IH _ _ Hrest Ha) as (l' & addrs' & Hcells & Hlen).
      exists l', addrs'. split; [done|]. lia.
Qed.

(** The cells of a list are distinct. *)
Lemma cells_NoDup h p l addrs : Mem.cells h p l addrs → NoDup addrs.
Proof.
  revert p addrs. induction l as [|v l IH]; intros p [|a addrs]; simpl;
    try done.
  - intros _. constructor.
  - intros (-> & nx & Ha & Hrest). constructor; [|by eapply IH].
    intros Hin.
    destruct (cells_suffix _ _ _ _ _ Hrest Hin) as (l' & addrs' & Hcells & Hlen).
    assert (Mem.cells h (Some a) (v :: l) (a :: addrs)) as Hall.
    { split; [done|]. by exists nx. }
    destruct (cells_inj _ _ _ _ _ _ Hcells Hall) as [_ [= ->]]. lia.
Qed.

Lemma cells_fuel (m : Mem.mem) p l addrs :
  Mem.cells (Mem.blocks m) p l addrs → length l < S (size (Mem.blocks m)).
Proof.
  intros Hcells. rewrite (cells_length _ _ _ _ Hcells).
  apply Nat.lt_succ_r, NoDup_allocated_length.
  - by eapply cells_NoDup.
  - intros a. by eapply cells_allocated.
Qed.

(** ** Allocation *)

Lemma malloc_fresh (m : Mem.mem) :
  Mem.blocks m !! base.fresh (dom (Mem.blocks m)) = None.
Proof. apply not_elem_of_dom, is_fresh. Qed.

Lemma cons_room m val next r :
  Mem.room m = S r →
  Mem.cons val next m
  = Mem.Ret (Some (base.fresh (dom (Mem.blocks m))))
      {| Mem.blocks :=
           <[base.fresh (dom (Mem.blocks m)) := Mem.Cell val next]>
             (Mem.blocks m);
         Mem.room := r; Mem.out := Mem.out m; Mem.err := Mem.err m |}.
Proof.
  intros Hroom. unfold Mem.cons, Mem.bind, Mem.malloc. rewrite Hroom.
  unfold Mem.store, Mem.with_blocks, Mem.ret. simpl.
  rewrite lookup_insert_eq. simpl. by rewrite insert_insert_eq.
Qed.

Lemma cons_no_room m val next :
  Mem.room m = 0 →
  Mem.cons val next m = Mem.Exit 1 (Mem.out_of_space m).
Proof.
  intros Hroom. unfold Mem.cons, Mem.bind, Mem.malloc. by rewrite Hroom.
Qed.

Lemma mem_eta (m : Mem.mem) :
  {| Mem.blocks := Mem.blocks m; Mem.room := Mem.room m;
     Mem.out := Mem.out m; Mem.err := Mem.err m |} = m.
Proof. by destruct m. Qed.

Lemma bind_Ret {A B} (x : Mem.M A) (k : A → Mem.M B) m a m' :
  x m = Mem.Ret a m' → Mem.bind x k m = k a m'.
Proof. intros Hx. unfold Mem.bind. by rewrite Hx. Qed.

Lemma bind_Exit {A B} (x : Mem.M A) (k : A → Mem.M B) m status m' :
  x m = Mem.Exit status m' → Mem.bind x k m = Mem.Exit status m'.
Proof. intros Hx. unfold Mem.bind. by rewrite Hx. Qed.

Lemma bind_Undef {A B} (x : Mem.M A) (k : A → Mem.M B) m :
  x m = Mem.Undef → Mem.bind x k m = Mem.Undef.
Proof. intros Hx. unfold Mem.bind. by rewrite Hx. Qed.

Lemma budget_eq m : Mem.budget m = Mem.Ret (S (size (Mem.blocks m))) m.
Proof. done. Qed.

Lemma load_eq m a b :
  Mem.blocks m !! a = Some b → Mem.load (Some a) m = Mem.Ret b m.
Proof. intros Ha. unfold Mem.load. by rewrite Ha. Qed.

Lemma load_cell_eq m a num next :
  Mem.blocks m !! a = Some (Mem.Cell num next) →
  Mem.load_cell (Some a) m = Mem.Ret (num, next) m.
Proof. intros Ha. unfold Mem.load_cell. by rewrite (bind_Ret _ _ _ _ _ (load_eq _ _ _ Ha)). Qed.

Lemma store_eq m a b b' :
  Mem.blocks m !! a = Some b →
  Mem.store (Some a) b' m
  = Mem.Ret () (Mem.with_blocks m (<[a := b']> (Mem.blocks m))).
Proof. intros Ha. unfold Mem.store. by rewrite Ha. Qed.

Lemma insert_spec m p l addrs val :
  Mem.cells (Mem.blocks m) p l addrs →
  match Mem.room m with
  | 0 => Mem.insert p val m = Mem.Exit 1 (Mem.out_of_space m)
  | S r =>
      ∃ new m',
        Mem.insert p val m
        = Mem.Ret (if p is Some _ then p else Some new) m' ∧
        Mem.blocks m !! new = None ∧
        Mem.cells (Mem.blocks m') (if p is Some _ then p else Some new)
          (insert l val) (addrs ++ [new]) ∧
        (∀ a, a ∉ addrs → a ≠ new → Mem.blocks m' !! a = Mem.blocks m !! a) ∧
        Mem.room m' = r ∧ Mem.out m' = Mem.out m ∧ Mem.err m' = Mem.err m
  end.
Proof.
  intros Hcells. rewrite insert_app.
  pose proof (cells_NoDup _ _ _ _ Hcells) as Hnd.
  destruct l as [|v l].
  - apply cells_nil in Hcells as [-> ->]. simpl.
    destruct (Mem.room m) as [|r] eqn:Hroom; [by apply cons_no_room|].
    eexists _, _. split; [by apply cons_room|]. simpl.
    split; [apply malloc_fresh|]. split; [|split; [|done]].
    + split; [done|]. exists None. by rewrite lookup_insert_eq.
    + intros a _ Ha. by rewrite lookup_insert_ne.
  - destruct addrs as [|a addrs]; [done|]. pose proof Hcells as ([= ->] & _).
    destruct (last_cell_spec (S (size (Mem.blocks m))) m a v l (a :: addrs)
                Hcells) as (la & lv & Hlast & Hla & Hlv & Hblock).
    { pose proof (cells_fuel _ _ _ _ Hcells) as Hfuel. simpl in Hfuel. lia. }
    unfold Mem.insert.
    rewrite (bind_Ret _ _ _ _ _ (budget_eq m)), (bind_Ret _ _ _ _ _ Hlast).
    destruct (Mem.room m) as [|r] eqn:Hroom.
    + by rewrite (bind_Exit _ _ _ _ _ (cons_no_room _ _ _ Hroom)).
    + rewrite (bind_Ret _ _ _ _ _ (cons_room _ _ _ _ Hroom)).
      set (new := base.fresh (dom (Mem.blocks m))).
      assert (Mem.blocks m !! new = None) as Hnew by apply malloc_fresh.
      assert (la ∈ a :: addrs) as Hla_in by by eapply last_Some_elem_of.
      assert (new ∉ a :: addrs) as Hnew_addrs.
      { intros [b Hb]%(cells_allocated _ _ _ _ _ Hcells). congruence. }
      assert (la ≠ new) as Hne by (by intros ->).
      erewrite bind_Ret; cycle 1.
      { apply load_cell_eq. simpl. rewrite lookup_insert_ne by done.
        exact Hblock. }
      erewrite bind_Ret; cycle 1.
      { eapply store_eq. simpl. rewrite lookup_insert_ne by done.
        exact Hblock. }
      eexists new, _. split; [done|]. simpl. split; [done|].
      split; [|split; [|done]].
      * exact (cells_snoc _ _ (v :: l) (a :: addrs) la lv new val
                 Hcells Hnd Hla Hlv Hnew_addrs).
      * intros b Hb Hbnew. rewrite !lookup_insert_ne; [done..|by intros ->].
Qed.

(** ** Freeing and printing a list *)

Lemma free_eq m a b :
  Mem.blocks m !! a = Some b →
  Mem.free (Some a) m
  = Mem.Ret ()
      {| Mem.blocks := delete a (Mem.blocks m); Mem.room := S (Mem.room m);
         Mem.out := Mem.out m; Mem.err := Mem.err m |}.
Proof. intros Ha. unfold Mem.free. by rewrite Ha. Qed.

Lemma free_list_rec_spec fuel m p l addrs :
  Mem.cells (Mem.blocks m) p l addrs → length l ≤ fuel →
  ∃ m',
    Mem.free_list_rec fuel p m = Mem.Ret () m' ∧
    (∀ a, Mem.blocks m' !! a
          = if decide (a ∈ addrs) then None else Mem.blocks m !! a) ∧
    Mem.room m' = Mem.room m + length addrs ∧
    Mem.out m' = Mem.out m ∧ Mem.err m' = Mem.err m.
Proof.
  revert fuel m p addrs. induction l as [|v l IH]; intros fuel m p addrs.
  - intros [-> ->]%cells_nil _. exists m. split; [by destruct fuel|].
    split; [|by rewrite Nat.add_0_r].
    intros a. rewrite decide_False; [done | apply not_elem_of_nil].
  - destruct addrs as [|a addrs]; [done|]. intros Hcells Hfuel.
    pose proof (cells_NoDup _ _ _ _ Hcells) as [Hna Hnd]%NoDup_cons.
    destruct Hcells as (-> & nx & Ha & Hrest).
    destruct fuel as [|fuel]; [simpl in Hfuel; lia|]. simpl.
    rewrite (bind_Ret _ _ _ _ _ (load_cell_eq _ _ _ _ Ha)). simpl.
    destruct (IH fuel m nx addrs Hrest) as (m1 & Hfree & Hblocks & Hroom & Hout & Herr).
    { simpl in Hfuel. lia. }
    rewrite (bind_Ret _ _ _ _ _ Hfree).
    assert (Mem.blocks m1 !! a = Some (Mem.Cell v nx)) as Ha1.
    { rewrite Hblocks. by rewrite decide_False. }
    rewrite (free_eq _ _ _ Ha1). eexists. split; [done|]. simpl.
    split; [|split; [lia | done]].
    intros b. destruct (decide (b = a)) as [->|Hba].
    + rewrite lookup_delete_eq. rewrite decide_True; [done | by left].
    + rewrite lookup_delete_ne by done. rewrite Hblocks.
      destruct (decide (b ∈ addrs)) as [Hb|Hb].
      * rewrite decide_True; [done | by right].
      * rewrite decide_False; [done|]. by intros [?|?]%elem_of_cons.
Qed.

Lemma free_list_spec m p l addrs :
  Mem.cells (Mem.blocks m) p l addrs →
  ∃ m',
    Mem.free_list p m = Mem.Ret () m' ∧
    (∀ a, Mem.blocks m' !! a
          = if decide (a ∈ addrs) then None else Mem.blocks m !! a) ∧
    Mem.room m' = Mem.room m + length addrs ∧
    Mem.out m' = Mem.out m ∧ Mem.err m' = Mem.err m.
Proof.
  intros Hcells. unfold Mem.free_list.
  rewrite (bind_Ret _ _ _ _ _ (budget_eq m)).
  apply (free_list_rec_spec _ _ _ l); [done|].
  pose proof (cells_fuel _ _ _ _ Hcells). lia.
Qed.

Lemma print_list_rec_spec fuel m p l addrs :
  Mem.cells (Mem.blocks m) p l addrs → length l ≤ fuel →
  Mem.print_list_rec fuel p m
  = Mem.Ret ()
      {| Mem.blocks := Mem.blocks m; Mem.room := Mem.room m;
         Mem.out := Mem.out m ++ (Mem.neighbor_line <$> l);
         Mem.err := Mem.err m |}.
Proof.
  revert fuel m p addrs. induction l as [|v l IH]; intros fuel m p addrs.
  - intros [-> ->]%cells_nil _. simpl. rewrite app_nil_r, mem_eta.
    by destruct fuel.
  - destruct addrs as [|a addrs]; [done|].
    intros (-> & nx & Ha & Hrest) Hfuel.
    destruct fuel as [|fuel]; [simpl in Hfuel; lia|]. simpl.
    rewrite (bind_Ret _ _ _ _ _ (load_cell_eq _ _ _ _ Ha)). simpl.
    unfold Mem.bind at 1, Mem.printf.
    rewrite (IH fuel _ nx addrs); [|done|simpl in Hfuel; lia].
    simpl. by rewrite <- app_assoc.
Qed.

Lemma append_char_inj c s t :
  s +:+ String c EmptyString = t +:+ String c EmptyString → s = t.
Proof.
  revert t. induction s as [|a s IH]; intros [|b t]; simpl; intros Hst.
  - done.
  - injection Hst as _ Hst. by destruct t.
  - injection Hst as _ Hst. by destruct s.
  - injection Hst as -> Hst. f_equal. by apply IH.
Qed.

(** The line tells the number. *)
Lemma neighbor_line_inj : Inj (=) (=) Mem.neighbor_line.
Proof.
  intros x y Hxy. unfold Mem.neighbor_line in Hxy.
  apply (inj (String.append _)) in Hxy.
  apply append_char_inj in Hxy.
  by apply (inj pretty) in Hxy.
Qed.

(** ** Layouts *)

Lemma layout_addrs_split (lay : Mem.layout) i o :
  lay !! i = Some o →
  Mem.layout_addrs lay
  = Mem.layout_addrs (take i lay) ++ Mem.slot_addrs o
    ++ Mem.layout_addrs (drop (S i) lay).
Proof.
  intros Hi. unfold Mem.layout_addrs.
  rewrite <- (take_drop_middle lay i o Hi) at 1.
  by rewrite fmap_app, join_app.
Qed.

Lemma layout_addrs_insert (lay : Mem.layout) i o :
  i < length lay →
  Mem.layout_addrs (<[i := o]> lay)
  = Mem.layout_addrs (take i lay) ++ Mem.slot_addrs o
    ++ Mem.layout_addrs (drop (S i) lay).
Proof.
  intros Hi. unfold Mem.layout_addrs.
  rewrite insert_take_drop by done.
  by rewrite fmap_app, join_app.
Qed.

Lemma layout_addrs_take_S (lay : Mem.layout) i o :
  lay !! i = Some o →
  Mem.layout_addrs (take (S i) lay)
  = Mem.layout_addrs (take i lay) ++ Mem.slot_addrs o.
Proof.
  intros Hi. unfold Mem.layout_addrs.
  rewrite (take_S_r _ _ _ Hi), fmap_app, join_app. simpl.
  by rewrite app_nil_r.
Qed.

Lemma elem_of_layout_addrs (lay : Mem.layout) x :
  x ∈ Mem.layout_addrs lay ↔
  ∃ i o, lay !! i = Some o ∧ x ∈ Mem.slot_addrs o.
Proof.
  unfold Mem.layout_addrs. rewrite list_elem_of_join. split.
  - intros (l & Hx & Hl). apply list_elem_of_fmap in Hl as (o & -> & Ho).
    apply list_elem_of_lookup in Ho as [i Hi]. by exists i, o.
  - intros (i & o & Hi & Hx). exists (Mem.slot_addrs o). split; [done|].
    apply list_elem_of_fmap. exists o. split; [done|].
    by eapply list_elem_of_lookup_2.
Qed.

Lemma layout_slot_NoDup (lay : Mem.layout) i o :
  NoDup (Mem.layout_addrs lay) → lay !! i = Some o →
  NoDup (Mem.slot_addrs o).
Proof.
  intros Hnd Hi. rewrite (layout_addrs_split _ _ _ Hi) in Hnd.
  apply NoDup_app in Hnd as (_ & _ & Hnd).
  by apply NoDup_app in Hnd as (Hnd & _).
Qed.

Lemma layout_slots_disjoint (lay : Mem.layout) i j oi oj x :
  NoDup (Mem.layout_addrs lay) →
  lay !! i = Some oi → lay !! j = Some oj →
  x ∈ Mem.slot_addrs oi → x ∈ Mem.slot_addrs oj → i = j.
Proof.
  intros Hnd Hi Hj Hxi Hxj.
  destruct (decide (i = j)) as [|Hne]; [done|]. exfalso.
  rewrite (layout_addrs_split _ _ _ Hi) in Hnd.
  apply NoDup_app in Hnd as (_ & Hbefore & Hnd).
  apply NoDup_app in Hnd as (_ & Hafter & _).
  destruct (decide (j < i)) as [Hlt|Hge].
  - apply (Hbefore x); [|set_solver].
    apply elem_of_layout_addrs. exists j, oj. split; [|done].
    by rewrite lookup_take_lt.
  - apply (Hafter x Hxi).
    apply elem_of_layout_addrs. exists (j - S i), oj. split; [|done].
    rewrite lookup_drop. rewrite <- Hj. f_equal. lia.
Qed.

(** Replacing the addresses of a slot by addresses that were there or are
    not used. *)
Lemma layout_insert_NoDup (lay : Mem.layout) i o o' :
  NoDup (Mem.layout_addrs lay) → lay !! i = Some o →
  NoDup (Mem.slot_addrs o') →
  (∀ x, x ∈ Mem.slot_addrs o' →
        x ∈ Mem.slot_addrs o ∨ x ∉ Mem.layout_addrs lay) →
  NoDup (Mem.layout_addrs (<[i := o']> lay)).
Proof.
  intros Hnd Hi Hnd' Hnew.
  pose proof (lookup_lt_Some _ _ _ Hi) as Hlt.
  rewrite layout_addrs_insert by done.
  pose proof Hnd as Hnd0.
  rewrite (layout_addrs_split _ _ _ Hi) in Hnd.
  apply NoDup_app in Hnd as (HA & Hbefore & Hnd).
  apply NoDup_app in Hnd as (Ho & Hafter & HB).
  assert (∀ x, x ∈ Mem.slot_addrs o' →
            (x ∉ Mem.layout_addrs (take i lay)) ∧
            (x ∉ Mem.layout_addrs (drop (S i) lay))) as Hsep.
  { intros x [Hx|Hx]%Hnew.
    - split; [|by apply Hafter]. intros Hxa. apply (Hbefore x Hxa). set_solver.
    - rewrite (layout_addrs_split _ _ _ Hi) in Hx. set_solver. }
  apply NoDup_app. split; [done|]. split.
  - intros x Hx [Hx'|Hx']%elem_of_app.
    + by destruct (Hsep x Hx').
    + apply (Hbefore x Hx). set_solver.
  - apply NoDup_app. split; [done|]. split; [|done].
    intros x Hx. by destruct (Hsep x Hx).
Qed.

Lemma elem_of_layout_insert (lay : Mem.layout) i o x :
  i < length lay →
  x ∈ Mem.layout_addrs (<[i := o]> lay) →
  x ∈ Mem.slot_addrs o ∨ x ∈ Mem.layout_addrs lay.
Proof.
  intros Hi (j & oj & Hj & Hx)%elem_of_layout_addrs.
  destruct (decide (j = i)) as [->|Hne].
  - rewrite list_lookup_insert_eq in Hj by done. left. congruence.
  - rewrite list_lookup_insert_ne in Hj by done. right.
    apply elem_of_layout_addrs. by exists j, oj.
Qed.

(** ** Graphs in memory *)

Lemma node_rep_frame h h' (lay lay' : Mem.layout) o n :
  (∀ a, a ∈ Mem.slot_addrs o → h' !! a = h !! a) →
  (∀ k o1, lay !! k = Some (Some o1) →
           ∃ o2, lay' !! k = Some (Some o2) ∧ o2.1 = o1.1) →
  Mem.node_rep h lay o n → Mem.node_rep h' lay' o n.
Proof.
  intros Hsame Hlay. destruct o as [[np cs]|], n as [nd|]; simpl; try done.
  intros (lp & pp & Hnp & Hcells & Hpar). exists lp, pp. split; [|split].
  - rewrite Hsame; [done | by left].
  - eapply cells_frame; [|done]. intros a Ha. apply Hsame. by right.
  - unfold Mem.parent_rep in *. destruct (parent nd) as [k|]; [|done].
    destruct Hpar as (o1 & Hk & ->).
    destruct (Hlay k o1 Hk) as (o2 & Hk' & Heq). exists o2.
    split; [done|]. by rewrite Heq.
Qed.

Lemma rep_at_slot m gp ap lay g i o n :
  Mem.rep_at m gp ap lay g →
  lay !! i = Some o → nodes g !! i = Some n →
  Mem.node_rep (Mem.blocks m) lay o n.
Proof.
  intros (_ & _ & _ & _ & _ & _ & Hall) Hi Hn.
  by eapply Forall2_lookup_lr.
Qed.

Lemma rep_at_length m gp ap lay g :
  Mem.rep_at m gp ap lay g → length lay = length (nodes g).
Proof. intros (_ & _ & _ & _ & _ & _ & Hall). by eapply Forall2_length. Qed.

Lemma rep_at_node m gp ap lay g i nd :
  Mem.rep_at m gp ap lay g → node_at g i = Some nd →
  ∃ np cs lp pp,
    lay !! i = Some (Some (np, cs)) ∧
    Mem.blocks m !! np = Some (Mem.NodeBlk (Mem.node_block nd lp pp)) ∧
    Mem.cells (Mem.blocks m) lp (neighbors nd) cs ∧
    Mem.parent_rep lay (parent nd) pp.
Proof.
  intros Hrep Hnd%node_at_lookup.
  pose proof (rep_at_length _ _ _ _ _ Hrep) as Hlen.
  destruct (lay !! i) as [o|] eqn:Hi; cycle 1.
  { apply lookup_ge_None in Hi. apply lookup_lt_Some in Hnd. lia. }
  pose proof (rep_at_slot _ _ _ _ _ _ _ _ Hrep Hi Hnd) as Hnode.
  destruct o as [[np cs]|]; [|done]. simpl in Hnode.
  destruct Hnode as (lp & pp & ? & ? & ?). by exists np, cs, lp, pp.
Qed.

Lemma rep_at_allocated m gp ap lay g x :
  Mem.rep_at m gp ap lay g → x ∈ Mem.layout_addrs lay →
  is_Some (Mem.blocks m !! x).
Proof.
  intros Hrep (i & o & Hi & Hx)%elem_of_layout_addrs.
  pose proof (rep_at_length _ _ _ _ _ Hrep) as Hlen.
  destruct (nodes g !! i) as [n|] eqn:Hn; cycle 1.
  { apply lookup_ge_None in Hn. apply lookup_lt_Some in Hi. lia. }
  pose proof (rep_at_slot _ _ _ _ _ _ _ _ Hrep Hi Hn) as Hnode.
  destruct o as [[np cs]|], n as [nd|]; simpl in *; try done.
  - destruct Hnode as (lp & pp & Hnp & Hcells & _).
    apply elem_of_cons in Hx as [->|Hx]; [by eexists|].
    by eapply cells_allocated.
  - by apply elem_of_nil in Hx.
Qed.

Lemma layout_addrs_replicate n : Mem.layout_addrs (replicate n None) = [].
Proof. induction n as [|n IH]; [done | exact IH]. Qed.

Lemma malloc_room m r :
  Mem.room m = S r →
  Mem.malloc m
  = Mem.Ret (Some (base.fresh (dom (Mem.blocks m))))
      {| Mem.blocks := <[base.fresh (dom (Mem.blocks m)) := Mem.Raw]> (Mem.blocks m);
         Mem.room := r; Mem.out := Mem.out m; Mem.err := Mem.err m |}.
Proof. intros Hroom. unfold Mem.malloc. by rewrite Hroom. Qed.

Lemma malloc_no_room m : Mem.room m = 0 → Mem.malloc m = Mem.Ret None m.
Proof. intros Hroom. unfold Mem.malloc. by rewrite Hroom. Qed.

Lemma calloc_room m n r :
  Mem.room m = S r →
  Mem.calloc n m
  = Mem.Ret (Some (base.fresh (dom (Mem.blocks m))))
      {| Mem.blocks :=
           <[base.fresh (dom (Mem.blocks m)) := Mem.Slots (replicate n None)]>
             (Mem.blocks m);
         Mem.room := r; Mem.out := Mem.out m; Mem.err := Mem.err m |}.
Proof. intros Hroom. unfold Mem.calloc. by rewrite Hroom. Qed.

Lemma calloc_no_room m n : Mem.room m = 0 → Mem.calloc n m = Mem.Ret None m.
Proof. intros Hroom. unfold Mem.calloc. by rewrite Hroom. Qed.

(** [graph_create] with room for its two blocks. *)
Lemma graph_create_spec m n r :
  Mem.room m = S (S r) →
  ∃ gp ap m',
    Mem.graph_create n m = Mem.Ret (Some gp) m' ∧
    Mem.rep_at m' gp ap (replicate n None) (graph_create n) ∧
    Mem.blocks m !! gp = None ∧ Mem.blocks m !! ap = None ∧
    (∀ a, a ≠ gp → a ≠ ap → Mem.blocks m' !! a = Mem.blocks m !! a) ∧
    Mem.room m' = r ∧ Mem.out m' = Mem.out m ∧ Mem.err m' = Mem.err m.
Proof.
  intros Hroom. unfold Mem.graph_create.
  rewrite (bind_Ret _ _ _ _ _ (malloc_room _ _ Hroom)).
  set (gp := base.fresh (dom (Mem.blocks m))).
  erewrite bind_Ret; [|by apply calloc_room]. simpl.
  set (ap := base.fresh (dom (<[gp := Mem.Raw]> (Mem.blocks m)))).
  assert (Mem.blocks m !! gp = None) as Hgp by apply malloc_fresh.
  assert (<[gp := Mem.Raw]> (Mem.blocks m) !! ap = None) as Hap.
  { apply not_elem_of_dom, is_fresh. }
  assert (ap ≠ gp) as Hne.
  { intros Heq. rewrite Heq, lookup_insert_eq in Hap. done. }
  rewrite lookup_insert_ne in Hap by done.
  erewrite bind_Ret; cycle 1.
  { eapply store_eq. simpl. rewrite lookup_insert_ne by done.
    apply lookup_insert_eq. }
  exists gp, ap. eexists. split; [done|].
  unfold Mem.rep_at, Mem.with_blocks. simpl.
  split; [|split; [done|]; split; [done|]; split; [|done]].
  - split; [done|]. rewrite layout_addrs_replicate.
    split; [apply not_elem_of_nil|]. split; [apply not_elem_of_nil|].
    split; [constructor|]. split; [by rewrite lookup_insert_eq|]. split.
    + rewrite lookup_insert_ne by done. rewrite lookup_insert_eq.
      by rewrite fmap_replicate.
    + by apply Forall2_replicate.
  - intros a Ha1 Ha2. by rewrite !lookup_insert_ne.
Qed.

(** [graph_create] without room for its two blocks. *)
Lemma graph_create_no_room m n :
  Mem.room m ≤ 1 →
  ∃ m', Mem.graph_create n m = Mem.Exit 1 m' ∧
        Mem.err m' = Mem.err m ++ ["out of space" +:+ Mem.newline] ∧
        Mem.out m' = Mem.out m.
Proof.
  intros Hroom. unfold Mem.graph_create.
  destruct (Mem.room m) as [|[|r]] eqn:Hr; [| |lia].
  - rewrite (bind_Ret _ _ _ _ _ (malloc_no_room _ Hr)).
    rewrite (bind_Ret _ _ _ _ _ (calloc_no_room _ _ Hr)).
    by eexists.
  - rewrite (bind_Ret _ _ _ _ _ (malloc_room _ _ Hr)).
    erewrite bind_Ret; [|by apply calloc_no_room].
    by eexists.
Qed.

Lemma load_graph_eq m a n nodes :
  Mem.blocks m !! a = Some (Mem.GraphBlk n nodes) →
  Mem.load_graph (Some a) m = Mem.Ret (n, nodes) m.
Proof.
  intros Ha. unfold Mem.load_graph.
  by rewrite (bind_Ret _ _ _ _ _ (load_eq _ _ _ Ha)).
Qed.

Lemma load_node_eq m a nd :
  Mem.blocks m !! a = Some (Mem.NodeBlk nd) →
  Mem.load_node (Some a) m = Mem.Ret nd m.
Proof.
  intros Ha. unfold Mem.load_node.
  by rewrite (bind_Ret _ _ _ _ _ (load_eq _ _ _ Ha)).
Qed.

Lemma load_slot_eq m a slots i q :
  Mem.blocks m !! a = Some (Mem.Slots slots) → slots !! i = Some q →
  Mem.load_slot (Some a) i m = Mem.Ret q m.
Proof.
  intros Ha Hi. unfold Mem.load_slot.
  rewrite (bind_Ret _ _ _ _ _ (load_eq _ _ _ Ha)). by rewrite Hi.
Qed.

Lemma load_slot_out m a slots i :
  Mem.blocks m !! a = Some (Mem.Slots slots) → slots !! i = None →
  Mem.load_slot (Some a) i m = Mem.Undef.
Proof.
  intros Ha Hi. unfold Mem.load_slot.
  rewrite (bind_Ret _ _ _ _ _ (load_eq _ _ _ Ha)). by rewrite Hi.
Qed.

Lemma node_ptr_eq m gp ap n slots i q :
  Mem.blocks m !! gp = Some (Mem.GraphBlk n (Some ap)) →
  Mem.blocks m !! ap = Some (Mem.Slots slots) → slots !! i = Some q →
  Mem.node_ptr (Some gp) i m = Mem.Ret q m.
Proof.
  intros Hgp Hap Hi. unfold Mem.node_ptr.
  rewrite (bind_Ret _ _ _ _ _ (load_graph_eq _ _ _ _ Hgp)). simpl.
  by eapply load_slot_eq.
Qed.

Lemma node_ptr_out m gp ap n slots i :
  Mem.blocks m !! gp = Some (Mem.GraphBlk n (Some ap)) →
  Mem.blocks m !! ap = Some (Mem.Slots slots) → slots !! i = None →
  Mem.node_ptr (Some gp) i m = Mem.Undef.
Proof.
  intros Hgp Hap Hi. unfold Mem.node_ptr.
  rewrite (bind_Ret _ _ _ _ _ (load_graph_eq _ _ _ _ Hgp)). simpl.
  by eapply load_slot_out.
Qed.

Lemma store_slot_eq m a slots i q :
  Mem.blocks m !! a = Some (Mem.Slots slots) → i < length slots →
  Mem.store_slot (Some a) i q m
  = Mem.Ret ()
      (Mem.with_blocks m (<[a := Mem.Slots (<[i := q]> slots)]> (Mem.blocks m))).
Proof.
  intros Ha Hi. unfold Mem.store_slot.
  rewrite (bind_Ret _ _ _ _ _ (load_eq _ _ _ Ha)).
  rewrite decide_True by done. by eapply store_eq.
Qed.

Lemma store_slot_out m a slots i q :
  Mem.blocks m !! a = Some (Mem.Slots slots) → length slots ≤ i →
  Mem.store_slot (Some a) i q m = Mem.Undef.
Proof.
  intros Ha Hi. unfold Mem.store_slot.
  rewrite (bind_Ret _ _ _ _ _ (load_eq _ _ _ Ha)).
  rewrite decide_False by lia. done.
Qed.

(** What [node_create] does to the memory of a graph. *)
Lemma node_create_mem m gp ap lay g i name lat lon r :
  Mem.rep_at m gp ap lay g → i < length lay → Mem.room m = S r →
  ∃ np,
    Mem.blocks m !! np = None ∧
    Mem.node_create (Some gp) i name lat lon m
    = Mem.Ret ()
        {| Mem.blocks :=
             <[ap := Mem.Slots (<[i := Some np]> (Mem.slot_ptr <$> lay))]>
               (<[np := Mem.NodeBlk
                          (Mem.node_block (new_node i name lat lon) None None)]>
                  (Mem.blocks m));
           Mem.room := r; Mem.out := Mem.out m; Mem.err := Mem.err m |}.
Proof.
  intros (Hne & Hgp_lay & Hap_lay & Hnd & Hgp & Hap & Hall) Hi Hroom.
  set (np := base.fresh (dom (Mem.blocks m))).
  assert (Mem.blocks m !! np = None) as Hnp by apply malloc_fresh.
  assert (np ≠ gp) as Hnp_gp by (intros Heq; rewrite Heq in Hnp; congruence).
  assert (np ≠ ap) as Hnp_ap by (intros Heq; rewrite Heq in Hnp; congruence).
  exists np. split; [done|]. unfold Mem.node_create.
  rewrite (bind_Ret _ _ _ _ _ (malloc_room _ _ Hroom)). fold np.
  erewrite bind_Ret; cycle 1.
  { eapply store_eq. simpl. apply lookup_insert_eq. }
  erewrite bind_Ret; cycle 1.
  { eapply load_graph_eq. simpl. rewrite !lookup_insert_ne by done.
    exact Hgp. }
  simpl. erewrite store_slot_eq; cycle 1.
  { simpl. rewrite !lookup_insert_ne by done. exact Hap. }
  { by rewrite length_fmap. }
  unfold Mem.with_blocks. simpl. by rewrite insert_insert_eq.
Qed.

(** [node_create] on an empty slot. *)
Lemma node_create_spec m gp ap lay g i name lat lon r :
  Mem.rep_at m gp ap lay g → nodes g !! i = Some None → Mem.room m = S r →
  ∃ np m',
    Mem.node_create (Some gp) i name lat lon m = Mem.Ret () m' ∧
    Mem.blocks m !! np = None ∧
    Mem.rep_at m' gp ap (<[i := Some (np, [])]> lay)
      (set_node g i (new_node i name lat lon)) ∧
    (∀ a, a ≠ np → a ≠ ap → Mem.blocks m' !! a = Mem.blocks m !! a) ∧
    Mem.room m' = r ∧ Mem.out m' = Mem.out m ∧ Mem.err m' = Mem.err m.
Proof.
  intros Hrep Hslot Hroom.
  pose proof (rep_at_length _ _ _ _ _ Hrep) as Hlen.
  pose proof (lookup_lt_Some _ _ _ Hslot) as Hi. rewrite <- Hlen in Hi.
  destruct (node_create_mem _ _ _ _ _ i name lat lon r Hrep Hi Hroom)
    as (np & Hnp & Hcreate).
  destruct (lay !! i) as [o|] eqn:Hlay_i; cycle 1.
  { apply lookup_ge_None in Hlay_i. lia. }
  pose proof (rep_at_slot _ _ _ _ _ _ _ _ Hrep Hlay_i Hslot) as Ho.
  destruct o as [[? ?]|]; [done|]. clear Ho.
  pose proof Hrep as (Hne & Hgp_lay & Hap_lay & Hnd & Hgp & Hap & Hall).
  assert (np ≠ gp) as Hnp_gp by (intros Heq; rewrite Heq in Hnp; congruence).
  assert (np ≠ ap) as Hnp_ap by (intros Heq; rewrite Heq in Hnp; congruence).
  assert (np ∉ Mem.layout_addrs lay) as Hnp_lay.
  { intros [b Hb]%(rep_at_allocated _ _ _ _ _ _ Hrep). congruence. }
  exists np. eexists. split; [done|]. unfold Mem.rep_at. simpl.
  split; [done|]. split; [|split; [|done]].
  - split; [done|]. split; [|split; [|split; [|split; [|split]]]].
    + intros [Hin|Hin]%elem_of_layout_insert; [|done..].
      simpl in Hin. apply list_elem_of_singleton in Hin. congruence.
    + intros [Hin|Hin]%elem_of_layout_insert; [|done..].
      simpl in Hin. apply list_elem_of_singleton in Hin. congruence.
    + eapply layout_insert_NoDup; [done..| |].
      * simpl. apply NoDup_singleton.
      * intros x Hx. simpl in Hx. apply list_elem_of_singleton in Hx as ->.
        by right.
    + simpl. by rewrite !lookup_insert_ne.
    + simpl. rewrite lookup_insert_eq. by rewrite list_fmap_insert.
    + simpl. apply Forall2_same_length_lookup_2.
      { by rewrite !length_insert. }
      intros j o n Hj Hn. destruct (decide (j = i)) as [->|Hji].
      * rewrite list_lookup_insert_eq in Hj by done.
        rewrite list_lookup_insert_eq in Hn by lia. simplify_eq. simpl.
        exists None, None. split; [|done].
        rewrite lookup_insert_ne by done. by rewrite lookup_insert_eq.
      * rewrite list_lookup_insert_ne in Hj by done.
        rewrite list_lookup_insert_ne in Hn by done.
        eapply node_rep_frame; [| |by eapply rep_at_slot].
        -- intros a Ha.
           assert (a ∈ Mem.layout_addrs lay) as Hin.
           { apply elem_of_layout_addrs. by exists j, o. }
           rewrite !lookup_insert_ne; [done|by intros <-..].
        -- intros k o1 Hk. exists o1. split; [|done].
           rewrite list_lookup_insert_ne; [done|]. intros <-. congruence.
  - intros a Ha1 Ha2. by rewrite !lookup_insert_ne.
Qed.

Lemma node_block_neighbors nd lp pp l lp' :
  Mem.with_b_neighbors (Mem.node_block nd lp pp) lp'
  = Mem.node_block (with_neighbors nd l) lp' pp.
Proof. done. Qed.

(** [graph->nodes[i]->neighbors = insert (graph->nodes[i]->neighbors, val)]
    on a node of a graph, with room for the new cell. *)
Lemma insert_neighbor_spec m gp ap lay g i nd val r :
  Mem.rep_at m gp ap lay g → node_at g i = Some nd → Mem.room m = S r →
  ∃ np cs new m',
    lay !! i = Some (Some (np, cs)) ∧
    Mem.insert_neighbor (Some gp) i val m = Mem.Ret () m' ∧
    Mem.blocks m !! new = None ∧
    Mem.rep_at m' gp ap (<[i := Some (np, cs ++ [new])]> lay)
      (set_node g i (with_neighbors nd (insert (neighbors nd) val))) ∧
    (∀ a, a ∉ Mem.layout_addrs lay → a ≠ new →
          Mem.blocks m' !! a = Mem.blocks m !! a) ∧
    Mem.room m' = r ∧ Mem.out m' = Mem.out m ∧ Mem.err m' = Mem.err m.
Proof.
  intros Hrep Hnd Hroom.
  destruct (rep_at_node _ _ _ _ _ _ _ Hrep Hnd)
    as (np & cs & lp & pp & Hlay_i & Hnp & Hcells & Hpar).
  pose proof Hrep as (Hne & Hgp_lay & Hap_lay & Hnodup & Hgp & Hap & Hall).
  pose proof (lookup_lt_Some _ _ _ Hlay_i) as Hi.
  pose proof (rep_at_length _ _ _ _ _ Hrep) as Hlen.
  assert ((Mem.slot_ptr <$> lay) !! i = Some (Some np)) as Hslot.
  { by rewrite list_lookup_fmap, Hlay_i. }
  assert (∀ a, a ∈ np :: cs → a ∈ Mem.layout_addrs lay) as Hin_lay.
  { intros a Ha. apply elem_of_layout_addrs. by exists i, (Some (np, cs)). }
  pose proof (layout_slot_NoDup _ _ _ Hnodup Hlay_i) as Hnd_slot.
  simpl in Hnd_slot. apply NoDup_cons in Hnd_slot as [Hnp_cs Hnd_cs].
  pose proof (insert_spec m lp (neighbors nd) cs val Hcells) as Hins.
  rewrite Hroom in Hins.
  destruct Hins as (new & m1 & Hins & Hnew & Hcells1 & Hframe1 & Hroom1 & Hout1 & Herr1).
  set (lp' := if lp is Some _ then lp else Some new) in *.
  assert (new ∉ Mem.layout_addrs lay) as Hnew_lay.
  { intros [b Hb]%(rep_at_allocated _ _ _ _ _ _ Hrep). congruence. }
  assert (new ≠ gp) as Hnew_gp by (intros Heq; rewrite Heq in Hnew; congruence).
  assert (new ≠ ap) as Hnew_ap by (intros Heq; rewrite Heq in Hnew; congruence).
  assert (new ≠ np) as Hnew_np by (intros Heq; rewrite Heq in Hnew; congruence).
  assert (gp ∉ cs) as Hgp_cs by (intros ?; apply Hgp_lay, Hin_lay; by right).
  assert (ap ∉ cs) as Hap_cs by (intros ?; apply Hap_lay, Hin_lay; by right).
  assert (gp ≠ np) as Hgp_np by (intros ->; apply Hgp_lay, Hin_lay; by left).
  assert (ap ≠ np) as Hap_np by (intros ->; apply Hap_lay, Hin_lay; by left).
  exists np, cs, new. eexists. split; [done|].
  unfold Mem.insert_neighbor.
  rewrite (bind_Ret _ _ _ _ _ (node_ptr_eq _ _ _ _ _ _ _ Hgp Hap Hslot)).
  rewrite (bind_Ret _ _ _ _ _ (load_node_eq _ _ _ Hnp)). simpl.
  rewrite (bind_Ret _ _ _ _ _ Hins).
  erewrite bind_Ret; cycle 1.
  { eapply node_ptr_eq; [| |exact Hslot].
    - rewrite Hframe1 by done. exact Hgp.
    - rewrite Hframe1 by done. exact Hap. }
  erewrite bind_Ret; cycle 1.
  { eapply load_node_eq. rewrite Hframe1 by done. exact Hnp. }
  erewrite store_eq; cycle 1.
  { rewrite Hframe1 by done. exact Hnp. }
  split; [done|]. unfold Mem.rep_at, Mem.with_blocks. simpl.
  split; [done|]. split; [|split; [|by rewrite Hroom1, Hout1, Herr1]].
  - split; [done|]. split; [|split; [|split; [|split; [|split]]]].
    + intros [Hin|Hin]%elem_of_layout_insert; [|done..].
      simpl in Hin. rewrite app_comm_cons, elem_of_app in Hin.
      destruct Hin as [Hin|Hin%list_elem_of_singleton];
        [by apply Hgp_lay, Hin_lay | done].
    + intros [Hin|Hin]%elem_of_layout_insert; [|done..].
      simpl in Hin. rewrite app_comm_cons, elem_of_app in Hin.
      destruct Hin as [Hin|Hin%list_elem_of_singleton];
        [by apply Hap_lay, Hin_lay | done].
    + eapply layout_insert_NoDup; [done..| |].
      * simpl. rewrite app_comm_cons. apply NoDup_app.
        split; [by constructor|]. split; [|apply NoDup_singleton].
        intros x Hx ->%list_elem_of_singleton. by apply Hnew_lay, Hin_lay.
      * intros x Hx. simpl in Hx. rewrite app_comm_cons, elem_of_app in Hx.
        destruct Hx as [Hx|Hx%list_elem_of_singleton]; [by left|].
        right. by subst x.
    + rewrite lookup_insert_ne by done. rewrite Hframe1 by done. exact Hgp.
    + rewrite lookup_insert_ne by done. rewrite Hframe1 by done.
      rewrite Hap. do 2 f_equal. rewrite list_fmap_insert. simpl.
      symmetry. by apply list_insert_id.
    + apply Forall2_same_length_lookup_2.
      { by rewrite !length_insert. }
      intros j o n Hj Hn. destruct (decide (j = i)) as [->|Hji].
      * rewrite list_lookup_insert_eq in Hj by done.
        rewrite list_lookup_insert_eq in Hn by lia. simplify_eq. simpl.
        exists lp', pp. split; [|split].
        -- by rewrite lookup_insert_eq.
        -- eapply cells_frame; [|exact Hcells1].
           intros a Ha. rewrite lookup_insert_ne; [done|].
           intros <-. apply elem_of_app in Ha as [Ha|Ha%list_elem_of_singleton];
             [done | congruence].
        -- unfold Mem.parent_rep in *. destruct (parent nd) as [k|]; [|done].
           destruct Hpar as (o1 & Hk & ->).
           destruct (decide (k = i)) as [->|Hki].
           ++ rewrite list_lookup_insert_eq by done. eexists. split; [done|].
              by simplify_eq.
           ++ rewrite list_lookup_insert_ne by done. by exists o1.
      * rewrite list_lookup_insert_ne in Hj by done.
        rewrite list_lookup_insert_ne in Hn by done.
        eapply node_rep_frame; [| |by eapply rep_at_slot].
        -- intros a Ha.
           assert (a ∈ Mem.layout_addrs lay) as Hin.
           { apply elem_of_layout_addrs. by exists j, o. }
           assert (a ∉ np :: cs) as Hnot.
           { intros Ha'. apply Hji.
             by apply (layout_slots_disjoint lay j i o (Some (np, cs)) a). }
           apply not_elem_of_cons in Hnot as [Ha_np Ha_cs].
           rewrite lookup_insert_ne by done. apply Hframe1; [done|].
           by intros ->.
        -- intros k o1 Hk. destruct (decide (k = i)) as [->|Hki].
           ++ rewrite list_lookup_insert_eq by done. eexists. split; [done|].
              by simplify_eq.
           ++ rewrite list_lookup_insert_ne by done. by exists o1.
  - intros a Ha Hanew.
    assert (a ≠ np) as Ha_np by (intros ->; apply Ha, Hin_lay; by left).
    rewrite lookup_insert_ne by done. apply Hframe1; [|done].
    intros Hin. apply Ha, Hin_lay. by right.
Qed.

Lemma insert_neighbor_undef m gp ap lay g i val :
  Mem.rep_at m gp ap lay g → node_at g i = None →
  Mem.insert_neighbor (Some gp) i val m = Mem.Undef.
Proof.
  intros Hrep Hnd.
  pose proof Hrep as (_ & _ & _ & _ & Hgp & Hap & Hall).
  unfold Mem.insert_neighbor.
  destruct (lay !! i) as [o|] eqn:Hlay_i.
  - destruct (nodes g !! i) as [n|] eqn:Hn; cycle 1.
    { apply lookup_ge_None in Hn. apply lookup_lt_Some in Hlay_i.
      rewrite (rep_at_length _ _ _ _ _ Hrep) in Hlay_i. lia. }
    pose proof (rep_at_slot _ _ _ _ _ _ _ _ Hrep Hlay_i Hn) as Hnode.
    unfold node_at in Hnd. rewrite Hn in Hnd.
    destruct n as [nd|]; [done|]. destruct o as [[np cs]|]; [done|].
    erewrite bind_Ret; cycle 1.
    { eapply node_ptr_eq; [done..|]. by rewrite list_lookup_fmap, Hlay_i. }
    done.
  - apply bind_Undef. eapply node_ptr_out; [done..|].
    by rewrite list_lookup_fmap, Hlay_i.
Qed.

Lemma insert_neighbor_no_room m gp ap lay g i nd val :
  Mem.rep_at m gp ap lay g → node_at g i = Some nd → Mem.room m = 0 →
  Mem.insert_neighbor (Some gp) i val m = Mem.Exit 1 (Mem.out_of_space m).
Proof.
  intros Hrep Hnd Hroom.
  destruct (rep_at_node _ _ _ _ _ _ _ Hrep Hnd)
    as (np & cs & lp & pp & Hlay_i & Hnp & Hcells & Hpar).
  pose proof Hrep as (_ & _ & _ & _ & Hgp & Hap & Hall).
  unfold Mem.insert_neighbor.
  erewrite bind_Ret; cycle 1.
  { eapply node_ptr_eq; [done..|]. by rewrite list_lookup_fmap, Hlay_i. }
  rewrite (bind_Ret _ _ _ _ _ (load_node_eq _ _ _ Hnp)). simpl.
  pose proof (insert_spec m lp (neighbors nd) cs val Hcells) as Hins.
  rewrite Hroom in Hins. by rewrite (bind_Exit _ _ _ _ _ Hins).
Qed.

(** The two steps of the model [add_edge]. *)
Lemma add_edge_Ok_steps g a b g' :
  add_edge g a b = Ok g' →
  ∃ na nb,
    node_at g a = Some na ∧
    node_at (set_node g a (with_neighbors na (insert (neighbors na) b))) b
    = Some nb ∧
    g' = set_node (set_node g a (with_neighbors na (insert (neighbors na) b)))
           b (with_neighbors nb (insert (neighbors nb) a)).
Proof.
  unfold add_edge.
  intros (na & Hna%get_node_Ok & Hadd)%obind_Ok. simpl in Hadd.
  apply obind_Ok in Hadd as (nb & Hnb%get_node_Ok & [= <-]).
  by exists na, nb.
Qed.

Lemma add_edge_spec m gp ap lay g a b g' r :
  Mem.rep_at m gp ap lay g → add_edge g a b = Ok g' →
  Mem.room m = S (S r) →
  ∃ lay' m',
    Mem.add_edge (Some gp) a b m = Mem.Ret () m' ∧
    Mem.rep_at m' gp ap lay' g' ∧
    (∀ x, is_Some (Mem.blocks m !! x) → x ∉ Mem.layout_addrs lay →
          Mem.blocks m' !! x = Mem.blocks m !! x) ∧
    Mem.room m' = r ∧ Mem.out m' = Mem.out m ∧ Mem.err m' = Mem.err m.
Proof.
  intros Hrep (na & nb & Hna & Hnb & ->)%add_edge_Ok_steps Hroom.
  destruct (insert_neighbor_spec _ _ _ _ _ _ _ b _ Hrep Hna Hroom)
    as (np1 & cs1 & new1 & m1 & Hlay1 & Hins1 & Hnew1 & Hrep1 & Hframe1
        & Hroom1 & Hout1 & Herr1).
  destruct (insert_neighbor_spec _ _ _ _ _ _ _ a _ Hrep1 Hnb Hroom1)
    as (np2 & cs2 & new2 & m2 & Hlay2 & Hins2 & Hnew2 & Hrep2 & Hframe2
        & Hroom2 & Hout2 & Herr2).
  eexists _, m2. unfold Mem.add_edge.
  rewrite (bind_Ret _ _ _ _ _ Hins1). split; [done|]. split; [done|].
  split; [|by rewrite Hroom2, Hout2, Herr2, Hout1, Herr1].
  intros x [bx Hx] Hx_lay.
  assert (x ≠ new1) as Hx1 by (intros ->; congruence).
  assert (Mem.blocks m1 !! x = Mem.blocks m !! x) as Hm1 by by apply Hframe1.
  rewrite <- Hm1. apply Hframe2.
  - intros [Hin|Hin]%elem_of_layout_insert; [|done|by eapply lookup_lt_Some].
    simpl in Hin. rewrite app_comm_cons, elem_of_app in Hin.
    destruct Hin as [Hin|Hin%list_elem_of_singleton]; [|done].
    apply Hx_lay, elem_of_layout_addrs. by exists a, (Some (np1, cs1)).
  - intros ->. congruence.
Qed.

Lemma add_edge_undef m gp ap lay g a b :
  Mem.rep_at m gp ap lay g → add_edge g a b = Fault → 1 ≤ Mem.room m →
  Mem.add_edge (Some gp) a b m = Mem.Undef.
Proof.
  intros Hrep Hfault Hroom. unfold Mem.add_edge.
  destruct (node_at g a) as [na|] eqn:Hna; cycle 1.
  { apply bind_Undef. by eapply insert_neighbor_undef. }
  destruct (Mem.room m) as [|r] eqn:Hr; [lia|].
  destruct (insert_neighbor_spec _ _ _ _ _ _ _ b _ Hrep Hna Hr)
    as (np1 & cs1 & new1 & m1 & Hlay1 & Hins1 & Hnew1 & Hrep1 & _).
  rewrite (bind_Ret _ _ _ _ _ Hins1).
  eapply insert_neighbor_undef; [done|].
  unfold add_edge in Hfault. rewrite (get_node_at _ _ _ Hna) in Hfault.
  simpl in Hfault. unfold get_node in Hfault.
  by destruct (node_at _ b).
Qed.

(** ** Freeing a graph *)

Section graph_free.
Variables (m0 : Mem.mem) (gp ap : nat) (lay : Mem.layout) (g : graph_t).
Hypothesis Hrep : Mem.rep_at m0 gp ap lay g.
Hypothesis Hlen : length (nodes g) = num_nodes g.


Lemma graph_free_loop_spec k :
  ∀ i m fuel,
    i + k = length lay → Mem.freed_upto m0 lay i m → k < fuel →
    ∃ m', Mem.graph_free_loop fuel (Some gp) i m = Mem.Ret () m' ∧
          Mem.freed_upto m0 lay (length lay) m'.
Proof.
  pose proof Hrep as (Hne & Hgp_lay & Hap_lay & Hnodup & Hgp & Hap & Hall).
  pose proof (rep_at_length _ _ _ _ _ Hrep) as Hlay_len.
  assert (∀ i x, x ∈ Mem.layout_addrs (take i lay) → x ∈ Mem.layout_addrs lay)
    as Htake.
  { intros i x (j & o & Hj & Hx)%elem_of_layout_addrs.
    apply lookup_take_Some in Hj as [Hj _].
    apply elem_of_layout_addrs. by exists j, o. }
  assert (∀ i m x, Mem.freed_upto m0 lay i m → x ∉ Mem.layout_addrs lay →
            Mem.blocks m !! x = Mem.blocks m0 !! x) as Houtside.
  { intros i m x (Hblocks & _) Hx. rewrite Hblocks.
    rewrite decide_False; [done|]. intros Hin. by apply Hx, (Htake i). }
  induction k as [|k IH]; intros i m fuel Hik Hfreed Hfuel;
    (destruct fuel as [|fuel]; [lia|]); simpl.
  - erewrite bind_Ret; cycle 1.
    { eapply load_graph_eq. rewrite (Houtside i) by done. exact Hgp. }
    simpl. rewrite decide_False by lia. exists m. split; [done|].
    by replace (length lay) with i by lia.
  - erewrite bind_Ret; cycle 1.
    { eapply load_graph_eq. rewrite (Houtside i) by done. exact Hgp. }
    simpl. rewrite decide_True by lia.
    destruct (lay !! i) as [o|] eqn:Hlay_i; cycle 1.
    { apply lookup_ge_None in Hlay_i. lia. }
    destruct (nodes g !! i) as [n|] eqn:Hn; cycle 1.
    { apply lookup_ge_None in Hn. lia. }
    pose proof (rep_at_slot _ _ _ _ _ _ _ _ Hrep Hlay_i Hn) as Hnode.
    assert (∀ x, x ∈ Mem.slot_addrs o →
              x ∉ Mem.layout_addrs (take i lay)) as Hfresh.
    { intros x Hx (j & oj & Hj & Hxj)%elem_of_layout_addrs.
      apply lookup_take_Some in Hj as [Hj Hji].
      assert (j = i); [|lia].
      by apply (layout_slots_disjoint lay j i oj o x). }
    erewrite bind_Ret; cycle 1.
    { eapply node_ptr_eq.
      - rewrite (Houtside i) by done. exact Hgp.
      - rewrite (Houtside i) by done. exact Hap.
      - by rewrite list_lookup_fmap, Hlay_i. }
    destruct o as [[np cs]|], n as [nd|]; simpl in Hnode; try done; simpl.
    + destruct Hnode as (lp & pp & Hnp & Hcells & _).
      destruct Hfreed as (Hblocks & Hroom & Hout & Herr).
      assert (∀ x, x ∈ np :: cs → Mem.blocks m !! x = Mem.blocks m0 !! x)
        as Hslot.
      { intros x Hx. rewrite Hblocks. rewrite decide_False; [done|].
        by apply Hfresh. }
      pose proof (layout_slot_NoDup _ _ _ Hnodup Hlay_i) as Hnd_slot.
      simpl in Hnd_slot. apply NoDup_cons in Hnd_slot as [Hnp_cs Hnd_cs].
      assert (∀ x, x ∈ np :: cs → x ∈ Mem.layout_addrs lay) as Hin_lay.
      { intros x Hx. apply elem_of_layout_addrs.
        by exists i, (Some (np, cs)). }
      assert (Mem.cells (Mem.blocks m) lp (neighbors nd) cs) as Hcells_m.
      { eapply cells_frame; [|done]. intros x Hx. apply Hslot. by right. }
      destruct (free_list_spec _ _ _ _ Hcells_m)
        as (m1 & Hfree & Hblocks1 & Hroom1 & Hout1 & Herr1).
      assert (Mem.blocks m1 !! gp = Mem.blocks m0 !! gp) as Hgp1.
      { rewrite Hblocks1. rewrite decide_False.
        - apply (Houtside i); [|done]. by split.
        - intros Hin. apply Hgp_lay, Hin_lay. by right. }
      assert (Mem.blocks m1 !! ap = Mem.blocks m0 !! ap) as Hap1.
      { rewrite Hblocks1. rewrite decide_False.
        - apply (Houtside i); [|done]. by split.
        - intros Hin. apply Hap_lay, Hin_lay. by right. }
      assert (Mem.blocks m1 !! np = Mem.blocks m0 !! np) as Hnp1.
      { rewrite Hblocks1. rewrite decide_False by done.
        apply Hslot. by left. }
      erewrite bind_Ret; cycle 1.
      { erewrite bind_Ret; cycle 1.
        { eapply load_node_eq. rewrite Hslot; [exact Hnp | by left]. }
        simpl. rewrite (bind_Ret _ _ _ _ _ Hfree).
        erewrite bind_Ret; cycle 1.
        { eapply node_ptr_eq.
          - rewrite Hgp1. exact Hgp.
          - rewrite Hap1. exact Hap.
          - by rewrite list_lookup_fmap, Hlay_i. }
        simpl. eapply free_eq. rewrite Hnp1. exact Hnp. }
      apply (IH (S i)); [lia| |lia]. unfold Mem.freed_upto.
      rewrite (layout_addrs_take_S _ _ _ Hlay_i). simpl.
      split; [|split; [|by rewrite Hout1, Herr1]]; simpl.
      * intros x. destruct (decide (x = np)) as [->|Hx_np].
        -- rewrite lookup_delete_eq. rewrite decide_True; [done|].
           apply elem_of_app. right. by left.
        -- rewrite lookup_delete_ne by done. rewrite Hblocks1, Hblocks.
           repeat case_decide; try done; exfalso;
             rewrite elem_of_app, elem_of_cons in *; naive_solver.
      * rewrite length_app. simpl. lia.
    + (* an empty slot *)
      unfold Mem.bind at 1, Mem.free.
      apply (IH (S i)); [lia| |lia]. unfold Mem.freed_upto.
      rewrite (layout_addrs_take_S _ _ _ Hlay_i). simpl.
      by rewrite app_nil_r.
Qed.

Lemma graph_free_spec :
  ∃ m',
    Mem.graph_free (Some gp) m0 = Mem.Ret () m' ∧
    (∀ x, Mem.blocks m' !! x
          = if decide (x = gp ∨ x ∈ Mem.layout_addrs lay) then None
            else Mem.blocks m0 !! x) ∧
    Mem.room m' = Mem.room m0 + S (length (Mem.layout_addrs lay)) ∧
    Mem.out m' = Mem.out m0 ∧ Mem.err m' = Mem.err m0.
Proof.
  pose proof Hrep as (Hne & Hgp_lay & Hap_lay & Hnodup & Hgp & Hap & Hall).
  pose proof (rep_at_length _ _ _ _ _ Hrep) as Hlay_len.
  unfold Mem.graph_free.
  rewrite (bind_Ret _ _ _ _ _ (load_graph_eq _ _ _ _ Hgp)). simpl.
  destruct (graph_free_loop_spec (length lay) 0 m0 (S (num_nodes g)))
    as (m1 & Hloop & Hblocks & Hroom & Hout & Herr); [done| |lia|].
  { split; [|split; [|done]].
    - intros x. rewrite take_0. rewrite decide_False; [done|].
      apply not_elem_of_nil.
    - rewrite take_0. simpl. lia. }
  rewrite (bind_Ret _ _ _ _ _ Hloop).
  rewrite firstn_all in Hblocks, Hroom.
  erewrite free_eq; cycle 1.
  { rewrite Hblocks. rewrite decide_False by done. exact Hgp. }
  eexists. split; [done|]. simpl. split; [|split; [lia|done]].
  intros x. destruct (decide (x = gp)) as [->|Hx].
  - rewrite lookup_delete_eq. rewrite decide_True; [done | by left].
  - rewrite lookup_delete_ne by done. rewrite Hblocks.
    repeat case_decide; naive_solver.
Qed.

End graph_free.

(** ** The memory of [segment] *)

Lemma segment_rep : Mem.rep_at Mem.segment_mem 0 1 Mem.segment_layout segment.
Proof.
  split; [lia|]. split; [by apply (bool_decide_unpack _)|].
  split; [by apply (bool_decide_unpack _)|].
  split; [by apply (bool_decide_unpack _)|].
  split; [by vm_compute|]. split; [by vm_compute|].
  repeat constructor.
  - exists (Some 4), None. split; [by vm_compute|]. split; [|done].
    split; [done|]. exists None. split; [by vm_compute | done].
  - exists (Some 5), None. split; [by vm_compute|]. split; [|done].
    split; [done|]. exists None. split; [by vm_compute | done].
Qed.

Lemma segment_cells :
  Mem.cells (Mem.blocks Mem.segment_mem) (Some 4) [1] [4].
Proof. split; [done|]. exists None. split; [by vm_compute | done]. Qed.

(** ** The functions on lists *)

(** X19.  In memory, [insert] does what it does on lists: given a
    well-formed linked list it returns the same head (the new cell, for
    the empty list), the memory then holds the list with the value
    appended in one new cell after the last one, and no other block is
    touched; when [malloc] fails it exits through [null_terminate]. *)
Theorem mem_insert_refines m p l addrs val :
  Mem.cells (Mem.blocks m) p l addrs →
  match Mem.room m with
  | 0 => Mem.insert p val m = Mem.Exit 1 (Mem.out_of_space m)
  | S r =>
      ∃ new m',
        Mem.insert p val m
        = Mem.Ret (if p is Some _ then p else Some new) m' ∧
        Mem.blocks m !! new = None ∧
        Mem.cells (Mem.blocks m') (if p is Some _ then p else Some new)
          (insert l val) (addrs ++ [new]) ∧
        (∀ a, a ∉ addrs → a ≠ new → Mem.blocks m' !! a = Mem.blocks m !! a) ∧
        Mem.room m' = r ∧ Mem.out m' = Mem.out m ∧ Mem.err m' = Mem.err m
  end.
Proof. apply insert_spec. Qed.

Lemma mem_insert_refines_witness :
  Mem.cells (Mem.blocks Mem.segment_mem) (Some 4) [1] [4] ∧
  ∃ new m',
    Mem.insert (Some 4) 7 Mem.segment_mem = Mem.Ret (Some 4) m' ∧
    Mem.blocks Mem.segment_mem !! new = None ∧
    Mem.cells (Mem.blocks m') (Some 4) (insert [1] 7) ([4] ++ [new]) ∧
    (∀ a, a ∉ [4] → a ≠ new →
          Mem.blocks m' !! a = Mem.blocks Mem.segment_mem !! a) ∧
    Mem.room m' = 1 ∧ Mem.out m' = Mem.out Mem.segment_mem ∧
    Mem.err m' = Mem.err Mem.segment_mem.
Proof.
  split; [exact segment_cells|].
  exact (mem_insert_refines Mem.segment_mem (Some 4) [1] [4] 7 segment_cells).
Defined.

(** X20.  [free_list] on a well-formed linked list returns, frees exactly
    the cells of the list and leaves every other block as it was; to
    free a list that is not empty a second time reads a freed cell. *)
Theorem mem_free_list_frees m p l addrs :
  Mem.cells (Mem.blocks m) p l addrs →
  ∃ m',
    Mem.free_list p m = Mem.Ret () m' ∧
    (∀ a, Mem.blocks m' !! a
          = if decide (a ∈ addrs) then None else Mem.blocks m !! a) ∧
    Mem.room m' = Mem.room m + length addrs ∧
    Mem.out m' = Mem.out m ∧ Mem.err m' = Mem.err m ∧
    (p ≠ None → Mem.free_list p m' = Mem.Undef).
Proof.
  intros Hcells.
  destruct (free_list_spec _ _ _ _ Hcells)
    as (m' & Hfree & Hblocks & Hroom & Hout & Herr).
  exists m'. do 5 (split; [done|]). intros Hp.
  destruct l as [|val l], addrs as [|a addrs]; try done.
  destruct Hcells as [-> _].
  unfold Mem.free_list. rewrite (bind_Ret _ _ _ _ _ (budget_eq m')).
  simpl. apply bind_Undef. unfold Mem.load_cell. apply bind_Undef.
  unfold Mem.load. rewrite Hblocks, decide_True; [done | by left].
Qed.

Lemma mem_free_list_frees_witness :
  Mem.cells (Mem.blocks Mem.segment_mem) (Some 4) [1] [4] ∧
  ∃ m',
    Mem.free_list (Some 4) Mem.segment_mem = Mem.Ret () m' ∧
    (∀ a, Mem.blocks m' !! a
          = if decide (a ∈ [4]) then None
            else Mem.blocks Mem.segment_mem !! a) ∧
    Mem.room m' = Mem.room Mem.segment_mem + length [4] ∧
    Mem.out m' = Mem.out Mem.segment_mem ∧
    Mem.err m' = Mem.err Mem.segment_mem ∧
    (Some 4 ≠ None → Mem.free_list (Some 4) m' = Mem.Undef).
Proof.
  split; [exact segment_cells|].
  exact (mem_free_list_frees Mem.segment_mem (Some 4) [1] [4] segment_cells).
Defined.

(** X21.  [print_list] on a well-formed linked list writes one line per
    element to [stdout], in the order of the list, and changes nothing
    else; the lines written tell the list. *)
Theorem mem_print_list_prints m p l addrs :
  Mem.cells (Mem.blocks m) p l addrs →
  Mem.print_list p m
  = Mem.Ret ()
      {| Mem.blocks := Mem.blocks m; Mem.room := Mem.room m;
         Mem.out := Mem.out m ++ (Mem.neighbor_line <$> l);
         Mem.err := Mem.err m |} ∧
  ∀ l', Mem.neighbor_line <$> l' = Mem.neighbor_line <$> l → l' = l.
Proof.
  intros Hcells. split.
  - unfold Mem.print_list. rewrite (bind_Ret _ _ _ _ _ (budget_eq m)).
    apply (print_list_rec_spec _ _ _ _ addrs); [done|].
    pose proof (cells_fuel _ _ _ _ Hcells). lia.
  - intros l'. pose proof neighbor_line_inj. apply (inj (fmap Mem.neighbor_line)).
Qed.

Lemma mem_print_list_prints_witness :
  Mem.cells (Mem.blocks Mem.segment_mem) (Some 4) [1] [4] ∧
  Mem.print_list (Some 4) Mem.segment_mem
  = Mem.Ret ()
      {| Mem.blocks := Mem.blocks Mem.segment_mem;
         Mem.room := Mem.room Mem.segment_mem;
         Mem.out := Mem.out Mem.segment_mem ++ (Mem.neighbor_line <$> [1]);
         Mem.err := Mem.err Mem.segment_mem |} ∧
  ∀ l', Mem.neighbor_line <$> l' = Mem.neighbor_line <$> [1] → l' = [1].
Proof.
  split; [exact segment_cells|].
  exact (mem_print_list_prints Mem.segment_mem (Some 4) [1] [4]
           segment_cells).
Defined.

(** ** Running out of memory *)

(** X22.  When [malloc] has no block left, [cons], [insert] on the empty
    list, [graph_create] and [node_create] end the program through
    [null_terminate]: [out of space] and a newline are written to
    [stderr] and the exit status is 1; the [NULL] that [malloc] returned
    is not dereferenced, and no block is changed. *)
Theorem mem_out_of_space m val next n graph i name lat lon :
  Mem.room m = 0 →
  Mem.null_terminate (A := unit) m = Mem.Exit 1 (Mem.out_of_space m) ∧
  Mem.cons val next m = Mem.Exit 1 (Mem.out_of_space m) ∧
  Mem.insert None val m = Mem.Exit 1 (Mem.out_of_space m) ∧
  Mem.graph_create n m = Mem.Exit 1 (Mem.out_of_space m) ∧
  Mem.node_create graph i name lat lon m = Mem.Exit 1 (Mem.out_of_space m) ∧
  Mem.blocks (Mem.out_of_space m) = Mem.blocks m ∧
  Mem.err (Mem.out_of_space m)
  = Mem.err m ++ ["out of space" +:+ Mem.newline].
Proof.
  intros Hroom. split; [done|]. split; [by apply cons_no_room|].
  split; [by apply cons_no_room|]. split; [|split; [|done]].
  - unfold Mem.graph_create.
    rewrite (bind_Ret _ _ _ _ _ (malloc_no_room _ Hroom)).
    by rewrite (bind_Ret _ _ _ _ _ (calloc_no_room _ _ Hroom)).
  - unfold Mem.node_create.
    by rewrite (bind_Ret _ _ _ _ _ (malloc_no_room _ Hroom)).
Qed.

Lemma mem_out_of_space_witness :
  Mem.room (Mem.empty 0) = 0 ∧
  Mem.null_terminate (A := unit) (Mem.empty 0)
  = Mem.Exit 1 (Mem.out_of_space (Mem.empty 0)) ∧
  Mem.cons 1 None (Mem.empty 0)
  = Mem.Exit 1 (Mem.out_of_space (Mem.empty 0)) ∧
  Mem.insert None 1 (Mem.empty 0)
  = Mem.Exit 1 (Mem.out_of_space (Mem.empty 0)) ∧
  Mem.graph_create 2 (Mem.empty 0)
  = Mem.Exit 1 (Mem.out_of_space (Mem.empty 0)) ∧
  Mem.node_create None 0 "city" 0 0 (Mem.empty 0)
  = Mem.Exit 1 (Mem.out_of_space (Mem.empty 0)) ∧
  Mem.blocks (Mem.out_of_space (Mem.empty 0)) = Mem.blocks (Mem.empty 0) ∧
  Mem.err (Mem.out_of_space (Mem.empty 0))
  = Mem.err (Mem.empty 0) ++ ["out of space" +:+ Mem.newline].
Proof.
  split; [done|].
  exact (mem_out_of_space (Mem.empty 0) 1 None 2 None 0 "city" 0 0 eq_refl).
Defined.

(** ** The construction interface *)

(** X23.  With room for two blocks, [graph_create] returns a pointer to a
    new [graph_t] whose memory is the graph that the model
    [graph_create] builds: the node count asked for and an array of that
    many [NULL] slots, in two blocks that were not allocated; nothing
    else changes.  With less room it exits with status 1 after writing
    [out of space] to [stderr]. *)
Theorem mem_graph_create_refines m n :
  match Mem.room m with
  | S (S r) =>
      ∃ gp ap m',
        Mem.graph_create n m = Mem.Ret (Some gp) m' ∧
        Mem.rep_at m' gp ap (replicate n None) (graph_create n) ∧
        Mem.blocks m !! gp = None ∧ Mem.blocks m !! ap = None ∧
        (∀ a, a ≠ gp → a ≠ ap → Mem.blocks m' !! a = Mem.blocks m !! a) ∧
        Mem.room m' = r ∧ Mem.out m' = Mem.out m ∧ Mem.err m' = Mem.err m
  | _ =>
      ∃ m', Mem.graph_create n m = Mem.Exit 1 m' ∧
            Mem.err m' = Mem.err m ++ ["out of space" +:+ Mem.newline] ∧
            Mem.out m' = Mem.out m
  end.
Proof.
  destruct (Mem.room m) as [|[|r]] eqn:Hroom.
  - apply graph_create_no_room. lia.
  - apply graph_create_no_room. lia.
  - by apply graph_create_spec.
Qed.

(** X24.  On the memory of a graph, [node_create] for a slot that holds no
    node does what the model [node_create] does: when the node number
    is within the array, the memory afterwards is that of the graph
    with the new node, which lies in a block that was not allocated;
    when it is not, the store into the array is out of bounds. *)
Theorem mem_node_create_refines m gp ap lay g i name lat lon :
  Mem.rep_at m gp ap lay g → node_at g i = None → 1 ≤ Mem.room m →
  match node_create g i name lat lon with
  | Ok g' =>
      ∃ np m',
        Mem.node_create (Some gp) i name lat lon m = Mem.Ret () m' ∧
        Mem.blocks m !! np = None ∧
        Mem.rep_at m' gp ap (<[i := Some (np, [])]> lay) g' ∧
        (∀ a, a ≠ np → a ≠ ap → Mem.blocks m' !! a = Mem.blocks m !! a) ∧
        S (Mem.room m') = Mem.room m ∧
        Mem.out m' = Mem.out m ∧ Mem.err m' = Mem.err m
  | _ => Mem.node_create (Some gp) i name lat lon m = Mem.Undef
  end.
Proof.
  intros Hrep Hnode Hroom.
  destruct (Mem.room m) as [|r] eqn:Hr; [lia|].
  pose proof (rep_at_length _ _ _ _ _ Hrep) as Hlen.
  unfold node_create. case_decide as Hi.
  - assert (nodes g !! i = Some None) as Hslot.
    { unfold node_at in Hnode.
      destruct (nodes g !! i) as [[nd|]|] eqn:Hn; [done|done|].
      apply lookup_ge_None in Hn. lia. }
    destruct (node_create_spec _ _ _ _ _ _ name lat lon _ Hrep Hslot Hr)
      as (np & m' & Hcreate & Hnp & Hrep' & Hframe & Hroom' & Hout & Herr).
    exists np, m'. rewrite Hroom'. repeat (split; [done|]). done.
  - pose proof Hrep as (_ & _ & _ & _ & Hgp & Hap & _).
    set (np := base.fresh (dom (Mem.blocks m))).
    assert (Mem.blocks m !! np = None) as Hnp by apply malloc_fresh.
    assert (np ≠ gp) as Hnp_gp by (intros Heq; rewrite Heq in Hnp; congruence).
    assert (np ≠ ap) as Hnp_ap by (intros Heq; rewrite Heq in Hnp; congruence).
    unfold Mem.node_create.
    rewrite (bind_Ret _ _ _ _ _ (malloc_room _ _ Hr)). fold np.
    erewrite bind_Ret; cycle 1.
    { eapply store_eq. simpl. apply lookup_insert_eq. }
    erewrite bind_Ret; cycle 1.
    { eapply load_graph_eq. simpl. rewrite !lookup_insert_ne by done.
      exact Hgp. }
    simpl. eapply store_slot_out.
    + simpl. rewrite !lookup_insert_ne by done. exact Hap.
    + rewrite length_fmap. lia.
Qed.

Lemma mem_node_create_refines_witness :
  ∃ gp ap m,
    Mem.rep_at m gp ap (replicate 2 None) (graph_create 2) ∧
    node_at (graph_create 2) 1 = None ∧ 1 ≤ Mem.room m ∧
    match node_create (graph_create 2) 1 "city" 3 4 with
    | Ok g' =>
        ∃ np m',
          Mem.node_create (Some gp) 1 "city" 3 4 m = Mem.Ret () m' ∧
          Mem.blocks m !! np = None ∧
          Mem.rep_at m' gp ap (<[1 := Some (np, [])]> (replicate 2 None)) g' ∧
          (∀ a, a ≠ np → a ≠ ap → Mem.blocks m' !! a = Mem.blocks m !! a) ∧
          S (Mem.room m') = Mem.room m ∧
          Mem.out m' = Mem.out m ∧ Mem.err m' = Mem.err m
    | _ => Mem.node_create (Some gp) 1 "city" 3 4 m = Mem.Undef
    end.
Proof.
  destruct (graph_create_spec (Mem.empty 3) 2 1 eq_refl)
    as (gp & ap & m & _ & Hrep & _ & _ & _ & Hroom & _).
  assert (node_at (graph_create 2) 1 = None) as Hnode by done.
  assert (1 ≤ Mem.room m) as Hr by (rewrite Hroom; lia).
  exists gp, ap, m. do 3 (split; [done|]).
  exact (mem_node_create_refines m gp ap _ _ 1 "city" 3 4 Hrep Hnode Hr).
Defined.

(** X25.  On the memory of a graph, with room for two cells, [add_edge]
    does what the model [add_edge] does: when both node numbers
    designate nodes, the memory afterwards is that of the graph with
    the edge, and the blocks that are not part of the graph are not
    touched; otherwise a [NULL] or out-of-range slot is dereferenced. *)
Theorem mem_add_edge_refines m gp ap lay g a b :
  Mem.rep_at m gp ap lay g → 2 ≤ Mem.room m →
  match add_edge g a b with
  | Ok g' =>
      ∃ lay' m',
        Mem.add_edge (Some gp) a b m = Mem.Ret () m' ∧
        Mem.rep_at m' gp ap lay' g' ∧
        (∀ x, is_Some (Mem.blocks m !! x) → x ∉ Mem.layout_addrs lay →
              Mem.blocks m' !! x = Mem.blocks m !! x) ∧
        S (S (Mem.room m')) = Mem.room m ∧
        Mem.out m' = Mem.out m ∧ Mem.err m' = Mem.err m
  | Fault => Mem.add_edge (Some gp) a b m = Mem.Undef
  | Timeout => False
  end.
Proof.
  intros Hrep Hroom.
  destruct (add_edge g a b) as [g'| |] eqn:Hadd.
  - destruct (Mem.room m) as [|[|r]] eqn:Hr; [lia..|].
    destruct (add_edge_spec _ _ _ _ _ _ _ _ _ Hrep Hadd Hr)
      as (lay' & m' & Hedge & Hrep' & Hframe & Hroom' & Hout & Herr).
    exists lay', m'. rewrite Hroom'. repeat (split; [done|]). done.
  - apply (add_edge_undef _ _ _ _ _ _ _ Hrep Hadd). lia.
  - unfold add_edge, get_node in Hadd.
    destruct (node_at g a); [|done]. simpl in Hadd.
    by destruct (node_at _ b).
Qed.

Lemma mem_add_edge_refines_witness :
  Mem.rep_at Mem.segment_mem 0 1 Mem.segment_layout segment ∧
  2 ≤ Mem.room Mem.segment_mem ∧
  match add_edge segment 1 1 with
  | Ok g' =>
      ∃ lay' m',
        Mem.add_edge (Some 0) 1 1 Mem.segment_mem = Mem.Ret () m' ∧
        Mem.rep_at m' 0 1 lay' g' ∧
        (∀ x, is_Some (Mem.blocks Mem.segment_mem !! x) →
              x ∉ Mem.layout_addrs Mem.segment_layout →
              Mem.blocks m' !! x = Mem.blocks Mem.segment_mem !! x) ∧
        S (S (Mem.room m')) = Mem.room Mem.segment_mem ∧
        Mem.out m' = Mem.out Mem.segment_mem ∧
        Mem.err m' = Mem.err Mem.segment_mem
  | Fault => Mem.add_edge (Some 0) 1 1 Mem.segment_mem = Mem.Undef
  | Timeout => False
  end.
Proof.
  assert (2 ≤ Mem.room Mem.segment_mem) as Hroom by (vm_compute; lia).
  split; [exact segment_rep|]. split; [done|].
  exact (mem_add_edge_refines Mem.segment_mem 0 1 Mem.segment_layout segment
           1 1 segment_rep Hroom).
Defined.

(** X26.  [node_create] on a slot that holds a node does not free that
    node: afterwards the slot holds a new address, no slot of the array
    holds the old one, and the old node and the cells of its neighbour
    list are still allocated, as they were. *)
Theorem mem_node_create_leaks m gp ap lay g i np cs name lat lon :
  Mem.rep_at m gp ap lay g → lay !! i = Some (Some (np, cs)) →
  1 ≤ Mem.room m →
  ∃ np' m',
    Mem.node_create (Some gp) i name lat lon m = Mem.Ret () m' ∧
    Mem.node_ptr (Some gp) i m' = Mem.Ret (Some np') m' ∧
    (∀ j, Mem.node_ptr (Some gp) j m' ≠ Mem.Ret (Some np) m') ∧
    ∀ x, x ∈ np :: cs →
         is_Some (Mem.blocks m !! x) ∧
         Mem.blocks m' !! x = Mem.blocks m !! x.
Proof.
  intros Hrep Hlay_i Hroom.
  destruct (Mem.room m) as [|r] eqn:Hr; [lia|].
  pose proof (lookup_lt_Some _ _ _ Hlay_i) as Hi.
  destruct (node_create_mem _ _ _ _ _ i name lat lon r Hrep Hi Hr)
    as (np' & Hnp' & Hcreate).
  pose proof Hrep as (Hne & Hgp_lay & Hap_lay & Hnodup & Hgp & Hap & Hall).
  assert (∀ x, x ∈ np :: cs → x ∈ Mem.layout_addrs lay) as Hin_lay.
  { intros x Hx. apply elem_of_layout_addrs. by exists i, (Some (np, cs)). }
  assert (np' ≠ gp) as Hnp_gp by (intros Heq; rewrite Heq in Hnp'; congruence).
  assert (np' ≠ ap) as Hnp_ap by (intros Heq; rewrite Heq in Hnp'; congruence).
  set (m' := Mem.MemState _ _ _ _) in Hcreate.
  assert (Mem.blocks m' !! gp = Some (Mem.GraphBlk (num_nodes g) (Some ap)))
    as Hgp'.
  { simpl. rewrite !lookup_insert_ne by done. exact Hgp. }
  assert (Mem.blocks m' !! ap
          = Some (Mem.Slots (<[i := Some np']> (Mem.slot_ptr <$> lay))))
    as Hap' by apply lookup_insert_eq.
  exists np', m'. split; [done|]. split; [|split].
  - eapply node_ptr_eq; [done..|].
    rewrite list_lookup_insert_eq; [done|]. by rewrite length_fmap.
  - intros j Hj.
    destruct (<[i := Some np']> (Mem.slot_ptr <$> lay) !! j) as [q|] eqn:Hq;
      cycle 1.
    { by rewrite (node_ptr_out _ _ _ _ _ _ Hgp' Hap' Hq) in Hj. }
    rewrite (node_ptr_eq _ _ _ _ _ _ _ Hgp' Hap' Hq) in Hj.
    injection Hj as ->.
    destruct (decide (j = i)) as [->|Hji].
    + rewrite list_lookup_insert_eq in Hq by (by rewrite length_fmap).
      injection Hq as ->.
      destruct (rep_at_allocated _ _ _ _ _ np Hrep) as [b Hb];
        [apply Hin_lay; by left | congruence].
    + rewrite list_lookup_insert_ne in Hq by done.
      rewrite list_lookup_fmap in Hq.
      destruct (lay !! j) as [[[npj csj]|]|] eqn:Hlay_j; simpl in Hq;
        [|done..].
      injection Hq as ->. apply Hji.
      apply (layout_slots_disjoint lay j i (Some (np, csj)) (Some (np, cs)) np);
        [done..|by left|by left].
  - intros x Hx. split; [by eapply rep_at_allocated, Hin_lay|]. simpl.
    assert (x ≠ ap) by (intros ->; by apply Hap_lay, Hin_lay).
    assert (x ≠ np').
    { intros ->.
      destruct (rep_at_allocated _ _ _ _ _ np' Hrep) as [b Hb];
        [by apply Hin_lay | congruence]. }
    by rewrite !lookup_insert_ne.
Qed.

Lemma mem_node_create_leaks_witness :
  Mem.rep_at Mem.segment_mem 0 1 Mem.segment_layout segment ∧
  Mem.segment_layout !! 0 = Some (Some (2, [4])) ∧
  1 ≤ Mem.room Mem.segment_mem ∧
  ∃ np' m',
    Mem.node_create (Some 0) 0 "city" 1 1 Mem.segment_mem = Mem.Ret () m' ∧
    Mem.node_ptr (Some 0) 0 m' = Mem.Ret (Some np') m' ∧
    (∀ j, Mem.node_ptr (Some 0) j m' ≠ Mem.Ret (Some 2) m') ∧
    ∀ x, x ∈ [2; 4] →
         is_Some (Mem.blocks Mem.segment_mem !! x) ∧
         Mem.blocks m' !! x = Mem.blocks Mem.segment_mem !! x.
Proof.
  assert (1 ≤ Mem.room Mem.segment_mem) as Hroom by (vm_compute; lia).
  split; [exact segment_rep|]. do 2 (split; [done|]).
  exact (mem_node_create_leaks Mem.segment_mem 0 1 Mem.segment_layout segment
           0 2 [4] "city" 1 1 segment_rep eq_refl Hroom).
Defined.

(** ** Freeing a graph *)

(** X27.  [graph_free] on the memory of a graph returns, having freed the
    [graph_t], every node and every cell of every neighbour list, and
    nothing else: in particular the array of node pointers, which
    [graph_create] allocated, is still allocated afterwards.  On [NULL]
    it does nothing, and a second [graph_free] of the same pointer reads
    a freed block. *)
Theorem mem_graph_free_frees m gp ap lay g :
  Mem.rep_at m gp ap lay g → length (nodes g) = num_nodes g →
  ∃ m',
    Mem.graph_free (Some gp) m = Mem.Ret () m' ∧
    (∀ x, Mem.blocks m' !! x
          = if decide (x = gp ∨ x ∈ Mem.layout_addrs lay) then None
            else Mem.blocks m !! x) ∧
    Mem.blocks m' !! ap = Some (Mem.Slots (Mem.slot_ptr <$> lay)) ∧
    Mem.room m' = Mem.room m + S (length (Mem.layout_addrs lay)) ∧
    Mem.out m' = Mem.out m ∧ Mem.err m' = Mem.err m ∧
    Mem.graph_free None m = Mem.Ret () m ∧
    Mem.graph_free (Some gp) m' = Mem.Undef.
Proof.
  intros Hrep Hlen.
  destruct (graph_free_spec _ _ _ _ _ Hrep Hlen)
    as (m' & Hfree & Hblocks & Hroom & Hout & Herr).
  pose proof Hrep as (Hne & Hgp_lay & Hap_lay & _ & _ & Hap & _).
  exists m'. do 2 (split; [done|]). split; [|do 4 (split; [done|])].
  - rewrite Hblocks. rewrite decide_False; [done|]. by intros [?|?].
  - unfold Mem.graph_free. apply bind_Undef.
    unfold Mem.load_graph. apply bind_Undef. unfold Mem.load.
    rewrite Hblocks. rewrite decide_True; [done | by left].
Qed.

Lemma mem_graph_free_frees_witness :
  Mem.rep_at Mem.segment_mem 0 1 Mem.segment_layout segment ∧
  length (nodes segment) = num_nodes segment ∧
  ∃ m',
    Mem.graph_free (Some 0) Mem.segment_mem = Mem.Ret () m' ∧
    (∀ x, Mem.blocks m' !! x
          = if decide (x = 0 ∨ x ∈ Mem.layout_addrs Mem.segment_layout)
            then None else Mem.blocks Mem.segment_mem !! x) ∧
    Mem.blocks m' !! 1
    = Some (Mem.Slots (Mem.slot_ptr <$> Mem.segment_layout)) ∧
    Mem.room m'
    = Mem.room Mem.segment_mem
      + S (length (Mem.layout_addrs Mem.segment_layout)) ∧
    Mem.out m' = Mem.out Mem.segment_mem ∧
    Mem.err m' = Mem.err Mem.segment_mem ∧
    Mem.graph_free None Mem.segment_mem = Mem.Ret () Mem.segment_mem ∧
    Mem.graph_free (Some 0) m' = Mem.Undef.
Proof.
  assert (length (nodes segment) = num_nodes segment) as Hlen by done.
  split; [exact segment_rep|]. split; [done|].
  exact (mem_graph_free_frees Mem.segment_mem 0 1 Mem.segment_layout segment
           segment_rep Hlen).
Defined.
